(** * Aho-Corasick keyword tree and automaton (src/automaton.cpp)

    A shallow embedding of [ac::Automaton] and the properties of its trie,
    its failure table and its matcher.

    Representation.
    - The automaton owns its nodes in the vector [nodes]; a node is created
      with [node_id = nodes.size()] and pushed at once, so a [NodePtr] is
      modelled as the position of the node in [nodes] ([Ptr i]) or [Null].
      The nodes that [outs] and [matches] point to are the nodes of the
      vector: a change of a node is seen through every pointer to it.  The
      field [node_id] is kept and read wherever the source reads it.
    - [int] values that index a vector are [nat]; [depth] and the offsets of a
      match are [Z] (the root has depth -1).  Sizes are assumed to fit an
      [int], as the source assumes.
    - [outs] is a map from tokens to nodes, here a list of pairs with one
      pair per key, in the order of insertion.  The order in which the
      source iterates over the map is fixed by node.h; the invariant below
      does not mention the order, and every theorem about the automata a
      program can hold is proved from the invariant alone.
    - The loops that follow failure links and the breadth-first loop of the
      builder are not structurally recursive: they take a [fuel] and return
      [None] when it runs out.  [None] is also the result of indexing a
      vector out of its range. *)

From stdpp Require Import base option list strings gmap sorting.
From Stdlib Require Import ZArith Lia.

Open Scope Z_scope.
Open Scope nat_scope.

(** ** Nodes (node.h) *)

Inductive NodePtr : Type :=
  | Null
  | Ptr (id : nat).

Definition OutMap : Type := list (string * nat).

(** Modelled from the spec: the class [Node] is declared in node.h, which is
    not part of the sources.  The fields are those the spec lists and
    automaton.cpp reads: [node_id], [depth], [value] (empty for a node that
    ends no pattern), [outs] and [matches] (the outputs). *)
Record Node : Type := mkNode {
  node_id : nat;
  depth : Z;
  value : string;
  outs : OutMap;
  matches : list nat
}.

(** Modelled from the spec: the constructor [Node(node_id, depth)] of
    node.h; a new node has no value, no edge and no output. *)
Definition new_Node (id : nat) (d : Z) : Node := mkNode id d "" [] [].

(** [outs.find(elem)]: the map has one entry per key. *)
Fixpoint outs_find (elem : string) (m : OutMap) : NodePtr :=
  match m with
  | [] => Null
  | (k, p) :: m' => if String.eqb k elem then Ptr p else outs_find elem m'
  end.

(** [outs[elem] = p]. *)
Fixpoint outs_set (elem : string) (p : nat) (m : OutMap) : OutMap :=
  match m with
  | [] => [(elem, p)]
  | (k, q) :: m' =>
      if String.eqb k elem then (k, p) :: m' else (k, q) :: outs_set elem p m'
  end.

(** Modelled from the spec: [Node::get_outnode] of node.h follows the edge
    of a token if the node has one, as [goto_node] does with [outs.find]. *)
Definition get_outnode (n : Node) (elem : string) : NodePtr :=
  outs_find elem (outs n).

(** Modelled from the spec: [Node::set_outnode] of node.h adds the edge. *)
Definition set_outnode (elem : string) (p : nat) (n : Node) : Node :=
  mkNode (node_id n) (depth n) (value n) (outs_set elem p (outs n)) (matches n).

(** Modelled from the spec: [Node::set_value] of node.h sets the payload. *)
Definition set_value (v : string) (n : Node) : Node :=
  mkNode (node_id n) (depth n) v (outs n) (matches n).

(** Modelled from the spec: [Node::add_match] is declared in node.h, which is
    not part of the sources.  The spec has the insertion add the node to its
    own outputs; [matches] is the vector that [update_automaton] extends with
    [std::back_inserter], so the addition is a [push_back].  The examples
    of lost and doubled matches further down insert every pattern once:
    they do not depend on what [add_match] does with a node that is among
    the outputs already. *)
Definition add_match (p : nat) (n : Node) : Node :=
  mkNode (node_id n) (depth n) (value n) (outs n) (matches n ++ [p]).

(** [std::copy(..., std::back_inserter(dest_node->matches))] *)
Definition append_matches (ms : list nat) (n : Node) : Node :=
  mkNode (node_id n) (depth n) (value n) (outs n) (matches n ++ ms).

(** ** Matches (match.h) *)

(** Modelled from the spec: [Match] is declared in match.h, which is not
    part of the sources; a match is [(start, end, value)], built by
    [Match(start, end, value)]. *)
Record Match : Type := mkMatch {
  m_start : Z;
  m_end : Z;
  m_value : string
}.

Definition MatchVector : Type := list Match.

(** ** The automaton *)

(** Modelled from the spec: the class [Automaton] is declared in
    automaton.h, which is not part of the sources.  The fields are those
    automaton.cpp uses: [nodes], [alphabet], [fail_table] and [uptodate];
    [root] is the first of [nodes]. *)
Record Automaton : Type := mkAutomaton {
  nodes : list Node;
  alphabet : gset string;
  fail_table : list nat;
  uptodate : bool
}.

(** [this->root] is the node pushed first. *)
Definition root : nat := 0.

(** [Automaton::Automaton()] *)
Definition new_Automaton : Automaton :=
  mkAutomaton [new_Node 0 (-1)] ∅ [] false.

(** [node->get_outnode(elem)] through a pointer into [nodes]. *)
Definition ptr_outnode (ns : list Node) (p : nat) (elem : string) : NodePtr :=
  match ns !! p with
  | Some n => get_outnode n elem
  | None => Null
  end.

(** The [for] loop of [Automaton::add]; [d] is the loop variable [depth] and
    [node] the pointer [node]. *)
Fixpoint add_walk (pattern : list string) (d : Z) (node : nat)
    (ns : list Node) : nat * list Node :=
  match pattern with
  | [] => (node, ns)
  | elem :: rest =>
      match ptr_outnode ns node elem with
      | Ptr outnode => add_walk rest (d + 1)%Z outnode ns
      | Null =>
          let newnode := length ns in
          add_walk rest (d + 1)%Z newnode
            (alter (set_outnode elem newnode) node ns ++ [new_Node newnode d])
      end
  end.

(** [Automaton::add] *)
Definition add (pattern : list string) (v : string) (a : Automaton) : Automaton :=
  let '(node, ns) := add_walk pattern 0%Z root (nodes a) in
  mkAutomaton
    (alter (fun n => add_match node (set_value v n)) node ns)
    (list_to_set pattern ∪ alphabet a)
    (fail_table a)
    false.

(** [Automaton::find_node] *)
Fixpoint find_from (ns : list Node) (prefix : list string) (node : nat) : NodePtr :=
  match prefix with
  | [] => Ptr node
  | elem :: rest =>
      match ptr_outnode ns node elem with
      | Ptr outnode => find_from ns rest outnode
      | Null => Null
      end
  end.

Definition find_node (a : Automaton) (prefix : list string) : NodePtr :=
  find_from (nodes a) prefix root.

Definition ptr_value (ns : list Node) (p : NodePtr) : option string :=
  match p with
  | Null => None
  | Ptr i => value <$> ns !! i
  end.

(** [Automaton::has_pattern] *)
Definition has_pattern (a : Automaton) (pattern : list string) : bool :=
  match ptr_value (nodes a) (find_node a pattern) with
  | Some v => negb (String.eqb v "")
  | None => false
  end.

(** [Automaton::has_prefix] *)
Definition has_prefix (a : Automaton) (prefix : list string) : bool :=
  match find_node a prefix with
  | Null => true
  | Ptr _ => false
  end.

(** [Automaton::get_value] *)
Definition get_value (a : Automaton) (pattern : list string) : string :=
  match ptr_value (nodes a) (find_node a pattern) with
  | Some v => v
  | None => ""
  end.

(** [Automaton::goto_node]; [None] when [node_id] is outside [nodes]. *)
Definition goto_node (ns : list Node) (id : nat) (elem : string) : option NodePtr :=
  node ← ns !! id;
  match get_outnode node elem with
  | Ptr p => Some (Ptr p)
  | Null => if Nat.eqb id 0 then Some (Ptr root) else Some Null
  end.

(** [while (goto_node(id, elem) == NULL) id = fail_table[id];] *)
Fixpoint follow_fail (fuel : nat) (ns : list Node) (ft : list nat)
    (elem : string) (id : nat) : option nat :=
  match fuel with
  | O => None
  | S fuel' =>
      g ← goto_node ns id elem;
      match g with
      | Ptr _ => Some id
      | Null => id' ← ft !! id; follow_fail fuel' ns ft elem id'
      end
  end.

(** The state of the builder: the nodes (whose [matches] grow), the local
    [fail_table] and the queue [Q]. *)
Record Build : Type := mkBuild {
  b_nodes : list Node;
  b_fail : list nat;
  b_queue : list nat
}.

(** One turn of the inner [for] loop of [update_automaton], for the edge
    [(elem, dest)] of the node [id]. *)
Definition build_edge (fuel : nat) (id : nat) (b : Build)
    (edge : string * nat) : option Build :=
  let '(elem, dest) := edge in
  dest_node ← b_nodes b !! dest;
  let Q := b_queue b ++ [node_id dest_node] in
  start ← b_fail b !! id;
  fail_node_id ← follow_fail fuel (b_nodes b) (b_fail b) elem start;
  g ← goto_node (b_nodes b) fail_node_id elem;
  match g with
  | Null => None
  | Ptr gp =>
      target ← b_nodes b !! gp;
      if bool_decide (node_id dest_node < length (b_fail b)) then
        let ft := <[node_id dest_node := node_id target]> (b_fail b) in
        f ← ft !! node_id dest_node;
        fail_node ← b_nodes b !! f;
        Some (mkBuild
                (alter (append_matches (matches fail_node)) dest (b_nodes b))
                ft Q)
      else None
  end.

Fixpoint build_edges (fuel : nat) (id : nat) (edges : OutMap) (b : Build)
    : option Build :=
  match edges with
  | [] => Some b
  | e :: rest => b' ← build_edge fuel id b e; build_edges fuel id rest b'
  end.

(** [while (Q.size() > 0)]: [steps] bounds the number of turns. *)
Fixpoint build_loop (steps fuel : nat) (b : Build) : option Build :=
  match b_queue b with
  | [] => Some b
  | id :: Q =>
      match steps with
      | O => None
      | S steps' =>
          node ← b_nodes b !! id;
          b' ← build_edges fuel id (outs node) (mkBuild (b_nodes b) (b_fail b) Q);
          build_loop steps' fuel b'
      end
  end.

(** [Automaton::update_automaton] *)
Definition update_automaton (fuel : nat) (a : Automaton) : option Automaton :=
  let ft := replicate (length (nodes a)) 0 in
  r ← nodes a !! root;
  Q ← mapM (fun e : string * nat => node_id <$> nodes a !! e.2) (outs r);
  b ← build_loop fuel fuel (mkBuild (nodes a) ft Q);
  Some (mkAutomaton (b_nodes b) (alphabet a) (b_fail b) true).

(** The matches pushed for one node reached at position [idx]. *)
Definition emit (ns : list Node) (idx : Z) (node : Node) : option MatchVector :=
  mapM (fun r : nat =>
          resnode ← ns !! r;
          Some (mkMatch (idx - depth resnode)%Z (idx + 1)%Z (value resnode)))
       (matches node).

(** The [for] loop of [get_matches] from position [idx] in state [id]. *)
Fixpoint scan (fuel : nat) (ns : list Node) (ft : list nat) (text : list string)
    (idx : Z) (id : nat) (acc : MatchVector) : option MatchVector :=
  match text with
  | [] => Some acc
  | elem :: rest =>
      id' ← follow_fail fuel ns ft elem id;
      g ← goto_node ns id' elem;
      match g with
      | Null => None
      | Ptr p =>
          node ← ns !! p;
          new ← (if String.eqb (value node) "" then Some [] else emit ns idx node);
          scan fuel ns ft rest (idx + 1)%Z (node_id node) (acc ++ new)
      end
  end.

(** [if (!this->uptodate) this->update_automaton();] *)
Definition refresh (fuel : nat) (a : Automaton) : option Automaton :=
  if uptodate a then Some a else update_automaton fuel a.

(** The scan of [get_matches], from the root. *)
Definition collect (fuel : nat) (text : list string) (a : Automaton)
    : option MatchVector :=
  r ← nodes a !! root;
  scan fuel (nodes a) (fail_table a) text 0%Z (node_id r) [].

Section Matcher.

(** [remove_overlaps] is declared in match.h, which is not part of the
    sources: it is a parameter here, a function of the matches collected. *)
Variable remove_overlaps : MatchVector → MatchVector.

(** [Automaton::get_matches]: the automaton after the call and the matches
    returned. *)
Definition get_matches (fuel : nat) (text : list string) (exclude_overlaps : bool)
    (a : Automaton) : option (Automaton * MatchVector) :=
  a' ← refresh fuel a;
  ms ← collect fuel text a';
  Some (a', if exclude_overlaps then remove_overlaps ms else ms).

End Matcher.

(** ** Invariants *)

Definition dep (ns : list Node) (i : nat) : Z :=
  default 0%Z (depth <$> ns !! i).

(** What [add] keeps true of the links between the nodes: identities are
    positions, an edge leads to a younger node one level deeper, and every
    node but the root has one incoming edge and is reached from the root. *)
Record wf_links (ns : list Node) : Prop := {
  wf_root : ∃ r, ns !! 0 = Some r ∧ depth r = (-1)%Z;
  wf_id : ∀ i n, ns !! i = Some n → node_id n = i;
  wf_edge : ∀ i n k j, ns !! i = Some n → (k, j) ∈ outs n →
      i < j < length ns ∧ dep ns j = (depth n + 1)%Z;
  wf_depth : ∀ i n, ns !! i = Some n →
      (depth n < Z.of_nat i)%Z ∧ (0 < i → (0 ≤ depth n)%Z);
  wf_parent : ∀ i i' n n' k k' j, ns !! i = Some n → ns !! i' = Some n' →
      (k, j) ∈ outs n → (k', j) ∈ outs n' → i = i' ∧ k = k';
  wf_path : ∀ j, j < length ns → ∃ q, find_from ns q root = Ptr j
}.

(** The path of node [f] is a suffix of the path of node [i]. *)
Definition suffix_rel (ns : list Node) (f i : nat) : Prop :=
  ∀ qf qi, find_from ns qf root = Ptr f → find_from ns qi root = Ptr i →
           qf `suffix_of` qi.

(** The outputs of a node are nodes whose paths are suffixes of its path,
    among them the node itself once it has a value. *)
Record wf_outputs (ns : list Node) : Prop := {
  wf_matches : ∀ i n r, ns !! i = Some n → r ∈ matches n → r < length ns;
  wf_self : ∀ i n, ns !! i = Some n → value n ≠ "" → i ∈ matches n;
  wf_suffix : ∀ i n r, ns !! i = Some n → r ∈ matches n → suffix_rel ns r i
}.

Definition wf_trie (ns : list Node) : Prop := wf_links ns ∧ wf_outputs ns.

(** Two nodes with the same identity, depth and edges. *)
Definition same_links (n m : Node) : Prop :=
  node_id n = node_id m ∧ depth n = depth m ∧ outs n = outs m.

(** The node added for a missing edge [elem] of [node]. *)
Definition extend (ns : list Node) (node : nat) (elem : string) (d : Z) : list Node :=
  alter (set_outnode elem (length ns)) node ns ++ [new_Node (length ns) d].

(** What a walk along [p] from [s] that ends in [t] does to the nodes. *)
Record walk_spec (p : list string) (s : nat) (ns : list Node)
    (t : nat) (ns' : list Node) : Prop := {
  ws_wf : wf_trie ns';
  ws_target_lt : t < length ns';
  ws_length : length ns ≤ length ns';
  ws_mono : ∀ q x j, find_from ns q x = Ptr j → find_from ns' q x = Ptr j;
  ws_target : find_from ns' p s = Ptr t;
  ws_old_edge : ∀ i k j,
      ptr_outnode ns' i k = Ptr j → j < length ns → ptr_outnode ns i k = Ptr j;
  ws_new : ∀ j, length ns ≤ j < length ns' →
      ∃ p1 p2, p = p1 ++ p2 ∧ find_from ns' p1 s = Ptr j;
  ws_old_node : ∀ i n, ns !! i = Some n →
      ∃ n', ns' !! i = Some n' ∧ value n' = value n ∧ matches n' = matches n;
  ws_new_node : ∀ i n', ns' !! i = Some n' → length ns ≤ i →
      value n' = "" ∧ matches n' = []
}.

(** A failure table points to nodes, and each entry is the root or a node
    less deep than its source, with a path that is a suffix of the path of
    the source. *)
Definition fail_ok (ns : list Node) (ft : list nat) : Prop :=
  length ft = length ns ∧
  ∀ i f, ft !! i = Some f →
    f < length ns ∧ (f = 0 ∨ (dep ns f < dep ns i)%Z) ∧ suffix_rel ns f i.

Record wf_automaton (a : Automaton) : Prop := {
  wf_nodes : wf_trie (nodes a);
  wf_fail : uptodate a = true → fail_ok (nodes a) (fail_table a)
}.

(** The automata a program can hold: built by the constructor, [add] and
    the builder ([get_matches] changes the automaton through the builder
    only). *)
Inductive reachable : Automaton → Prop :=
  | reach_new : reachable new_Automaton
  | reach_add a p v : reachable a → reachable (add p v a)
  | reach_build a fuel a' :
      reachable a → update_automaton fuel a = Some a' → reachable a'.

(** The automaton that the insertions of [h] alone make, in their order, and
    the automata made by the insertions of [h] with runs of the builder
    anywhere in between. *)
Definition inserted (h : list (list string * string)) : Automaton :=
  fold_left (λ a pv, add pv.1 pv.2 a) h new_Automaton.

Inductive built_from : list (list string * string) → Automaton → Prop :=
  | built_new : built_from [] new_Automaton
  | built_add h a p v : built_from h a → built_from (h ++ [(p, v)]) (add p v a)
  | built_build h a fuel a' :
      built_from h a → update_automaton fuel a = Some a' → built_from h a'.

(** The builder leaves a node as it is, but for outputs added at the end. *)
Definition grown (n m : Node) : Prop :=
  same_links n m ∧ value n = value m ∧ matches n `prefix_of` matches m.

(** The invariant of the loops of [update_automaton] started on [ns0]. *)
Record build_inv (ns0 : list Node) (b : Build) : Prop := {
  bi_grown : Forall2 grown ns0 (b_nodes b);
  bi_outputs : wf_outputs (b_nodes b);
  bi_fail : fail_ok (b_nodes b) (b_fail b);
  bi_queue : Forall (λ i, 0 < i < length ns0) (b_queue b)
}.

(** Two states of the builder that differ in the outputs of the nodes
    only. *)
Definition same_build (b b' : Build) : Prop :=
  Forall2 same_links (b_nodes b) (b_nodes b') ∧
  b_fail b = b_fail b' ∧ b_queue b = b_queue b'.

(** [subtree ns i s]: the tree below node [i] has [s] nodes, and
    [forest ns l s]: the trees below the nodes of [l] have [s] nodes in all.
    The builder takes every node below the root from the queue once. *)
Inductive subtree (ns : list Node) : nat → nat → Prop :=
  | subtree_node i n s :
      ns !! i = Some n → forest ns (outs n).*2 s → subtree ns i (S s)
with forest (ns : list Node) : list nat → nat → Prop :=
  | forest_nil : forest ns [] 0
  | forest_cons i l s t :
      subtree ns i s → forest ns l t → forest ns (i :: l) (s + t).

(** A call of [get_matches] on [a] returns, once the fuel passes a bound,
    the automaton [a'] that the builder makes of [a] and the matches of the
    scan of [a']; [a'] is up to date, has the links and values of [a], and
    its failure table is one for its nodes. *)
Definition rebuilds_before_scan (ro : MatchVector → MatchVector)
    (text : list string) (ex : bool) (a : Automaton) : Prop :=
  ∃ N a' ms,
    (∀ fuel, N ≤ fuel →
       update_automaton fuel a = Some a' ∧
       collect fuel text a' = Some ms ∧
       get_matches ro fuel text ex a = Some (a', if ex then ro ms else ms)) ∧
    uptodate a' = true ∧
    Forall2 grown (nodes a) (nodes a') ∧
    fail_ok (nodes a') (fail_table a').

(** [m] reports the pattern [q], the path of a node whose value is
    [m_value m], where it stands in [text], and was pushed at a position
    from [lo] on. *)
Definition reported (ns : list Node) (text : list string) (lo : nat)
    (m : Match) : Prop :=
  ∃ (l1 q l2 : list string) (r : nat),
    text = l1 ++ q ++ l2 ∧ lo < length (l1 ++ q) ∧
    find_from ns q root = Ptr r ∧ ptr_value ns (Ptr r) = Some (m_value m) ∧
    m_start m = Z.of_nat (length l1) ∧ m_end m = Z.of_nat (length (l1 ++ q)).

(** The paths of the node [id] are suffixes of the tokens read. *)
Definition state_ok (ns : list Node) (read : list string) (id : nat) : Prop :=
  ∀ q, find_from ns q root = Ptr id → q `suffix_of` read.

(** ** Example automata *)

(** The four patterns of the classic example. *)
Definition ushers : Automaton :=
  add ["h"; "e"; "r"; "s"] "hers"
    (add ["h"; "i"; "s"] "his"
       (add ["s"; "h"; "e"] "she"
          (add ["h"; "e"] "he" new_Automaton))).

Definition ushers_built : Automaton :=
  default new_Automaton (update_automaton 16 ushers).

(** The patterns [a b c] and [b]. *)
Definition inner : Automaton :=
  add ["b"] "Y" (add ["a"; "b"; "c"] "X" new_Automaton).

(** The patterns [a] and [b a]. *)
Definition suffix2 : Automaton :=
  add ["b"; "a"] "Y" (add ["a"] "X" new_Automaton).

Definition suffix2_built : Automaton :=
  default new_Automaton (update_automaton 16 suffix2).

Definition suffix2_rebuilt : Automaton :=
  default new_Automaton (update_automaton 16 suffix2_built).

(** ** Insertions as a map *)

(** The value that the insertions of [h], in their order, leave for the
    pattern [q]: the value of the last insertion of [q], or the empty string
    when [q] was never inserted. *)
Definition last_value (q : list string) (h : list (list string * string)) : string :=
  fold_left (λ acc pv, if decide (pv.1 = q) then pv.2 else acc) h "".

(** The tokens of the patterns of [h]. *)
Definition tokens_of (h : list (list string * string)) : gset string :=
  list_to_set (concat h.*1).

(** [x] ends no later than [y]. *)
Definition end_le (x y : Match) : Prop := (m_end x ≤ m_end y)%Z.

Definition ushers_history : list (list string * string) :=
  [(["h"; "e"], "he"); (["s"; "h"; "e"], "she");
   (["h"; "i"; "s"], "his"); (["h"; "e"; "r"; "s"], "hers")].

(** ** The longest suffix *)

(** [f] is the node of the longest suffix of [w] that is a path of the
    tree. *)
Definition longest_in (ns : list Node) (f : nat) (w : list string) : Prop :=
  ∃ qf, find_from ns qf root = Ptr f ∧ qf `suffix_of` w ∧
        ∀ q j, find_from ns q root = Ptr j → q `suffix_of` w →
               length q ≤ length qf.

(** [f] is the node of the longest proper suffix of the path of [i] that is
    a path of the tree. *)
Definition longest_suffix (ns : list Node) (f i : nat) : Prop :=
  ∃ tok rest, find_from ns (tok :: rest) root = Ptr i ∧ longest_in ns f rest.

(** Every entry of the failure table but the root's is the node of the
    longest proper suffix. *)
Definition fail_longest (ns : list Node) (ft : list nat) : Prop :=
  ∀ i f, 0 < i → ft !! i = Some f → longest_suffix ns f i.

(** The path of [s] is a suffix of [w], and no suffix of [w] that the tree
    continues with [elem] is longer. *)
Definition bounds_edge (ns : list Node) (elem : string) (w : list string)
    (s : nat) : Prop :=
  ∃ qs, find_from ns qs root = Ptr s ∧ qs `suffix_of` w ∧
        ∀ q j, q `suffix_of` w → find_from ns (q ++ [elem]) root = Ptr j →
               length q ≤ length qs.

(** The outputs of node [i] in [ns] hold every node with a value whose path
    is a suffix, not empty, of the path of [i]; paths and values are read
    in [ns0]. *)
Definition complete_at (ns0 ns : list Node) (i : nat) : Prop :=
  ∀ n qi r qr nr,
    ns !! i = Some n → find_from ns0 qi root = Ptr i →
    find_from ns0 qr root = Ptr r → qr ≠ [] → qr `suffix_of` qi →
    ns0 !! r = Some nr → value nr ≠ "" → r ∈ matches n.

Definition outputs_complete (ns : list Node) : Prop :=
  ∀ i, complete_at ns ns i.

(** The order in which the builder started on [ns0] takes the nodes: [done]
    are the nodes taken from the queue, the queue holds nodes of depth [d]
    ([Qa]) before nodes of depth [d + 1] ([Qb]), and [pend] are the children
    of the node at work that are not in the queue yet.  The nodes that were
    in the queue have their final entry and outputs. *)
Record bfs_inv (ns0 : list Node) (done pend : list nat) (d : Z)
    (Qa Qb : list nat) (b : Build) : Prop := {
  bfs_queue : b_queue b = Qa ++ Qb;
  bfs_Qa : Forall (λ y, dep ns0 y = d) Qa;
  bfs_Qb : Forall (λ y, dep ns0 y = (d + 1)%Z) Qb;
  bfs_pend : Forall (λ y, dep ns0 y = (d + 1)%Z) pend;
  bfs_root : ∀ k j, ptr_outnode ns0 root k = Ptr j → j ∈ done ++ Qa ++ Qb;
  bfs_closed : ∀ i k j, i ∈ done → ptr_outnode ns0 i k = Ptr j →
      j ∈ done ++ Qa ++ Qb ++ pend;
  bfs_fail : ∀ i f, i ∈ done ++ Qa ++ Qb → b_fail b !! i = Some f →
      longest_suffix ns0 f i;
  bfs_outputs : ∀ i, i ∈ done ++ Qa ++ Qb → complete_at ns0 (b_nodes b) i
}.

(** ** Nodes reached from the root *)

(** The words of the specification for [has_prefix]: "a node is reached by
    following [prefix] from the root".  [spec_reached ns i q t] says that
    from the node [i] the tokens of [q], one edge of the tree each, lead to
    the node [t].  It is written after the specification, not after
    [find_node], and is compared with [has_prefix] further down. *)
Inductive spec_reached (ns : list Node) : nat → list string → nat → Prop :=
  | spec_reached_nil i : i < length ns → spec_reached ns i [] i
  | spec_reached_cons i n k j q t :
      ns !! i = Some n → (k, j) ∈ outs n → spec_reached ns j q t →
      spec_reached ns i (k :: q) t.

(** ** One more insertion, before and after a build *)

(** The classic example with the pattern [h i] inserted last: into the
    automaton that was never built, and into the automaton that a call of
    [get_matches] has built before. *)
Definition ushers_hi : Automaton := add ["h"; "i"] "hi" ushers.

Definition ushers_built_hi : Automaton := add ["h"; "i"] "hi" ushers_built.

Definition ushers_built_hi_rebuilt : Automaton :=
  default new_Automaton (update_automaton 16 ushers_built_hi).

Definition ushers_hi_history : list (list string * string) :=
  ushers_history ++ [(["h"; "i"], "hi")].

(** ** The keyword tree *)

Lemma outs_find_elem k m j : outs_find k m = Ptr j → (k, j) ∈ m.
Proof.
  induction m as [|[k' p] m IH]; simpl; [done|].
  destruct (String.eqb k' k) eqn:E.
  - apply String.eqb_eq in E. intros [= ->]. subst. left.
  - intros H. right. auto.
Qed.

Lemma outs_set_absent k p m : outs_find k m = Null → outs_set k p m = m ++ [(k, p)].
Proof.
  induction m as [|[k' q] m IH]; simpl; [done|].
  destruct (String.eqb k' k); [done|]. intros H. by rewrite IH.
Qed.

Lemma outs_find_snoc k' k p m :
  outs_find k' (m ++ [(k, p)]) =
  match outs_find k' m with
  | Ptr j => Ptr j
  | Null => if String.eqb k k' then Ptr p else Null
  end.
Proof.
  induction m as [|[k0 q] m IH]; simpl; [done|].
  destruct (String.eqb k0 k'); [done|]. apply IH.
Qed.

Lemma ptr_outnode_Ptr ns i k j :
  ptr_outnode ns i k = Ptr j → ∃ n, ns !! i = Some n ∧ (k, j) ∈ outs n.
Proof.
  unfold ptr_outnode, get_outnode. destruct (ns !! i) as [n|]; [|done].
  intros H. exists n. split; [done|]. by apply outs_find_elem.
Qed.

Lemma extend_length ns node elem d : length (extend ns node elem d) = S (length ns).
Proof. unfold extend. rewrite length_app, length_alter. simpl. lia. Qed.

Lemma extend_lookup_old ns node elem d i :
  i < length ns → i ≠ node → extend ns node elem d !! i = ns !! i.
Proof.
  intros Hi Hne. unfold extend.
  rewrite lookup_app_l by (rewrite length_alter; lia).
  by rewrite list_lookup_alter_ne.
Qed.

Lemma extend_lookup_node ns node elem d :
  node < length ns →
  extend ns node elem d !! node = set_outnode elem (length ns) <$> ns !! node.
Proof.
  intros Hlt. unfold extend.
  rewrite lookup_app_l by (rewrite length_alter; lia).
  by rewrite list_lookup_alter_eq.
Qed.

Lemma extend_lookup_new ns node elem d :
  extend ns node elem d !! length ns = Some (new_Node (length ns) d).
Proof.
  unfold extend. rewrite lookup_app_r by (rewrite length_alter; lia).
  by rewrite length_alter, Nat.sub_diag.
Qed.

(** Every node of the extended vector is an old node, the old node that got
    the edge, or the new node. *)
Lemma extend_lookup_inv ns node elem d i n' :
  node < length ns → extend ns node elem d !! i = Some n' →
  (i ≠ node ∧ ns !! i = Some n') ∨
  (i = node ∧ ∃ n, ns !! node = Some n ∧ n' = set_outnode elem (length ns) n) ∨
  (i = length ns ∧ n' = new_Node (length ns) d).
Proof.
  intros Hnode H.
  destruct (decide (i = node)) as [->|Hne].
  - rewrite extend_lookup_node in H by done.
    destruct (ns !! node) as [n|] eqn:E; simpl in H; [|done].
    injection H as <-. right; left. eauto.
  - destruct (decide (i < length ns)) as [Hlt|Hge].
    + rewrite extend_lookup_old in H by done. by left.
    + apply lookup_lt_Some in H as Hi. rewrite extend_length in Hi.
      assert (i = length ns) as -> by lia.
      rewrite extend_lookup_new in H. simplify_eq. right; right. done.
Qed.

Lemma dep_extend_old ns node elem d i :
  node < length ns → i < length ns → dep (extend ns node elem d) i = dep ns i.
Proof.
  intros Hnode Hi. unfold dep.
  destruct (decide (i = node)) as [->|Hne].
  - rewrite extend_lookup_node by done. by destruct (ns !! node).
  - by rewrite extend_lookup_old.
Qed.

Lemma dep_extend_new ns node elem d : dep (extend ns node elem d) (length ns) = d.
Proof. unfold dep. by rewrite extend_lookup_new. Qed.

(** The edges of the extended vector: the new edge, and the old ones. *)
Lemma ptr_outnode_extend ns node elem d i k :
  node < length ns → ptr_outnode ns node elem = Null →
  ptr_outnode (extend ns node elem d) i k =
  if decide (i = node ∧ k = elem) then Ptr (length ns) else ptr_outnode ns i k.
Proof.
  intros Hnode Hnull. unfold ptr_outnode in *.
  destruct (decide (i = node)) as [->|Hne].
  - rewrite extend_lookup_node by done.
    destruct (ns !! node) as [n|] eqn:E; simpl.
    2:{ apply lookup_ge_None in E. lia. }
    unfold get_outnode in *. simpl. rewrite outs_set_absent by done.
    rewrite outs_find_snoc. case_decide as Hd.
    + destruct Hd as [_ ->]. rewrite Hnull. by rewrite String.eqb_refl.
    + destruct (outs_find k (outs n)); [|done].
      destruct (String.eqb elem k) eqn:Ek; [|done].
      apply String.eqb_eq in Ek. naive_solver.
  - rewrite decide_False by (by intros [? _]).
    destruct (decide (i < length ns)) as [Hlt|Hge].
    + by rewrite extend_lookup_old.
    + rewrite (lookup_ge_None_2 ns) by lia.
      destruct (extend ns node elem d !! i) as [n'|] eqn:E; [|done].
      apply extend_lookup_inv in E as [[_ E]|[[? _]|[_ ->]]]; [|done..].
      apply lookup_lt_Some in E. lia.
Qed.

Lemma find_from_extend ns node elem d q s j :
  node < length ns → ptr_outnode ns node elem = Null →
  find_from ns q s = Ptr j → find_from (extend ns node elem d) q s = Ptr j.
Proof.
  intros Hnode Hnull. revert s. induction q as [|k q IH]; intros s; simpl; [done|].
  rewrite ptr_outnode_extend by done.
  destruct (ptr_outnode ns s k) as [|o] eqn:E; [done|].
  rewrite decide_False; [by auto|]. intros [-> ->]. congruence.
Qed.

Lemma find_from_snoc ns q k s :
  find_from ns (q ++ [k]) s =
  match find_from ns q s with
  | Ptr i => ptr_outnode ns i k
  | Null => Null
  end.
Proof.
  revert s. induction q as [|k' q IH]; intros s; simpl.
  - by destruct (ptr_outnode ns s k).
  - destruct (ptr_outnode ns s k'); [done|]. apply IH.
Qed.

Lemma find_from_app ns q1 q2 s :
  find_from ns (q1 ++ q2) s =
  match find_from ns q1 s with
  | Ptr i => find_from ns q2 i
  | Null => Null
  end.
Proof.
  revert s. induction q1 as [|k q1 IH]; intros s; simpl; [done|].
  destruct (ptr_outnode ns s k); [done|]. apply IH.
Qed.

(** In a well-formed tree a node is found by one path only. *)
Lemma find_from_inj ns q q' j :
  wf_links ns → find_from ns q root = Ptr j → find_from ns q' root = Ptr j → q = q'.
Proof.
  intros Hwf. revert q' j.
  assert (Hroot : ∀ q0 k, find_from ns (q0 ++ [k]) root ≠ Ptr root).
  { intros q0 k. rewrite find_from_snoc.
    destruct (find_from ns q0 root) as [|i]; [done|]. intros Hk.
    apply ptr_outnode_Ptr in Hk as (n & Hn & Hin).
    pose proof (wf_edge _ Hwf _ _ _ _ Hn Hin). unfold root in *. lia. }
  induction q as [|k q IH] using rev_ind; intros q' j.
  - simpl. intros [= <-]. destruct q' as [|k' q' _] using rev_ind; [done|].
    intros H. by apply Hroot in H.
  - destruct q' as [|k' q' _] using rev_ind.
    + simpl. intros H [= <-]. by apply Hroot in H.
    + rewrite !find_from_snoc.
      destruct (find_from ns q root) as [|i] eqn:E; [done|].
      destruct (find_from ns q' root) as [|i'] eqn:E'; [done|].
      intros Hk Hk'.
      apply ptr_outnode_Ptr in Hk as (n & Hn & Hin).
      apply ptr_outnode_Ptr in Hk' as (n' & Hn' & Hin').
      destruct (wf_parent _ Hwf _ _ _ _ _ _ _ Hn Hn' Hin Hin') as [-> ->].
      by rewrite (IH q' i').
Qed.

(** The depth of a node is the length of its path, less one. *)
Lemma find_from_dep ns q s j :
  wf_links ns → s < length ns → find_from ns q s = Ptr j →
  j < length ns ∧ dep ns j = (dep ns s + Z.of_nat (length q))%Z.
Proof.
  intros Hwf. revert s. induction q as [|k q IH]; intros s Hs; simpl.
  - intros [= <-]. split; [done|lia].
  - destruct (ptr_outnode ns s k) as [|o] eqn:E; [done|].
    apply ptr_outnode_Ptr in E as (n & Hn & Hin).
    destruct (wf_edge _ Hwf _ _ _ _ Hn Hin) as [[_ Ho] Hd].
    intros Hq. destruct (IH o Ho Hq) as [? ->]. split; [done|].
    rewrite Hd. replace (dep ns s) with (depth n); [lia|].
    unfold dep. by rewrite Hn.
Qed.

(** *** Nodes that differ in value or outputs only *)

Lemma same_links_refl ns : Forall2 same_links ns ns.
Proof. apply Forall_Forall2_diag, Forall_forall. by intros n _. Qed.

Lemma same_links_lookup ns ns' i n :
  Forall2 same_links ns ns' → ns !! i = Some n →
  ∃ n', ns' !! i = Some n' ∧ same_links n n'.
Proof. intros H Hi. by eapply Forall2_lookup_l. Qed.

Lemma same_links_lookup_r ns ns' i n' :
  Forall2 same_links ns ns' → ns' !! i = Some n' →
  ∃ n, ns !! i = Some n ∧ same_links n n'.
Proof. intros H Hi. by eapply Forall2_lookup_r. Qed.

Lemma same_links_alter ns ns' f t :
  Forall2 same_links ns ns' → (∀ n, same_links n (f n)) →
  Forall2 same_links ns (alter f t ns').
Proof.
  intros H Hf. apply Forall2_alter_r; [done|].
  intros x y _ _ (? & ? & ?). destruct (Hf y) as (? & ? & ?).
  repeat split; congruence.
Qed.

Lemma ptr_outnode_links ns ns' i k :
  Forall2 same_links ns ns' → ptr_outnode ns' i k = ptr_outnode ns i k.
Proof.
  intros H. unfold ptr_outnode, get_outnode.
  destruct (ns !! i) as [n|] eqn:E.
  - destruct (same_links_lookup _ _ _ _ H E) as (n' & -> & _ & _ & ->). done.
  - destruct (ns' !! i) as [n'|] eqn:E'; [|done].
    destruct (same_links_lookup_r _ _ _ _ H E') as (n & ? & _). congruence.
Qed.

Lemma find_from_links ns ns' q s :
  Forall2 same_links ns ns' → find_from ns' q s = find_from ns q s.
Proof.
  intros H. revert s. induction q as [|k q IH]; intros s; simpl; [done|].
  rewrite (ptr_outnode_links ns ns') by done.
  destruct (ptr_outnode ns s k); auto.
Qed.

Lemma dep_links ns ns' i : Forall2 same_links ns ns' → dep ns' i = dep ns i.
Proof.
  intros H. unfold dep. destruct (ns !! i) as [n|] eqn:E.
  - destruct (same_links_lookup _ _ _ _ H E) as (n' & -> & _ & Hd & _).
    simpl. congruence.
  - destruct (ns' !! i) as [n'|] eqn:E'; [|done].
    destruct (same_links_lookup_r _ _ _ _ H E') as (n & ? & _). congruence.
Qed.

Lemma wf_links_same ns ns' :
  Forall2 same_links ns ns' → wf_links ns → wf_links ns'.
Proof.
  intros H [Hroot Hid Hedge Hdepth Hparent Hpath].
  pose proof (Forall2_length _ _ _ H) as Hlen.
  split.
  - destruct Hroot as (r & Hr & Hd).
    destruct (same_links_lookup _ _ _ _ H Hr) as (r' & ? & _ & ? & _).
    exists r'. split; [done|congruence].
  - intros i n' Hi.
    destruct (same_links_lookup_r _ _ _ _ H Hi) as (n & Hn & ? & _).
    rewrite <- (Hid i n Hn). done.
  - intros i n' k j Hi Hin.
    destruct (same_links_lookup_r _ _ _ _ H Hi) as (n & Hn & _ & Hd & Ho).
    rewrite <- Ho in Hin. destruct (Hedge i n k j Hn Hin) as [? ?].
    rewrite (dep_links ns ns') by done. rewrite <- Hlen, <- Hd. done.
  - intros i n' Hi.
    destruct (same_links_lookup_r _ _ _ _ H Hi) as (n & Hn & _ & Hd & _).
    rewrite <- Hd. by apply Hdepth.
  - intros i i' n1 n2 k k' j Hi Hi' Hin Hin'.
    destruct (same_links_lookup_r _ _ _ _ H Hi) as (m1 & Hm1 & _ & _ & Ho1).
    destruct (same_links_lookup_r _ _ _ _ H Hi') as (m2 & Hm2 & _ & _ & Ho2).
    rewrite <- Ho1 in Hin. rewrite <- Ho2 in Hin'. eauto.
  - intros j Hj. rewrite <- Hlen in Hj. destruct (Hpath j Hj) as [q Hq].
    exists q. by rewrite (find_from_links ns ns').
Qed.

Lemma edge_lookup ns i n k j :
  wf_links ns → ns !! i = Some n → (k, j) ∈ outs n → ptr_outnode ns i k = Ptr j.
Proof.
  intros Hwf Hn Hin. destruct (wf_edge _ Hwf _ _ _ _ Hn Hin) as [[Hij Hj] _].
  destruct (wf_path _ Hwf j Hj) as [q Hq].
  destruct q as [|k' q _] using rev_ind.
  - simpl in Hq. injection Hq as <-. unfold root in *. lia.
  - rewrite find_from_snoc in Hq.
    destruct (find_from ns q root) as [|i']; [done|].
    apply ptr_outnode_Ptr in Hq as Hq'. destruct Hq' as (n' & Hn' & Hin').
    by destruct (wf_parent _ Hwf _ _ _ _ _ _ _ Hn Hn' Hin Hin') as [-> ->].
Qed.

(** *** Suffixes *)

Lemma suffix_rel_links ns ns' f i :
  Forall2 same_links ns ns' → suffix_rel ns f i → suffix_rel ns' f i.
Proof.
  intros H Hs qf qi. rewrite !(find_from_links ns ns') by done. apply Hs.
Qed.

Lemma suffix_rel_refl ns i : wf_links ns → suffix_rel ns i i.
Proof. intros Hwf qf qi Hf Hi. by rewrite (find_from_inj _ _ _ _ Hwf Hf Hi). Qed.

Lemma suffix_rel_trans ns f g i :
  wf_links ns → g < length ns →
  suffix_rel ns f g → suffix_rel ns g i → suffix_rel ns f i.
Proof.
  intros Hwf Hg Hfg Hgi qf qi Hf Hi. destruct (wf_path _ Hwf g Hg) as [qg Hqg].
  etrans; [by apply Hfg|by apply Hgi].
Qed.

Lemma suffix_rel_root ns i : wf_links ns → suffix_rel ns root i.
Proof.
  intros Hwf qf qi Hf _.
  rewrite (find_from_inj ns qf [] root Hwf Hf eq_refl). apply suffix_nil.
Qed.

Lemma suffix_rel_child ns f u k g j :
  wf_links ns → suffix_rel ns f u →
  ptr_outnode ns f k = Ptr g → ptr_outnode ns u k = Ptr j → suffix_rel ns g j.
Proof.
  intros Hwf Hfu Hg Hj qg qj Hqg Hqj.
  apply ptr_outnode_Ptr in Hg as Hf'. destruct Hf' as (nf & Hnf & _).
  apply ptr_outnode_Ptr in Hj as Hu'. destruct Hu' as (nu & Hnu & _).
  destruct (wf_path _ Hwf f) as [qf Hqf]; [by apply lookup_lt_Some in Hnf|].
  destruct (wf_path _ Hwf u) as [qu Hqu]; [by apply lookup_lt_Some in Hnu|].
  assert (qg = qf ++ [k]) as ->.
  { apply (find_from_inj ns _ _ g Hwf Hqg). by rewrite find_from_snoc, Hqf. }
  assert (qj = qu ++ [k]) as ->.
  { apply (find_from_inj ns _ _ j Hwf Hqj). by rewrite find_from_snoc, Hqu. }
  destruct (Hfu qf qu Hqf Hqu) as [l ->]. exists l. by rewrite app_assoc.
Qed.

Lemma extend_old_find ns node elem d q x j :
  node < length ns → ptr_outnode ns node elem = Null →
  find_from (extend ns node elem d) q x = Ptr j → j < length ns →
  find_from ns q x = Ptr j.
Proof.
  intros Hnode Hnull. revert j. induction q as [|k q IH] using rev_ind; intros j.
  - done.
  - rewrite !find_from_snoc.
    destruct (find_from (extend ns node elem d) q x) as [|i] eqn:E; [done|].
    rewrite ptr_outnode_extend by done. case_decide; [intros [= <-]; lia|].
    intros Hk Hj. apply ptr_outnode_Ptr in Hk as Hi. destruct Hi as (n & Hn & _).
    apply lookup_lt_Some in Hn. by rewrite (IH i).
Qed.

(** *** One new node *)

Lemma extend_node_inv ns node elem d i n' :
  node < length ns → ptr_outnode ns node elem = Null →
  extend ns node elem d !! i = Some n' →
  (∃ n, ns !! i = Some n ∧ node_id n' = node_id n ∧ depth n' = depth n ∧
        value n' = value n ∧ matches n' = matches n ∧
        (outs n' = outs n ∨ (i = node ∧ outs n' = outs n ++ [(elem, length ns)]))) ∨
  (i = length ns ∧ n' = new_Node (length ns) d).
Proof.
  intros Hnode Hnull H.
  apply extend_lookup_inv in H as [[_ H]|[[-> (n & Hn & ->)]|[-> ->]]]; [| |by right|done].
  - left. exists n'. naive_solver.
  - left. exists n. repeat split; try done. right. split; [done|].
    simpl. apply outs_set_absent.
    unfold ptr_outnode in Hnull. by rewrite Hn in Hnull.
Qed.

Lemma extend_wf_links ns node elem d :
  wf_links ns → node < length ns → ptr_outnode ns node elem = Null →
  dep ns node = (d - 1)%Z → wf_links (extend ns node elem d).
Proof.
  intros [Hroot Hid Hedge Hdepth Hparent Hpath] Hnode Hnull Hd.
  assert (Hinv := λ i n', extend_node_inv ns node elem d i n' Hnode Hnull).
  assert (Hdnode : (-1 ≤ dep ns node < Z.of_nat node)%Z).
  { unfold dep. destruct (ns !! node) as [n|] eqn:E.
    2:{ apply lookup_ge_None in E. lia. }
    simpl. destruct (Hdepth _ _ E) as [? Hpos].
    destruct (decide (node = 0)) as [->|?]; [|lia].
    destruct Hroot as (r & Hr & ?). simplify_eq. lia. }
  split.
  - destruct Hroot as (r & Hr & Hdr).
    destruct (decide (node = 0)) as [->|Hne].
    + exists (set_outnode elem (length ns) r). rewrite extend_lookup_node by done.
      by rewrite Hr.
    + exists r. rewrite extend_lookup_old by lia. done.
  - intros i n' Hi. apply Hinv in Hi as [(n & Hn & -> & _)|[-> ->]]; [eauto|done].
  - intros i n' k j Hi Hin. rewrite extend_length.
    apply Hinv in Hi as [(n & Hn & _ & Hdn & _ & _ & Ho)|[-> ->]].
    2:{ by apply elem_of_nil in Hin. }
    assert (Hold : (k, j) ∈ outs n → i < j < S (length ns) ∧
              dep (extend ns node elem d) j = (depth n' + 1)%Z).
    { intros Hin'. destruct (Hedge _ _ _ _ Hn Hin') as [? ?].
      rewrite dep_extend_old by lia. split; [lia|congruence]. }
    destruct Ho as [Ho|[-> Ho]]; rewrite Ho in Hin; [auto|].
    apply elem_of_app in Hin as [Hin|Hin]; [auto|].
    apply list_elem_of_singleton in Hin as [= -> ->].
    rewrite dep_extend_new. split; [lia|].
    unfold dep in Hd. rewrite Hn in Hd. simpl in Hd. lia.
  - intros i n' Hi. apply Hinv in Hi as [(n & Hn & _ & -> & _)|[-> ->]]; [eauto|].
    simpl. lia.
  - intros i i' n1 n2 k k' j Hi Hi' Hin Hin'.
    apply Hinv in Hi as [(m1 & Hm1 & _ & _ & _ & _ & Ho1)|[-> ->]].
    2:{ by apply elem_of_nil in Hin. }
    apply Hinv in Hi' as [(m2 & Hm2 & _ & _ & _ & _ & Ho2)|[-> ->]].
    2:{ by apply elem_of_nil in Hin'. }
    assert (Hlt : ∀ i m k, ns !! i = Some m → (k, j) ∈ outs m → j < length ns).
    { intros ??? Hm Hk. apply (Hedge _ _ _ _ Hm Hk). }
    destruct Ho1 as [Ho1|[-> Ho1]], Ho2 as [Ho2|[-> Ho2]];
      rewrite Ho1 in Hin; rewrite Ho2 in Hin';
      rewrite ?elem_of_app, ?list_elem_of_singleton in Hin;
      rewrite ?elem_of_app, ?list_elem_of_singleton in Hin'.
    + eauto.
    + destruct Hin' as [Hin'|[= -> ->]]; [eauto|].
      specialize (Hlt _ _ _ Hm1 Hin). lia.
    + destruct Hin as [Hin|[= -> ->]]; [eauto|].
      specialize (Hlt _ _ _ Hm2 Hin'). lia.
    + destruct Hin as [Hin|Hin], Hin' as [Hin'|Hin']; simplify_eq; eauto;
        match goal with
        | Hm : ns !! _ = Some ?m, Hk : (_, length ns) ∈ outs ?m |- _ =>
            specialize (Hlt _ _ _ Hm Hk); lia
        end.
  - intros j Hj. rewrite extend_length in Hj.
    destruct (decide (j < length ns)) as [Hlt|Hge].
    + destruct (Hpath j Hlt) as [q Hq]. exists q. by apply find_from_extend.
    + assert (j = length ns) as -> by lia.
      destruct (Hpath node Hnode) as [q Hq]. exists (q ++ [elem]).
      rewrite find_from_snoc, (find_from_extend _ _ _ _ _ _ _ Hnode Hnull Hq).
      rewrite ptr_outnode_extend by done. by rewrite decide_True.
Qed.

Lemma extend_wf_outputs ns node elem d :
  wf_outputs ns → node < length ns → ptr_outnode ns node elem = Null →
  wf_outputs (extend ns node elem d).
Proof.
  intros [Hm Hs Hsuf] Hnode Hnull.
  assert (Hinv := λ i n', extend_node_inv ns node elem d i n' Hnode Hnull).
  split.
  - intros i n' r Hi Hr. rewrite extend_length.
    apply Hinv in Hi as [(n & Hn & _ & _ & _ & Hmm & _)|[-> ->]].
    + rewrite Hmm in Hr. specialize (Hm _ _ _ Hn Hr). lia.
    + by apply elem_of_nil in Hr.
  - intros i n' Hi Hv.
    apply Hinv in Hi as [(n & Hn & _ & _ & Hvv & Hmm & _)|[-> ->]]; [|done].
    rewrite Hmm. rewrite Hvv in Hv. eauto.
  - intros i n' r Hi Hr.
    apply Hinv in Hi as [(n & Hn & _ & _ & _ & Hmm & _)|[-> ->]].
    2:{ by apply elem_of_nil in Hr. }
    rewrite Hmm in Hr. intros qr qi Hqr Hqi.
    apply (Hsuf _ _ _ Hn Hr); eapply extend_old_find; try done.
    + eauto.
    + by apply lookup_lt_Some in Hn.
Qed.

(** *** The walk of [add] *)

Lemma walk_spec_app p1 p2 a b c ns ns1 ns2 :
  walk_spec p1 a ns b ns1 → walk_spec p2 b ns1 c ns2 →
  walk_spec (p1 ++ p2) a ns c ns2.
Proof.
  intros H1 H2. split.
  - apply (ws_wf _ _ _ _ _ H2).
  - apply (ws_target_lt _ _ _ _ _ H2).
  - pose proof (ws_length _ _ _ _ _ H1). pose proof (ws_length _ _ _ _ _ H2). lia.
  - intros q x j Hq. by apply (ws_mono _ _ _ _ _ H2), (ws_mono _ _ _ _ _ H1).
  - rewrite find_from_app.
    rewrite (ws_mono _ _ _ _ _ H2 _ _ _ (ws_target _ _ _ _ _ H1)).
    apply (ws_target _ _ _ _ _ H2).
  - intros i k j Hp Hj. apply (ws_old_edge _ _ _ _ _ H1); [|done].
    apply (ws_old_edge _ _ _ _ _ H2); [done|].
    pose proof (ws_length _ _ _ _ _ H1). lia.
  - intros j [Hj1 Hj2]. destruct (decide (j < length ns1)) as [Hlt|Hge].
    + destruct (ws_new _ _ _ _ _ H1 j) as (q1 & q2 & -> & Hq); [lia|].
      exists q1, (q2 ++ p2). split; [by rewrite <- app_assoc|].
      by apply (ws_mono _ _ _ _ _ H2).
    + destruct (ws_new _ _ _ _ _ H2 j) as (q1 & q2 & -> & Hq); [lia|].
      exists (p1 ++ q1), q2. split; [by rewrite <- app_assoc|].
      rewrite find_from_app.
      by rewrite (ws_mono _ _ _ _ _ H2 _ _ _ (ws_target _ _ _ _ _ H1)).
  - intros i n Hn.
    destruct (ws_old_node _ _ _ _ _ H1 i n Hn) as (n1 & Hn1 & Hv1 & Hm1).
    destruct (ws_old_node _ _ _ _ _ H2 i n1 Hn1) as (n2 & Hn2 & Hv2 & Hm2).
    exists n2. repeat split; congruence.
  - intros i n' Hn' Hi. destruct (ns1 !! i) as [n1|] eqn:E.
    + destruct (ws_new_node _ _ _ _ _ H1 i n1 E Hi) as [Hv Hm].
      destruct (ws_old_node _ _ _ _ _ H2 i n1 E) as (n2 & Hn2 & Hv2 & Hm2).
      simplify_eq. split; congruence.
    + apply lookup_ge_None in E. by apply (ws_new_node _ _ _ _ _ H2 i).
Qed.

Lemma walk_spec_nil s ns : wf_trie ns → s < length ns → walk_spec [] s ns s ns.
Proof.
  intros Hwf Hs. split; try done.
  - intros j ?. lia.
  - eauto.
  - intros i n' Hn' Hi. apply lookup_lt_Some in Hn'. lia.
Qed.

Lemma walk_spec_edge elem s ns out :
  wf_trie ns → ptr_outnode ns s elem = Ptr out → walk_spec [elem] s ns out ns.
Proof.
  intros Hwf Ho. split; try done.
  - apply ptr_outnode_Ptr in Ho as (n & Hn & Hin).
    apply (wf_edge _ (proj1 Hwf) _ _ _ _ Hn Hin).
  - simpl. by rewrite Ho.
  - intros j ?. lia.
  - eauto.
  - intros i n' Hn' Hi. apply lookup_lt_Some in Hn'. lia.
Qed.

Lemma walk_spec_extend elem d s ns :
  wf_trie ns → s < length ns → ptr_outnode ns s elem = Null →
  dep ns s = (d - 1)%Z →
  walk_spec [elem] s ns (length ns) (extend ns s elem d).
Proof.
  intros [Hl Ho] Hs Hnull Hd. split.
  - split; [by apply extend_wf_links|by apply extend_wf_outputs].
  - rewrite extend_length. lia.
  - rewrite extend_length. lia.
  - intros q x j. by apply find_from_extend.
  - simpl. rewrite ptr_outnode_extend by done. by rewrite decide_True.
  - intros i k j. rewrite ptr_outnode_extend by done.
    case_decide; [|done]. intros [= <-]. lia.
  - intros j. rewrite extend_length. intros Hj.
    assert (j = length ns) as -> by lia. exists [elem], []. split; [done|].
    simpl. rewrite ptr_outnode_extend by done. by rewrite decide_True.
  - intros i n Hn. destruct (decide (i = s)) as [->|Hne].
    + exists (set_outnode elem (length ns) n).
      rewrite extend_lookup_node by done. by rewrite Hn.
    + exists n. rewrite extend_lookup_old; [done| |done].
      by apply lookup_lt_Some in Hn.
  - intros i n' Hn' Hi. apply lookup_lt_Some in Hn' as Hlt.
    rewrite extend_length in Hlt. assert (i = length ns) as -> by lia.
    rewrite extend_lookup_new in Hn'. by simplify_eq.
Qed.

Lemma add_walk_spec p : ∀ d s ns,
  wf_trie ns → s < length ns → dep ns s = (d - 1)%Z →
  walk_spec p s ns (add_walk p d s ns).1 (add_walk p d s ns).2.
Proof.
  induction p as [|elem rest IH]; intros d s ns Hwf Hs Hd.
  - by apply walk_spec_nil.
  - simpl. destruct (ptr_outnode ns s elem) as [|out] eqn:E.
    + change (alter _ s ns ++ _) with (extend ns s elem d).
      pose proof (walk_spec_extend elem d s ns Hwf Hs E Hd) as H1.
      apply (walk_spec_app [elem] rest _ _ _ _ _ _ H1).
      apply IH; [apply (ws_wf _ _ _ _ _ H1)|apply (ws_target_lt _ _ _ _ _ H1)|].
      rewrite dep_extend_new. lia.
    + pose proof (walk_spec_edge elem s ns out Hwf E) as H1.
      apply (walk_spec_app [elem] rest _ _ _ _ _ _ H1).
      apply IH; [done|apply (ws_target_lt _ _ _ _ _ H1)|].
      apply ptr_outnode_Ptr in E as (n & Hn & Hin).
      destruct (wf_edge _ (proj1 Hwf) _ _ _ _ Hn Hin) as [_ ->].
      unfold dep in Hd. rewrite Hn in Hd. simpl in Hd. lia.
Qed.

Lemma walk_spec_old_path p s ns t ns' x q j :
  walk_spec p s ns t ns' →
  find_from ns' q x = Ptr j → j < length ns → find_from ns q x = Ptr j.
Proof.
  intros H. revert j. induction q as [|k q IH] using rev_ind; intros j; simpl.
  - done.
  - rewrite !find_from_snoc.
    destruct (find_from ns' q x) as [|i] eqn:E; [done|].
    intros Hk Hj. apply (ws_old_edge _ _ _ _ _ H) in Hk; [|done].
    apply ptr_outnode_Ptr in Hk as Hi. destruct Hi as (n & Hn & _).
    apply lookup_lt_Some in Hn. by rewrite (IH i).
Qed.

(** ** The automaton as a whole *)

Lemma wf_new : wf_automaton new_Automaton.
Proof.
  split; [|done]. split; split; simpl.
  - by exists (new_Node 0 (-1)).
  - by intros i n [-> <-]%list_lookup_singleton_Some.
  - intros i n k j [-> <-]%list_lookup_singleton_Some Hin.
    by apply elem_of_nil in Hin.
  - intros i n [-> <-]%list_lookup_singleton_Some. simpl. lia.
  - intros i i' n n' k k' j [-> <-]%list_lookup_singleton_Some _ Hin.
    by apply elem_of_nil in Hin.
  - intros j Hj. assert (j = 0) as -> by lia. by exists [].
  - intros i n r [-> <-]%list_lookup_singleton_Some Hin.
    by apply elem_of_nil in Hin.
  - by intros i n [-> <-]%list_lookup_singleton_Some.
  - intros i n r [-> <-]%list_lookup_singleton_Some Hin.
    by apply elem_of_nil in Hin.
Qed.

Lemma wf_root_lt ns : wf_links ns → 0 < length ns.
Proof. intros [(r & Hr & _) _ _ _ _ _]. by apply lookup_lt_Some in Hr. Qed.

Lemma wf_root_dep ns : wf_links ns → dep ns root = (-1)%Z.
Proof. intros [(r & Hr & Hd) _ _ _ _ _]. unfold dep, root. by rewrite Hr. Qed.

(** The walk of [add] from the root. *)
Lemma add_walk_root p ns :
  wf_trie ns →
  walk_spec p root ns (add_walk p 0%Z root ns).1 (add_walk p 0%Z root ns).2.
Proof.
  intros Hwf. apply add_walk_spec; [done|apply wf_root_lt, Hwf|].
  rewrite wf_root_dep by apply Hwf. done.
Qed.

Lemma add_nodes p v a :
  nodes (add p v a) =
  alter (λ n, add_match (add_walk p 0%Z root (nodes a)).1 (set_value v n))
        (add_walk p 0%Z root (nodes a)).1 (add_walk p 0%Z root (nodes a)).2.
Proof. unfold add. by destruct (add_walk p 0%Z root (nodes a)). Qed.

Lemma add_uptodate p v a : uptodate (add p v a) = false.
Proof. unfold add. by destruct (add_walk p 0%Z root (nodes a)). Qed.

Lemma add_same_links p v a :
  Forall2 same_links (add_walk p 0%Z root (nodes a)).2 (nodes (add p v a)).
Proof. rewrite add_nodes. apply same_links_alter; [apply same_links_refl|done]. Qed.

Lemma add_wf p v a : wf_automaton a → wf_automaton (add p v a).
Proof.
  intros [Hwf _]. split; [|by rewrite add_uptodate].
  pose proof (add_walk_root p _ Hwf) as Hw.
  destruct (ws_wf _ _ _ _ _ Hw) as [Hl [Hm Hs Hsuf]].
  pose proof (ws_target_lt _ _ _ _ _ Hw) as Ht.
  pose proof (wf_links_same _ _ (add_same_links p v a) Hl) as Hl'.
  split; [done|].
  assert (Hsuf' : ∀ r i, suffix_rel (add_walk p 0%Z root (nodes a)).2 r i →
                         suffix_rel (nodes (add p v a)) r i).
  { intros r i. apply suffix_rel_links, add_same_links. }
  assert (Hrefl := λ i, suffix_rel_refl (nodes (add p v a)) i Hl').
  clear Hl'. revert Hsuf' Hrefl. rewrite add_nodes. intros Hsuf' Hrefl.
  set (t := (add_walk p 0%Z root (nodes a)).1) in *.
  set (ns' := (add_walk p 0%Z root (nodes a)).2) in *.
  split.
  - intros i n r Hi Hr. rewrite length_alter.
    destruct (decide (i = t)) as [->|Hne].
    + rewrite list_lookup_alter_eq in Hi.
      destruct (ns' !! t) as [n0|] eqn:E; simplify_eq/=.
      apply elem_of_app in Hr as [Hr|Hr]; [eauto|].
      by apply list_elem_of_singleton in Hr as ->.
    + rewrite list_lookup_alter_ne in Hi by done. eauto.
  - intros i n Hi Hv. destruct (decide (i = t)) as [->|Hne].
    + rewrite list_lookup_alter_eq in Hi.
      destruct (ns' !! t) as [n0|] eqn:E; simplify_eq/=.
      apply elem_of_app. right. by apply list_elem_of_singleton.
    + rewrite list_lookup_alter_ne in Hi by done. eauto.
  - intros i n r Hi Hr. destruct (decide (i = t)) as [->|Hne].
    + rewrite list_lookup_alter_eq in Hi.
      destruct (ns' !! t) as [n0|] eqn:E; simplify_eq/=.
      apply elem_of_app in Hr as [Hr|Hr]; [eauto|].
      apply list_elem_of_singleton in Hr as ->. apply Hrefl.
    + rewrite list_lookup_alter_ne in Hi by done. eauto.
Qed.

(** ** Fuel *)

(** More fuel does not change a result. *)
Lemma follow_fail_mono fuel fuel' ns ft elem id r :
  follow_fail fuel ns ft elem id = Some r → fuel ≤ fuel' →
  follow_fail fuel' ns ft elem id = Some r.
Proof.
  revert fuel' id. induction fuel as [|fuel IH]; intros fuel' id; [done|].
  intros H Hle. destruct fuel' as [|fuel']; [lia|]. simpl in *.
  destruct (goto_node ns id elem) as [[|p]|]; simpl in *; [|done..].
  destruct (ft !! id) as [id'|]; simpl in *; [|done].
  apply IH; [done|lia].
Qed.

Lemma build_edge_mono fuel fuel' id b e r :
  build_edge fuel id b e = Some r → fuel ≤ fuel' →
  build_edge fuel' id b e = Some r.
Proof.
  intros H Hle. unfold build_edge in *. destruct e as [elem dest].
  destruct (b_nodes b !! dest) as [dest_node|]; simpl in *; [|done].
  destruct (b_fail b !! id) as [start|]; simpl in *; [|done].
  destruct (follow_fail fuel (b_nodes b) (b_fail b) elem start) as [f|] eqn:E;
    simpl in *; [|done].
  by rewrite (follow_fail_mono _ _ _ _ _ _ _ E Hle).
Qed.

Lemma build_edges_mono fuel fuel' id edges b r :
  build_edges fuel id edges b = Some r → fuel ≤ fuel' →
  build_edges fuel' id edges b = Some r.
Proof.
  intros H Hle. revert b H. induction edges as [|e edges IH]; intros b; [done|].
  simpl. destruct (build_edge fuel id b e) as [b'|] eqn:E; simpl; [|done].
  rewrite (build_edge_mono _ _ _ _ _ _ E Hle). simpl. apply IH.
Qed.

Lemma build_loop_mono steps steps' fuel fuel' b r :
  build_loop steps fuel b = Some r → steps ≤ steps' → fuel ≤ fuel' →
  build_loop steps' fuel' b = Some r.
Proof.
  intros H Hs Hf. revert steps' b H Hs.
  induction steps as [|steps IH]; intros steps' b.
  - destruct steps'; simpl; destruct (b_queue b); done.
  - intros H Hs. destruct steps' as [|steps']; [lia|]. simpl in *.
    destruct (b_queue b) as [|id Q]; [done|].
    destruct (b_nodes b !! id) as [node|]; simpl in *; [|done].
    destruct (build_edges fuel id (outs node) _) as [b'|] eqn:E; simpl in *; [|done].
    rewrite (build_edges_mono _ _ _ _ _ _ E Hf). simpl. apply IH; [done|lia].
Qed.

Lemma update_automaton_mono fuel fuel' a r :
  update_automaton fuel a = Some r → fuel ≤ fuel' →
  update_automaton fuel' a = Some r.
Proof.
  intros H Hle. unfold update_automaton in *.
  destruct (nodes a !! root) as [rt|]; simpl in *; [|done].
  destruct (mapM _ (outs rt)) as [Q|]; simpl in *; [|done].
  destruct (build_loop fuel fuel _) as [b|] eqn:E; simpl in *; [|done].
  by rewrite (build_loop_mono _ _ _ _ _ _ E Hle Hle).
Qed.

Lemma scan_mono fuel fuel' ns ft text idx id acc r :
  scan fuel ns ft text idx id acc = Some r → fuel ≤ fuel' →
  scan fuel' ns ft text idx id acc = Some r.
Proof.
  intros H Hle. revert idx id acc H.
  induction text as [|elem rest IH]; intros idx id acc; [done|]. simpl.
  destruct (follow_fail fuel ns ft elem id) as [id'|] eqn:E; simpl; [|done].
  rewrite (follow_fail_mono _ _ _ _ _ _ _ E Hle). simpl.
  destruct (goto_node ns id' elem) as [[|p]|]; simpl; [done| |done].
  destruct (ns !! p) as [node|]; simpl; [|done].
  destruct (if String.eqb (value node) "" then _ else _); simpl; [|done].
  apply IH.
Qed.

Lemma refresh_mono fuel fuel' a r :
  refresh fuel a = Some r → fuel ≤ fuel' → refresh fuel' a = Some r.
Proof.
  unfold refresh. destruct (uptodate a); [done|]. apply update_automaton_mono.
Qed.

Lemma collect_mono fuel fuel' text a r :
  collect fuel text a = Some r → fuel ≤ fuel' → collect fuel' text a = Some r.
Proof.
  unfold collect. destruct (nodes a !! root) as [rt|]; simpl; [|done].
  apply scan_mono.
Qed.

Lemma get_matches_mono ro fuel fuel' text ex a r :
  get_matches ro fuel text ex a = Some r → fuel ≤ fuel' →
  get_matches ro fuel' text ex a = Some r.
Proof.
  intros H Hle. unfold get_matches in *.
  destruct (refresh fuel a) as [a'|] eqn:Ea; simpl in *; [|done].
  rewrite (refresh_mono _ _ _ _ Ea Hle). simpl.
  destruct (collect fuel text a') as [ms|] eqn:E; simpl in *; [|done].
  by rewrite (collect_mono _ _ _ _ _ E Hle).
Qed.

(** ** Following failure links *)

Lemma dep_lookup ns i n : ns !! i = Some n → dep ns i = depth n.
Proof. intros H. unfold dep. by rewrite H. Qed.

Lemma dep_bounds ns i :
  wf_links ns → i < length ns →
  (-1 ≤ dep ns i < Z.of_nat i)%Z ∧ (0 < i → (0 ≤ dep ns i)%Z).
Proof.
  intros Hwf Hi. destruct (lookup_lt_is_Some_2 ns i Hi) as [n Hn].
  rewrite (dep_lookup _ _ _ Hn). destruct (wf_depth _ Hwf _ _ Hn) as [? Hpos].
  destruct (decide (i = 0)) as [->|?]; [|lia].
  destruct (wf_root _ Hwf) as (r & Hr & ?). simplify_eq. lia.
Qed.

(** The root has a transition for every token. *)
Lemma goto_node_root ns elem :
  0 < length ns → ∃ p, goto_node ns root elem = Some (Ptr p).
Proof.
  intros Hlt. destruct (lookup_lt_is_Some_2 ns 0 Hlt) as [r Hr].
  unfold goto_node, root. rewrite Hr. simpl.
  destruct (get_outnode r elem); eauto.
Qed.

Lemma goto_node_total ns id elem :
  id < length ns → ∃ g, goto_node ns id elem = Some g.
Proof.
  intros Hlt. destruct (lookup_lt_is_Some_2 ns id Hlt) as [n Hn].
  unfold goto_node. rewrite Hn. simpl.
  destruct (get_outnode n elem); [destruct (Nat.eqb id 0)|]; eauto.
Qed.

Lemma goto_node_Null ns id elem : goto_node ns id elem = Some Null → id ≠ 0.
Proof.
  unfold goto_node. destruct (ns !! id) as [n|]; simpl; [|done].
  destruct (get_outnode n elem); [|done].
  destruct (Nat.eqb id 0) eqn:E; [done|]. intros _. by apply Nat.eqb_neq in E.
Qed.

(** A transition leads to the root or one level down. *)
Lemma goto_node_Ptr ns id elem p :
  wf_links ns → goto_node ns id elem = Some (Ptr p) →
  p < length ns ∧ (p = 0 ∨ dep ns p = (dep ns id + 1)%Z).
Proof.
  intros Hwf. unfold goto_node.
  destruct (ns !! id) as [n|] eqn:Hn; simpl; [|done].
  destruct (get_outnode n elem) as [|o] eqn:E.
  - destruct (Nat.eqb id 0); [|done]. intros [= <-].
    split; [apply (wf_root_lt _ Hwf)|by left].
  - intros [= <-]. apply outs_find_elem in E.
    destruct (wf_edge _ Hwf _ _ _ _ Hn E) as [[_ ?] Hd].
    split; [done|]. right. by rewrite (dep_lookup _ _ _ Hn).
Qed.

(** From a node of depth below [n] the walk ends within [n + 1] turns, on
    the node itself, on the root or on a node less deep, whose path is a
    suffix of the path of the node, and that node has a transition. *)
Lemma follow_fail_ok ns ft elem :
  wf_links ns → fail_ok ns ft →
  ∀ n id, id < length ns → (dep ns id < Z.of_nat n)%Z →
  ∃ f, follow_fail (S n) ns ft elem id = Some f ∧ f < length ns ∧
       (f = id ∨ f = 0 ∨ (dep ns f < dep ns id)%Z) ∧ suffix_rel ns f id ∧
       ∃ p, goto_node ns f elem = Some (Ptr p).
Proof.
  intros Hwf [Hlen Hft]. induction n as [|n IH]; intros id Hid Hd.
  - destruct (dep_bounds ns id Hwf Hid) as [? Hpos].
    assert (id = 0) as -> by lia.
    destruct (goto_node_root ns elem) as [p Hp]; [done|].
    exists 0. simpl. unfold root in Hp. rewrite Hp.
    split; [done|]. split; [done|]. split; [by left|].
    split; [by apply suffix_rel_refl|by exists p].
  - destruct (goto_node_total ns id elem Hid) as [[|p] Hg].
    + destruct (lookup_lt_is_Some_2 ft id) as [id' Hid']; [lia|].
      destruct (Hft _ _ Hid') as (Hlt & Hdep & Hsuf).
      destruct (IH id' Hlt) as (f & Hf & Hflt & Hfd & Hfs & Hfg).
      { destruct Hdep as [->|?]; [|lia].
        pose proof (wf_root_dep _ Hwf). unfold root in *. lia. }
      exists f. change (follow_fail (S (S n)) ns ft elem id) with
        (g ← goto_node ns id elem;
         match g with
         | Ptr _ => Some id
         | Null => id' ← ft !! id; follow_fail (S n) ns ft elem id'
         end).
      rewrite Hg. simpl. rewrite Hid'. simpl.
      split; [done|]. split; [done|]. split; [|split; [|done]].
      * destruct Hfd as [->|[->|?]], Hdep as [->|?]; auto; right; right; try lia.
        pose proof (wf_root_dep _ Hwf). unfold root in *.
        destruct (dep_bounds ns f Hwf Hflt). lia.
      * by apply (suffix_rel_trans ns f id' id).
    + exists id. simpl. rewrite Hg.
      split; [done|]. split; [done|]. split; [by left|].
      split; [by apply suffix_rel_refl|by exists p].
Qed.

(** [length ns + 1] turns are enough from every node. *)
Lemma follow_fail_enough ns ft elem fuel id :
  wf_links ns → fail_ok ns ft → id < length ns → length ns < fuel →
  ∃ f, follow_fail fuel ns ft elem id = Some f ∧ f < length ns ∧
       (f = id ∨ f = 0 ∨ (dep ns f < dep ns id)%Z) ∧ suffix_rel ns f id ∧
       ∃ p, goto_node ns f elem = Some (Ptr p).
Proof.
  intros Hwf Hft Hid Hfuel.
  destruct (follow_fail_ok ns ft elem Hwf Hft (length ns) id Hid)
    as (f & Hf & ?); [destruct (dep_bounds ns id Hwf Hid); lia|].
  exists f. split; [|done]. apply (follow_fail_mono _ _ _ _ _ _ _ Hf). lia.
Qed.

(** The node a transition leads to: the root, from the root, or the child
    by the token. *)
Lemma goto_node_child ns id elem p :
  goto_node ns id elem = Some (Ptr p) →
  ptr_outnode ns id elem = Ptr p ∨ (id = 0 ∧ p = root).
Proof.
  unfold goto_node, ptr_outnode. destruct (ns !! id) as [n|]; simpl; [|done].
  destruct (get_outnode n elem) as [|o].
  - destruct (Nat.eqb id 0) eqn:E; [|done]. intros [= <-].
    right. by apply Nat.eqb_eq in E.
  - intros [= <-]. by left.
Qed.

(** ** The builder *)

Lemma grown_links ns ns' : Forall2 grown ns ns' → Forall2 same_links ns ns'.
Proof. intros H. eapply Forall2_impl; [exact H|]. by intros n m [? _]. Qed.

Lemma grown_refl ns : Forall2 grown ns ns.
Proof. apply Forall_Forall2_diag, Forall_forall. by intros n _. Qed.

Lemma grown_trans ns1 ns2 ns3 :
  Forall2 grown ns1 ns2 → Forall2 grown ns2 ns3 → Forall2 grown ns1 ns3.
Proof.
  apply Forall2_trans. intros x y z ((?&?&?)&?&?) ((?&?&?)&?&?).
  repeat split; try congruence. by etrans.
Qed.

Lemma build_edge_ok ns0 fuel id b k j :
  wf_links ns0 → build_inv ns0 b →
  0 < id → ptr_outnode ns0 id k = Ptr j → length ns0 < fuel →
  ∃ b', build_edge fuel id b (k, j) = Some b' ∧ build_inv ns0 b' ∧
        b_queue b' = b_queue b ++ [j].
Proof.
  intros Hwf0 [Hg [Hm Hs Hsuf] Hft Hq] Hid0 Hedge Hfuel.
  pose proof (grown_links _ _ Hg) as Hsl.
  pose proof (wf_links_same _ _ Hsl Hwf0) as Hwf.
  pose proof (Forall2_length _ _ _ Hg) as Hlen.
  assert (Hdep : ∀ i, dep (b_nodes b) i = dep ns0 i) by (intros; by apply dep_links).
  apply ptr_outnode_Ptr in Hedge as Hedge'. destruct Hedge' as (n0 & Hn0 & Hin0).
  destruct (wf_edge _ Hwf0 _ _ _ _ Hn0 Hin0) as [Hj Hdj].
  rewrite <- (dep_lookup _ _ _ Hn0) in Hdj.
  apply lookup_lt_Some in Hn0 as Hid.
  destruct Hft as [Hflen Hfent]. unfold build_edge.
  destruct (lookup_lt_is_Some_2 (b_nodes b) j) as [dn Hdn]; [lia|].
  rewrite Hdn. simpl. rewrite (wf_id _ Hwf _ _ Hdn).
  destruct (lookup_lt_is_Some_2 (b_fail b) id) as [st Hst]; [lia|].
  rewrite Hst. simpl. destruct (Hfent _ _ Hst) as (Hstlt & Hstd & Hsts).
  destruct (follow_fail_enough (b_nodes b) (b_fail b) k fuel st Hwf)
    as (f & -> & Hflt & Hfd & Hfs & gp & Hgp); [done|done|lia|].
  simpl. rewrite Hgp. simpl.
  destruct (goto_node_Ptr _ _ _ _ Hwf Hgp) as [Hgplt Hgpd].
  destruct (lookup_lt_is_Some_2 (b_nodes b) gp Hgplt) as [tn Htn].
  rewrite Htn. simpl. rewrite (wf_id _ Hwf _ _ Htn).
  rewrite bool_decide_true by lia.
  rewrite list_lookup_insert_eq by lia. simpl. rewrite Htn. simpl.
  eexists. split; [done|]. split; [|done].
  assert (Hg' : Forall2 grown (b_nodes b)
                  (alter (append_matches (matches tn)) j (b_nodes b))).
  { apply Forall2_alter_r; [apply grown_refl|].
    intros x y _ _ (Hxy & Hv & Hp). split; [|split]; simpl; [done|done|].
    by apply prefix_app_r. }
  assert (Hsuf' : ∀ r i, suffix_rel (b_nodes b) r i →
            suffix_rel (alter (append_matches (matches tn)) j (b_nodes b)) r i).
  { intros r i. apply suffix_rel_links, grown_links, Hg'. }
  assert (Hgpj : suffix_rel (b_nodes b) gp j).
  { assert (suffix_rel (b_nodes b) f id) as Hfid
      by (by apply (suffix_rel_trans _ f st id)).
    destruct (goto_node_child _ _ _ _ Hgp) as [Hc|[_ ->]].
    - apply (suffix_rel_child _ f id k gp j Hwf Hfid Hc).
      by rewrite (ptr_outnode_links ns0).
    - by apply suffix_rel_root. }
  split; simpl.
  - by apply (grown_trans _ (b_nodes b)).
  - split.
    + intros i n r Hi Hr. rewrite length_alter.
      destruct (decide (i = j)) as [->|Hne].
      * rewrite list_lookup_alter_eq, Hdn in Hi. simplify_eq/=.
        apply elem_of_app in Hr as [Hr|Hr]; eauto.
      * rewrite list_lookup_alter_ne in Hi by done. eauto.
    + intros i n Hi Hv. destruct (decide (i = j)) as [->|Hne].
      * rewrite list_lookup_alter_eq, Hdn in Hi. simplify_eq/=.
        apply elem_of_app. left. eauto.
      * rewrite list_lookup_alter_ne in Hi by done. eauto.
    + intros i n r Hi Hr. apply Hsuf'.
      destruct (decide (i = j)) as [->|Hne].
      * rewrite list_lookup_alter_eq, Hdn in Hi. simplify_eq/=.
        apply elem_of_app in Hr as [Hr|Hr]; [eauto|].
        apply (suffix_rel_trans _ r gp j); eauto.
      * rewrite list_lookup_alter_ne in Hi by done. eauto.
  - assert (Hdep' : ∀ i, dep (alter (append_matches (matches tn)) j (b_nodes b)) i
                         = dep ns0 i).
    { intros i. rewrite <- Hdep. apply dep_links, grown_links, Hg'. }
    split; [by rewrite length_insert, length_alter|].
    intros i x Hi. rewrite length_alter, !Hdep'.
    destruct (decide (i = j)) as [->|Hne].
    + rewrite list_lookup_insert_eq in Hi by lia. simplify_eq.
      split; [done|]. split; [|by apply Hsuf'].
      rewrite Hdj. rewrite !Hdep in *.
      destruct Hgpd as [->|Hgpd]; [by left|right]. rewrite Hgpd.
      destruct (dep_bounds ns0 id Hwf0) as [_ Hidpos]; [lia|].
      destruct (dep_bounds ns0 f Hwf0) as [? _]; [lia|].
      pose proof (wf_root_dep _ Hwf0) as Hr. unfold root in Hr.
      destruct Hfd as [->|[->|?]], Hstd as [->|?]; lia.
    + rewrite list_lookup_insert_ne in Hi by done.
      destruct (Hfent _ _ Hi) as (? & ? & ?). rewrite !Hdep in *. auto.
  - apply Forall_app. split; [done|]. apply Forall_singleton. lia.
Qed.

Lemma build_edges_ok ns0 fuel id edges : ∀ b,
  wf_links ns0 → build_inv ns0 b → 0 < id →
  Forall (λ e : string * nat, ptr_outnode ns0 id e.1 = Ptr e.2) edges →
  length ns0 < fuel →
  ∃ b', build_edges fuel id edges b = Some b' ∧ build_inv ns0 b' ∧
        b_queue b' = b_queue b ++ edges.*2.
Proof.
  induction edges as [|[k j] edges IH]; intros b Hwf Hb Hid Hedges Hfuel.
  - exists b. simpl. by rewrite app_nil_r.
  - apply Forall_cons in Hedges as [Hj Hedges]. simpl in Hj.
    destruct (build_edge_ok ns0 fuel id b k j) as (b1 & H1 & Hb1 & Hq1); try done.
    destruct (IH b1) as (b' & H' & Hb' & Hq'); try done.
    exists b'. cbn [build_edges]. rewrite H1. simpl. split; [done|]. split; [done|].
    rewrite Hq', Hq1, <- app_assoc. done.
Qed.

Lemma forest_app ns l k s t :
  forest ns l s → forest ns k t → forest ns (l ++ k) (s + t).
Proof.
  intros Hl Hk. induction Hl as [|i l s1 s2 Hi Hl IH]; [done|].
  simpl. rewrite <- Nat.add_assoc. by constructor.
Qed.

Lemma forest_exists ns :
  wf_links ns → ∀ l, Forall (λ j, j < length ns) l → ∃ s, forest ns l s.
Proof.
  intros Hwf.
  assert (H : ∀ k l, Forall (λ j, length ns - j ≤ k ∧ j < length ns) l →
                     ∃ s, forest ns l s).
  { induction k as [|k IH]; intros l Hl.
    - destruct l as [|j l]; [exists 0; constructor|].
      apply Forall_cons in Hl as [? _]. lia.
    - induction Hl as [|j l [Hk Hj] _ [t Ht]]; [exists 0; constructor|].
      destruct (lookup_lt_is_Some_2 ns j Hj) as [n Hn].
      destruct (IH (outs n).*2) as [s Hs].
      { apply Forall_forall. intros j' Hj'.
        apply list_elem_of_fmap in Hj' as ([k' j''] & -> & Hin).
        pose proof (wf_edge _ Hwf _ _ _ _ Hn Hin) as [? _]. simpl. lia. }
      exists (S s + t). constructor; [|done]. by apply (subtree_node ns j n). }
  intros l Hl. apply (H (length ns)). eapply Forall_impl; [exact Hl|].
  simpl. intros j Hj. lia.
Qed.

(** With a turn for every node in and below the queue, the loop ends. *)
Lemma build_loop_ok ns0 fuel :
  wf_links ns0 → length ns0 < fuel →
  ∀ steps b s,
    build_inv ns0 b → forest ns0 (b_queue b) s → s ≤ steps →
    ∃ b', build_loop steps fuel b = Some b' ∧ build_inv ns0 b' ∧ b_queue b' = [].
Proof.
  intros Hwf Hfuel. induction steps as [|steps IH]; intros b s Hb Hq Hsum.
  - destruct b as [ns ft [|id Q]]; simpl in *; [by exists (mkBuild ns ft [])|].
    inversion Hq as [|???? Hs _]; subst. inversion Hs; subst. lia.
  - destruct b as [ns ft [|id Q]]; simpl in *; [by exists (mkBuild ns ft [])|].
    inversion Hq as [|?? s1 s2 Hs Hss]; subst.
    inversion Hs as [? n0 cs Hn0 Hcs]; subst.
    destruct Hb as [Hg Ho Hft Hqv]. simpl in *.
    apply Forall_cons in Hqv as [Hid HQ].
    destruct (same_links_lookup _ _ _ _ (grown_links _ _ Hg) Hn0)
      as (n & Hn & _ & _ & Houts).
    rewrite Hn. simpl.
    destruct (build_edges_ok ns0 fuel id (outs n) (mkBuild ns ft Q))
      as (b1 & H1 & Hb1 & Hq1); try done; [lia| |].
    { rewrite <- Houts. apply Forall_forall. intros [k j] Hin. simpl.
      by apply (edge_lookup _ _ n0). }
    rewrite H1. simpl. apply (IH b1 (s2 + cs)); [done| |lia].
    rewrite Hq1. simpl. rewrite <- Houts. by apply forest_app.
Qed.

Lemma root_queue ns r :
  wf_links ns → ns !! root = Some r →
  mapM (λ e : string * nat, node_id <$> ns !! e.2) (outs r) = Some (outs r).*2.
Proof.
  intros Hwf Hr. apply mapM_Some_2, Forall2_fmap_r, Forall_Forall2_diag, Forall_forall.
  intros [k j] Hin. simpl.
  destruct (wf_edge _ Hwf _ _ _ _ Hr Hin) as [[_ Hj] _].
  destruct (lookup_lt_is_Some_2 ns j Hj) as [m Hm].
  rewrite Hm. simpl. by rewrite (wf_id _ Hwf _ _ Hm).
Qed.

(** The builder ends on every well-formed automaton, with the same result
    for every fuel from some bound on; it leaves a well-formed automaton
    that is up to date, with the same links and values. *)
Lemma update_automaton_ok a :
  wf_automaton a →
  ∃ N a', (∀ fuel, N ≤ fuel → update_automaton fuel a = Some a') ∧
          wf_automaton a' ∧ uptodate a' = true ∧
          Forall2 grown (nodes a) (nodes a') ∧ alphabet a' = alphabet a ∧
          fail_ok (nodes a') (fail_table a').
Proof.
  intros [[Hl Ho] _]. destruct (wf_root _ Hl) as (r & Hr & _).
  destruct (forest_exists _ Hl (outs r).*2) as [s Hs].
  { apply Forall_forall. intros j Hj.
    apply list_elem_of_fmap in Hj as ([k' j'] & -> & Hin).
    apply (wf_edge _ Hl _ _ _ _ Hr Hin). }
  set (N := S (length (nodes a)) `max` s).
  destruct (build_loop_ok (nodes a) N Hl ltac:(lia) N
              (mkBuild (nodes a) (replicate (length (nodes a)) 0) (outs r).*2) s)
    as (b & Hb & [Hg Hout Hft _] & _); [|done|lia|].
  { split; simpl; [apply grown_refl|done| |].
    - split; [by rewrite length_replicate|].
      intros i f [-> _]%lookup_replicate.
      split; [apply (wf_root_lt _ Hl)|]. split; [by left|].
      by apply suffix_rel_root.
    - apply Forall_forall. intros j Hj.
      apply list_elem_of_fmap in Hj as ([k' j'] & -> & Hin).
      pose proof (wf_edge _ Hl _ _ _ _ Hr Hin) as [? _]. simpl. unfold root in *. lia. }
  exists N, (mkAutomaton (b_nodes b) (alphabet a) (b_fail b) true).
  split; [|split; [|done]].
  - intros fuel Hfuel. apply (update_automaton_mono N); [|done].
    unfold update_automaton, root. rewrite Hr. simpl.
    rewrite (root_queue _ _ Hl Hr). simpl. by rewrite Hb.
  - split; simpl; [|done].
    split; [|done]. exact (wf_links_same _ _ (grown_links _ _ Hg) Hl).
Qed.

(** Whatever the fuel, a result of the builder is that result. *)
Lemma update_automaton_inv fuel a a' :
  wf_automaton a → update_automaton fuel a = Some a' →
  wf_automaton a' ∧ uptodate a' = true ∧
  Forall2 grown (nodes a) (nodes a') ∧ alphabet a' = alphabet a ∧
  fail_ok (nodes a') (fail_table a').
Proof.
  intros Hwf Hu. destruct (update_automaton_ok a Hwf) as (N & a'' & HN & H).
  pose proof (update_automaton_mono _ (fuel `max` N) _ _ Hu ltac:(lia)) as H1.
  rewrite HN in H1 by lia. by simplify_eq.
Qed.

Lemma reachable_wf a : reachable a → wf_automaton a.
Proof.
  induction 1 as [|a p v _ IH|a fuel a' _ IH Hu].
  - apply wf_new.
  - by apply add_wf.
  - by apply (update_automaton_inv fuel a a').
Qed.

(** The outputs of a node of an automaton a program can hold: the node
    itself when it has a value, and nodes whose paths are suffixes of its
    path. *)
Lemma outputs_of_reachable a i n :
  reachable a → nodes a !! i = Some n →
  (value n ≠ "" → i ∈ matches n) ∧
  ∀ r, r ∈ matches n → r < length (nodes a) ∧ suffix_rel (nodes a) r i.
Proof.
  intros Hr Hn. apply reachable_wf in Hr. destruct (wf_nodes _ Hr) as [_ Ho].
  split; [by apply (wf_self _ Ho)|]. intros r Hin.
  split; [by apply (wf_matches _ Ho _ _ _ Hn)|by apply (wf_suffix _ Ho _ n)].
Qed.

(** *** The failure table does not depend on the outputs *)

Lemma goto_node_links ns ns' id elem :
  Forall2 same_links ns ns' → goto_node ns' id elem = goto_node ns id elem.
Proof.
  intros H. unfold goto_node, get_outnode. destruct (ns !! id) as [n|] eqn:E.
  - destruct (same_links_lookup _ _ _ _ H E) as (n' & -> & _ & _ & Ho).
    simpl. by rewrite Ho.
  - destruct (ns' !! id) as [n'|] eqn:E'; [|done].
    destruct (same_links_lookup_r _ _ _ _ H E') as (n & ? & _). congruence.
Qed.

Lemma follow_fail_links fuel ns ns' ft elem id :
  Forall2 same_links ns ns' →
  follow_fail fuel ns' ft elem id = follow_fail fuel ns ft elem id.
Proof.
  intros H. revert id. induction fuel as [|fuel IH]; intros id; [done|].
  simpl. rewrite (goto_node_links ns ns') by done.
  destruct (goto_node ns id elem) as [[|p]|]; simpl; [|done..].
  destruct (ft !! id) as [id'|]; simpl; [apply IH|done].
Qed.

Lemma build_edge_links fuel id b b' e b1 :
  same_build b b' → build_edge fuel id b e = Some b1 →
  ∃ b1', build_edge fuel id b' e = Some b1' ∧ same_build b1 b1'.
Proof.
  intros (Hn & Hf & Hq) H. unfold build_edge in *. destruct e as [elem dest].
  destruct (b_nodes b !! dest) as [dn|] eqn:Hdn; simpl in H; [|done].
  destruct (b_fail b !! id) as [st|] eqn:Hst; simpl in H; [|done].
  destruct (follow_fail fuel (b_nodes b) (b_fail b) elem st) as [f|] eqn:Hfo;
    simpl in H; [|done].
  destruct (goto_node (b_nodes b) f elem) as [[|gp]|] eqn:Hgo; simpl in H;
    [done| |done].
  destruct (b_nodes b !! gp) as [tn|] eqn:Htn; simpl in H; [|done].
  case_bool_decide as Hlt; [|done].
  rewrite list_lookup_insert_eq in H by done. simpl in H.
  destruct (b_nodes b !! node_id tn) as [fn|] eqn:Hfn; simpl in H; [|done].
  injection H as <-.
  destruct (same_links_lookup _ _ _ _ Hn Hdn) as (dn' & Hdn' & Hid & _).
  destruct (same_links_lookup _ _ _ _ Hn Htn) as (tn' & Htn' & Htid & _).
  destruct (same_links_lookup _ _ _ _ Hn Hfn) as (fn' & Hfn' & _).
  eexists. split.
  - rewrite Hdn'. simpl. rewrite <- Hf, Hst. simpl.
    rewrite (follow_fail_links fuel (b_nodes b) (b_nodes b')), Hfo by done. simpl.
    rewrite (goto_node_links (b_nodes b) (b_nodes b')), Hgo by done. simpl.
    rewrite Htn'. simpl. rewrite <- Hid, <- Htid.
    rewrite bool_decide_true by done.
    rewrite list_lookup_insert_eq by done. simpl. rewrite Hfn'. simpl. done.
  - split; simpl; [|by rewrite Hq].
    apply Forall2_alter; [done|]. by intros x y _ _ (? & ? & ?).
Qed.

Lemma build_edges_links fuel id edges : ∀ b b' b1,
  same_build b b' → build_edges fuel id edges b = Some b1 →
  ∃ b1', build_edges fuel id edges b' = Some b1' ∧ same_build b1 b1'.
Proof.
  induction edges as [|e edges IH]; intros b b' b1 Hb H; cbn [build_edges] in *.
  - injection H as <-. by exists b'.
  - destruct (build_edge fuel id b e) as [b2|] eqn:E; simpl in H; [|done].
    destruct (build_edge_links _ _ _ _ _ _ Hb E) as (b2' & E' & Hb2).
    destruct (IH _ _ _ Hb2 H) as (b1' & H' & Hb1).
    exists b1'. by rewrite E'.
Qed.

Lemma build_loop_links fuel steps : ∀ b b' b1,
  same_build b b' → build_loop steps fuel b = Some b1 →
  ∃ b1', build_loop steps fuel b' = Some b1' ∧ same_build b1 b1'.
Proof.
  induction steps as [|steps IH]; intros b b' b1 Hb H;
    pose proof Hb as (Hn & Hf & Hq); simpl in *; rewrite <- Hq;
    destruct (b_queue b) as [|id Q]; try done.
  - injection H as <-. by exists b'.
  - injection H as <-. by exists b'.
  - destruct (b_nodes b !! id) as [n|] eqn:En; simpl in H; [|done].
    destruct (same_links_lookup _ _ _ _ Hn En) as (n' & En' & _ & _ & Ho).
    destruct (build_edges fuel id (outs n) _) as [b2|] eqn:E; simpl in H; [|done].
    destruct (build_edges_links fuel id (outs n)
                (mkBuild (b_nodes b) (b_fail b) Q)
                (mkBuild (b_nodes b') (b_fail b') Q) b2
                (conj Hn (conj Hf eq_refl)) E)
      as (b2' & E' & Hb2).
    destruct (IH _ _ _ Hb2 H) as (b1' & H' & Hb1).
    exists b1'. rewrite En'. simpl. rewrite <- Ho, E'. done.
Qed.

(** A second run of the builder returns the failure table of the first and
    adds outputs only. *)
Lemma rebuild_same_fail_table fuel a a1 a2 :
  wf_automaton a → update_automaton fuel a = Some a1 →
  update_automaton fuel a1 = Some a2 →
  fail_table a2 = fail_table a1 ∧ uptodate a2 = true ∧
  Forall2 grown (nodes a1) (nodes a2).
Proof.
  intros Hwf H1 H2.
  destruct (update_automaton_inv _ _ _ Hwf H1) as (Hwf1 & _ & Hg & _).
  destruct (update_automaton_inv _ _ _ Hwf1 H2) as (_ & Hup & Hg2 & _).
  split; [|done]. pose proof (grown_links _ _ Hg) as Hl.
  pose proof (Forall2_length _ _ _ Hg) as Hlen.
  destruct (wf_root _ (proj1 (wf_nodes _ Hwf))) as (r & Hr & _).
  destruct (wf_root _ (proj1 (wf_nodes _ Hwf1))) as (r1 & Hr1 & _).
  destruct (same_links_lookup _ _ _ _ Hl Hr) as (r1' & Hr1' & _ & _ & Ho).
  assert (r1' = r1) as -> by congruence.
  unfold update_automaton, root in *. rewrite Hr in H1. rewrite Hr1 in H2.
  simpl in *.
  rewrite (root_queue _ _ (proj1 (wf_nodes _ Hwf)) Hr) in H1.
  rewrite (root_queue _ _ (proj1 (wf_nodes _ Hwf1)) Hr1) in H2. simpl in *.
  destruct (build_loop fuel fuel (mkBuild (nodes a) _ _)) as [b1|] eqn:E1;
    simpl in H1; [|done].
  destruct (build_loop fuel fuel (mkBuild (nodes a1) _ _)) as [b2|] eqn:E2;
    simpl in H2; [|done].
  apply (inj Some), (f_equal fail_table) in H1, H2. simpl in H1, H2.
  rewrite <- H1, <- H2.
  assert (Hsame : same_build
            (mkBuild (nodes a) (replicate (length (nodes a)) 0) (outs r).*2)
            (mkBuild (nodes a1) (replicate (length (nodes a1)) 0) (outs r1).*2)).
  { split; [exact Hl|]. simpl. by rewrite Hlen, Ho. }
  destruct (build_loop_links _ _ _ _ _ Hsame E1) as (b2' & E2' & (_ & Hf & _)).
  congruence.
Qed.

Lemma update_automaton_links fuel a b a1 :
  Forall2 same_links (nodes a) (nodes b) → update_automaton fuel a = Some a1 →
  ∃ b1, update_automaton fuel b = Some b1 ∧ fail_table b1 = fail_table a1 ∧
        Forall2 same_links (nodes a1) (nodes b1).
Proof.
  intros Hl H. pose proof (Forall2_length _ _ _ Hl) as Hlen.
  unfold update_automaton in *.
  destruct (nodes a !! root) as [r|] eqn:Hr; simpl in H; [|done].
  destruct (same_links_lookup _ _ _ _ Hl Hr) as (r' & Hr' & _ & _ & Ho).
  destruct (mapM _ (outs r)) as [Q|] eqn:HQ; simpl in H; [|done].
  destruct (build_loop fuel fuel _) as [b1|] eqn:E; simpl in H; [|done].
  injection H as <-. simpl.
  assert (HQ' : mapM (λ e : string * nat, node_id <$> nodes b !! e.2) (outs r')
                = Some Q).
  { rewrite <- Ho, <- HQ. apply mapM_ext. intros [k j]. simpl.
    destruct (nodes a !! j) as [n|] eqn:Hn.
    - destruct (same_links_lookup _ _ _ _ Hl Hn) as (n' & -> & Hid & _).
      simpl. by rewrite Hid.
    - destruct (nodes b !! j) as [n'|] eqn:Hn'; [|done].
      destruct (same_links_lookup_r _ _ _ _ Hl Hn') as (n & ? & _). congruence. }
  assert (Hsame : same_build
            (mkBuild (nodes a) (replicate (length (nodes a)) 0) Q)
            (mkBuild (nodes b) (replicate (length (nodes b)) 0) Q)).
  { split; [exact Hl|]. simpl. by rewrite Hlen. }
  destruct (build_loop_links _ _ _ _ _ Hsame E) as (b1' & E' & (Hl1 & Hf & _)).
  rewrite Hr'. simpl. rewrite HQ'. simpl. rewrite E'. simpl.
  eexists. split; [done|]. by split.
Qed.

Lemma add_walk_links p : ∀ d s ns ns',
  Forall2 same_links ns ns' →
  (add_walk p d s ns').1 = (add_walk p d s ns).1 ∧
  Forall2 same_links (add_walk p d s ns).2 (add_walk p d s ns').2.
Proof.
  induction p as [|elem rest IH]; intros d s ns ns' Hl; [done|].
  simpl. rewrite (ptr_outnode_links ns ns') by done.
  destruct (ptr_outnode ns s elem) as [|out]; [|by apply IH].
  rewrite <- (Forall2_length _ _ _ Hl). apply IH.
  apply Forall2_app; [|by repeat constructor].
  apply Forall2_alter; [done|]. intros x y _ _ (? & ? & Ho).
  split; [done|]. split; [done|]. simpl. by rewrite Ho.
Qed.

Lemma add_links p v a b :
  Forall2 same_links (nodes a) (nodes b) →
  Forall2 same_links (nodes (add p v a)) (nodes (add p v b)).
Proof.
  intros Hl. rewrite !add_nodes.
  destruct (add_walk_links p 0%Z root _ _ Hl) as [-> Hl'].
  apply Forall2_alter; [done|]. by intros x y _ _ (? & ? & ?).
Qed.

Lemma inserted_snoc h p v : inserted (h ++ [(p, v)]) = add p v (inserted h).
Proof. unfold inserted. by rewrite fold_left_app. Qed.

Lemma built_from_reachable h a : built_from h a → reachable a.
Proof.
  induction 1 as [|h a p v _ IH|h a fuel a' _ IH Hu].
  - apply reach_new.
  - by apply reach_add.
  - by apply (reach_build a fuel).
Qed.

Lemma built_from_links h a :
  built_from h a → Forall2 same_links (nodes (inserted h)) (nodes a).
Proof.
  induction 1 as [|h a p v _ IH|h a fuel a' Hb IH Hu].
  - apply same_links_refl.
  - rewrite inserted_snoc. by apply add_links.
  - apply built_from_reachable, reachable_wf in Hb.
    destruct (update_automaton_inv _ _ _ Hb Hu) as (_ & _ & Hg & _).
    apply grown_links in Hg.
    eapply Forall2_trans; [|exact IH|exact Hg].
    intros x y z (? & ? & ?) (? & ? & ?). repeat split; congruence.
Qed.

(** The failure table that the builder makes after insertions and earlier
    runs of the builder is the one it makes of the insertions alone. *)
Lemma fail_table_of_history h a fuel a1 :
  built_from h a → update_automaton fuel a = Some a1 →
  ∃ b1, update_automaton fuel (inserted h) = Some b1 ∧
        fail_table b1 = fail_table a1 ∧ uptodate a1 = true.
Proof.
  intros Hb Hu. pose proof (built_from_links _ _ Hb) as Hl.
  apply built_from_reachable, reachable_wf in Hb.
  destruct (update_automaton_inv _ _ _ Hb Hu) as (_ & Hup & _).
  assert (Hl' : Forall2 same_links (nodes a) (nodes (inserted h))).
  { eapply Forall2_impl; [apply Forall2_flip, Hl|].
    intros x y (? & ? & ?). repeat split; congruence. }
  destruct (update_automaton_links _ _ _ _ Hl' Hu) as (b1 & H1 & Hf & _).
  by exists b1.
Qed.

(** ** The matcher *)

Lemma emit_ok ns read rest node p :
  wf_trie ns → ns !! p = Some node → state_ok ns read p → read ≠ [] →
  ∃ new, emit ns (Z.of_nat (length read) - 1)%Z node = Some new ∧
         Forall (reported ns (read ++ rest) (length read - 1)) new.
Proof.
  intros [Hl Ho] Hp Hst Hread. unfold emit.
  assert (Hlen : 0 < length read) by (destruct read; [done|simpl; lia]).
  destruct (mapM _ (matches node)) as [new|] eqn:E.
  - exists new. split; [done|]. apply Forall_forall. intros m Hm.
    apply mapM_Some_1 in E. apply list_elem_of_lookup in Hm as [j Hj].
    destruct (Forall2_lookup_r _ _ _ _ _ E Hj) as (r & Hr & Hf).
    destruct (ns !! r) as [rn|] eqn:Hrn; simplify_eq/=.
    apply list_elem_of_lookup_2 in Hr.
    destruct (wf_path _ Hl r) as [qr Hqr]; [by apply lookup_lt_Some in Hrn|].
    destruct (wf_path _ Hl p) as [qp Hqp]; [by apply lookup_lt_Some in Hp|].
    assert (qr `suffix_of` read) as [l1 Hl1].
    { etrans; [exact (wf_suffix _ Ho _ _ _ Hp Hr _ _ Hqr Hqp)|by apply Hst]. }
    destruct (find_from_dep ns qr root r Hl (wf_root_lt _ Hl) Hqr) as [_ Hd].
    rewrite (dep_lookup _ _ _ Hrn), wf_root_dep in Hd by done.
    exists l1, qr, rest, r. simpl. rewrite Hrn, <- Hl1. simpl.
    rewrite app_assoc, <- Hl1.
    repeat split; try done; try lia.
    rewrite Hl1, length_app. lia.
  - exfalso. apply eq_None_not_Some in E. apply E, mapM_is_Some, Forall_forall.
    intros r Hr. simpl.
    destruct (lookup_lt_is_Some_2 ns r (wf_matches _ Ho _ _ _ Hp Hr)) as [rn ->].
    by eexists.
Qed.

Lemma state_ok_step ns read id f elem p :
  wf_links ns → id < length ns → f < length ns →
  state_ok ns read id → suffix_rel ns f id →
  goto_node ns f elem = Some (Ptr p) → state_ok ns (read ++ [elem]) p.
Proof.
  intros Hwf Hid Hf Hst Hfid Hg q Hq.
  destruct (goto_node_child _ _ _ _ Hg) as [Hc|[_ ->]].
  - destruct (wf_path _ Hwf f Hf) as [qf Hqf].
    destruct (wf_path _ Hwf id Hid) as [qid Hqid].
    assert (q = qf ++ [elem]) as ->.
    { apply (find_from_inj ns _ _ p Hwf Hq). by rewrite find_from_snoc, Hqf. }
    assert (qf `suffix_of` read) as [l ->].
    { etrans; [by apply Hfid|by apply Hst]. }
    exists l. by rewrite app_assoc.
  - rewrite (find_from_inj ns q [] root Hwf Hq eq_refl). apply suffix_nil.
Qed.

Lemma reported_weaken ns text lo lo' m :
  reported ns text lo m → lo' ≤ lo → reported ns text lo' m.
Proof.
  intros (l1 & q & l2 & r & ? & ? & ?) ?. exists l1, q, l2, r.
  split; [done|]. split; [lia|done].
Qed.

(** The scan ends, with fuel above the number of nodes, and appends
    reports of patterns of the text only. *)
Lemma scan_ok ns ft fuel :
  wf_trie ns → fail_ok ns ft → length ns < fuel →
  ∀ text read id acc, id < length ns → state_ok ns read id →
  ∃ ms, scan fuel ns ft text (Z.of_nat (length read)) id acc = Some (acc ++ ms) ∧
        Forall (reported ns (read ++ text) (length read)) ms.
Proof.
  intros Hwf Hft Hfuel. pose proof Hwf as [Hl Ho].
  induction text as [|elem rest IH]; intros read id acc Hid Hst.
  - exists []. simpl. by rewrite app_nil_r.
  - cbn [scan].
    destruct (follow_fail_enough ns ft elem fuel id Hl Hft Hid Hfuel)
      as (f & -> & Hf & _ & Hfs & p & Hp).
    simpl. rewrite Hp. simpl.
    destruct (goto_node_Ptr _ _ _ _ Hl Hp) as [Hplt _].
    destruct (lookup_lt_is_Some_2 ns p Hplt) as [node Hnode].
    rewrite Hnode. simpl. rewrite (wf_id _ Hl _ _ Hnode).
    pose proof (state_ok_step _ _ _ _ _ _ Hl Hid Hf Hst Hfs Hp) as Hst'.
    assert (Hlen : length (read ++ [elem]) = S (length read))
      by (rewrite length_app; simpl; lia).
    assert (Htext : (read ++ [elem]) ++ rest = read ++ elem :: rest)
      by (by rewrite <- app_assoc).
    assert (∃ new, (if String.eqb (value node) "" then Some []
                    else emit ns (Z.of_nat (length read)) node) = Some new ∧
                   Forall (reported ns (read ++ elem :: rest) (length read)) new)
      as (new & -> & Hnew).
    { destruct (String.eqb (value node) ""); [by exists []|].
      destruct (emit_ok ns (read ++ [elem]) rest node p Hwf Hnode Hst')
        as (new & Hnew & HP); [by destruct read|].
      rewrite Hlen, Htext in *.
      replace (Z.of_nat (S (length read)) - 1)%Z with (Z.of_nat (length read))
        in Hnew by lia.
      replace (S (length read) - 1) with (length read) in HP by lia.
      by exists new. }
    simpl.
    destruct (IH (read ++ [elem]) p (acc ++ new) Hplt Hst') as (ms & Hms & HP).
    rewrite Hlen, Htext in *.
    replace (Z.of_nat (length read) + 1)%Z with (Z.of_nat (S (length read))) by lia.
    rewrite Hms. exists (new ++ ms). split; [by rewrite app_assoc|].
    apply Forall_app. split; [done|].
    eapply Forall_impl; [exact HP|]. intros m Hm.
    apply (reported_weaken _ _ _ _ _ Hm). lia.
Qed.

Lemma refresh_ok a :
  wf_automaton a →
  ∃ N a', (∀ fuel, N ≤ fuel → refresh fuel a = Some a') ∧
          wf_automaton a' ∧ uptodate a' = true ∧
          Forall2 grown (nodes a) (nodes a').
Proof.
  intros Hwf. unfold refresh. destruct (uptodate a) eqn:E.
  - exists 0, a. split; [done|]. split; [done|]. split; [done|apply grown_refl].
  - destruct (update_automaton_ok a Hwf) as (N & a' & HN & ? & ? & ? & _).
    by exists N, a'.
Qed.

Lemma collect_ok text a :
  wf_automaton a → uptodate a = true →
  ∃ ms, (∀ fuel, length (nodes a) < fuel → collect fuel text a = Some ms) ∧
        Forall (reported (nodes a) text 0) ms.
Proof.
  intros [Hwf Hft] Hup. destruct (wf_root _ (proj1 Hwf)) as (r & Hr & _).
  destruct (scan_ok (nodes a) (fail_table a) (S (length (nodes a))) Hwf (Hft Hup)
              ltac:(lia) text [] 0 []) as (ms & Hms & HP).
  { apply wf_root_lt, Hwf. }
  { intros q Hq. by rewrite (find_from_inj _ q [] root (proj1 Hwf) Hq eq_refl). }
  exists ms. split; [|done]. intros fuel Hfuel. unfold collect, root.
  rewrite Hr. simpl. rewrite (wf_id _ (proj1 Hwf) _ _ Hr).
  apply (scan_mono (S (length (nodes a)))); [done|lia].
Qed.

Lemma refresh_inv fuel a a' :
  wf_automaton a → refresh fuel a = Some a' →
  wf_automaton a' ∧ uptodate a' = true ∧ Forall2 grown (nodes a) (nodes a').
Proof.
  intros Hwf Hr. destruct (refresh_ok a Hwf) as (N & a'' & HN & H).
  pose proof (refresh_mono _ (fuel `max` N) _ _ Hr ltac:(lia)) as H1.
  rewrite HN in H1 by lia. by simplify_eq.
Qed.

Lemma collect_inv fuel text a ms :
  wf_automaton a → uptodate a = true → collect fuel text a = Some ms →
  Forall (reported (nodes a) text 0) ms.
Proof.
  intros Hwf Hup Hc. destruct (collect_ok text a Hwf Hup) as (ms' & Hms' & HP).
  pose proof (collect_mono _ (fuel `max` S (length (nodes a))) _ _ _ Hc ltac:(lia)) as H1.
  rewrite Hms' in H1 by lia. by simplify_eq.
Qed.

(** [get_matches] changes the automaton through the builder only. *)
Lemma get_matches_reachable ro fuel text ex a a' ms :
  reachable a → get_matches ro fuel text ex a = Some (a', ms) → reachable a'.
Proof.
  intros Hr Hg. unfold get_matches, refresh in Hg.
  destruct (uptodate a).
  - simpl in Hg. destruct (collect fuel text a); simpl in Hg; [|done].
    by injection Hg as <- _.
  - destruct (update_automaton fuel a) as [a1|] eqn:E; simpl in Hg; [|done].
    destruct (collect fuel text a1); simpl in Hg; [|done].
    injection Hg as <- _. by apply (reach_build a fuel).
Qed.

(** A call of [get_matches] ends on every well-formed automaton. *)
Lemma get_matches_ok ro text ex a :
  wf_automaton a →
  ∃ N a' ms,
    (∀ fuel, N ≤ fuel →
       refresh fuel a = Some a' ∧ collect fuel text a' = Some ms ∧
       get_matches ro fuel text ex a = Some (a', if ex then ro ms else ms)) ∧
    wf_automaton a' ∧ uptodate a' = true.
Proof.
  intros Hwf. destruct (refresh_ok a Hwf) as (N & a' & HN & Hwf' & Hup & _).
  destruct (collect_ok text a' Hwf' Hup) as (ms & Hms & _).
  exists (N `max` S (length (nodes a'))), a', ms. split; [|done].
  intros fuel Hfuel. unfold get_matches.
  rewrite HN by lia. simpl. rewrite Hms by lia. done.
Qed.

(** ** Insertion and the queries *)

Lemma add_find p v a q :
  find_node (add p v a) q = find_from (add_walk p 0%Z root (nodes a)).2 q root.
Proof. unfold find_node. apply find_from_links, add_same_links. Qed.

Lemma add_find_target p v a :
  wf_automaton a → find_node (add p v a) p = Ptr (add_walk p 0%Z root (nodes a)).1.
Proof.
  intros [Hwf _]. rewrite add_find. apply (ws_target _ _ _ _ _ (add_walk_root p _ Hwf)).
Qed.

Lemma add_value_target p v a :
  wf_automaton a →
  ptr_value (nodes (add p v a)) (Ptr (add_walk p 0%Z root (nodes a)).1) = Some v.
Proof.
  intros [Hwf _]. pose proof (add_walk_root p _ Hwf) as Hw.
  simpl. rewrite add_nodes, list_lookup_alter_eq.
  destruct (lookup_lt_is_Some_2 _ _ (ws_target_lt _ _ _ _ _ Hw)) as [n ->]. done.
Qed.

(** What [find_node] gives for another pattern after an insertion: the
    node found before, with its value, or a new node without a value on the
    path of the inserted pattern. *)
Lemma add_find_other p v a q :
  wf_automaton a → q ≠ p →
  match find_node (add p v a) q with
  | Null => find_node a q = Null
  | Ptr n =>
      (find_node a q = Ptr n ∧
       ptr_value (nodes (add p v a)) (Ptr n) = ptr_value (nodes a) (Ptr n)) ∨
      (find_node a q = Null ∧ length (nodes a) ≤ n ∧
       ptr_value (nodes (add p v a)) (Ptr n) = Some "" ∧
       ∃ s, s ≠ [] ∧ p = q ++ s)
  end.
Proof.
  intros [Hwf _] Hne. pose proof (add_walk_root p _ Hwf) as Hw.
  pose proof (ws_wf _ _ _ _ _ Hw) as [Hl' _].
  rewrite add_find. unfold find_node.
  set (t := (add_walk p 0%Z root (nodes a)).1) in *.
  set (ns' := (add_walk p 0%Z root (nodes a)).2) in *.
  destruct (find_from ns' q root) as [|n] eqn:E.
  - destruct (find_from (nodes a) q root) as [|m] eqn:E0; [done|].
    apply (ws_mono _ _ _ _ _ Hw) in E0. congruence.
  - assert (n ≠ t) as Hnt.
    { intros ->. apply Hne.
      exact (find_from_inj _ _ _ _ Hl' E (ws_target _ _ _ _ _ Hw)). }
    assert (Hval : ptr_value (nodes (add p v a)) (Ptr n) = ptr_value ns' (Ptr n)).
    { simpl. rewrite add_nodes. fold t ns'. by rewrite list_lookup_alter_ne. }
    rewrite Hval.
    destruct (find_from_dep ns' q root n Hl' (wf_root_lt _ Hl') E) as [Hn _].
    destruct (decide (n < length (nodes a))) as [Hlt|Hge].
    + left. split; [by apply (walk_spec_old_path _ _ _ _ _ _ _ _ Hw)|].
      simpl. destruct (lookup_lt_is_Some_2 _ _ Hlt) as [n0 Hn0].
      destruct (ws_old_node _ _ _ _ _ Hw _ _ Hn0) as (n' & -> & Hv & _).
      rewrite Hn0. simpl. by rewrite Hv.
    + right. split; [|split; [lia|split]].
      * destruct (find_from (nodes a) q root) as [|m] eqn:E0; [done|].
        destruct (find_from_dep _ q root m (proj1 Hwf)
                    (wf_root_lt _ (proj1 Hwf)) E0) as [Hm _].
        apply (ws_mono _ _ _ _ _ Hw) in E0.
        change (find_from ns' q root = Ptr m) in E0.
        rewrite E in E0. injection E0 as ->. lia.
      * simpl. destruct (lookup_lt_is_Some_2 _ _ Hn) as [n' Hn'].
        rewrite Hn'. simpl.
        by destruct (ws_new_node _ _ _ _ _ Hw _ _ Hn' ltac:(lia)) as [-> _].
      * destruct (ws_new _ _ _ _ _ Hw n) as (p1 & p2 & Hp & Hp1); [split; [lia|done]|].
        pose proof (find_from_inj _ _ _ _ Hl' E Hp1) as <-.
        exists p2. split; [|done]. intros ->. by rewrite app_nil_r in Hp.
Qed.

(** C5.  Right after [add p v] with a value that is not empty,
    [has_pattern p] is true and [get_value p] is [v], whatever was inserted
    before: an earlier value of [p] is overwritten. *)
Theorem add_then_query (a : Automaton) (p : list string) (v : string) :
  reachable a → v ≠ "" →
  has_pattern (add p v a) p = true ∧ get_value (add p v a) p = v.
Proof.
  intros Hr Hv. apply reachable_wf in Hr.
  unfold has_pattern, get_value.
  rewrite (add_find_target p v a Hr), (add_value_target p v a Hr).
  split; [|done]. apply negb_true_iff, String.eqb_neq. done.
Qed.

Lemma add_then_query_witness :
  reachable (add ["h"; "e"] "old" new_Automaton) ∧ "new" ≠ "" ∧
  has_pattern (add ["h"; "e"] "new" (add ["h"; "e"] "old" new_Automaton)) ["h"; "e"]
    = true ∧
  get_value (add ["h"; "e"] "new" (add ["h"; "e"] "old" new_Automaton)) ["h"; "e"]
    = "new".
Proof.
  split; [apply reach_add, reach_new|]. split; [discriminate|].
  apply (add_then_query (add ["h"; "e"] "old" new_Automaton) ["h"; "e"] "new").
  - apply reach_add, reach_new.
  - discriminate.
Defined.

(** After [add p v] no prefix of [p] is absent. *)
Lemma has_prefix_of_inserted p1 p2 v a :
  wf_automaton a → has_prefix (add (p1 ++ p2) v a) p1 = false.
Proof.
  intros Hwf. pose proof (add_find_target (p1 ++ p2) v a Hwf) as H.
  unfold has_prefix, find_node in *. rewrite find_from_app in H.
  by destruct (find_from (nodes (add (p1 ++ p2) v a)) p1 root).
Qed.

(** [has_prefix] negates what [find_node] returns. *)
Lemma has_prefix_find_node (a : Automaton) (prefix : list string) :
  (has_prefix a prefix = true ↔ find_node a prefix = Null) ∧
  (has_prefix a prefix = false ↔ ∃ n, find_node a prefix = Ptr n).
Proof.
  unfold has_prefix. destruct (find_node a prefix) as [|n].
  - split; split; try done. by intros [n ?].
  - split; split; try done. by exists n.
Qed.

(** C10, as stated, fails: inserting [a b] into the empty automaton makes
    [find_node] find a node for the other pattern [a], where it found none
    before. *)
Lemma add_frame_counterexample :
  ["a"] ≠ ["a"; "b"] ∧
  find_node new_Automaton ["a"] = Null ∧
  find_node (add ["a"; "b"] "x" new_Automaton) ["a"] = Ptr 1 ∧
  ¬ (find_node (add ["a"; "b"] "x" new_Automaton) ["a"] = Null ↔
     find_node new_Automaton ["a"] = Null).
Proof.
  split; [discriminate|]. split; [reflexivity|]. split; [reflexivity|].
  intros [_ H]. specialize (H eq_refl). vm_compute in H. discriminate.
Qed.

(** C10, amended.  For a pattern [q] other than [p], [add p v] leaves
    [get_value q] and [has_pattern q] as they were and keeps every node
    [find_node q] found; [find_node q] finds a node where there was none
    only for a proper prefix [q] of [p]; the new nodes all lie on the path of
    [p], and only the terminal node of [p] has its value changed. *)
Theorem add_frame (a : Automaton) (p : list string) (v : string) (q : list string) :
  reachable a → q ≠ p →
  get_value (add p v a) q = get_value a q ∧
  has_pattern (add p v a) q = has_pattern a q ∧
  (∀ n, find_node a q = Ptr n → find_node (add p v a) q = Ptr n) ∧
  (find_node a q = Null → find_node (add p v a) q ≠ Null →
     ∃ s, s ≠ [] ∧ p = q ++ s) ∧
  (∀ i, length (nodes a) ≤ i < length (nodes (add p v a)) →
     ∃ p1 p2, p = p1 ++ p2 ∧ find_node (add p v a) p1 = Ptr i) ∧
  (∀ i, find_node (add p v a) p ≠ Ptr i → i < length (nodes a) →
     ptr_value (nodes (add p v a)) (Ptr i) = ptr_value (nodes a) (Ptr i)).
Proof.
  intros Hr Hne. apply reachable_wf in Hr.
  pose proof (add_find_other p v a q Hr Hne) as H.
  pose proof (add_walk_root p _ (wf_nodes _ Hr)) as Hw.
  unfold get_value, has_pattern.
  split; [|split; [|split; [|split; [|split]]]].
  - destruct (find_node (add p v a) q) as [|n].
    + by rewrite H.
    + destruct H as [[-> ->]|(-> & _ & -> & _)]; done.
  - destruct (find_node (add p v a) q) as [|n].
    + by rewrite H.
    + destruct H as [[-> ->]|(-> & _ & -> & _)]; done.
  - intros n Hn. destruct (find_node (add p v a) q) as [|n'].
    + congruence.
    + destruct H as [[? _]|[? _]]; congruence.
  - intros Hnull Hnn. destruct (find_node (add p v a) q) as [|n']; [done|].
    destruct H as [[? _]|(_ & _ & _ & Hs)]; [congruence|done].
  - intros i Hi. rewrite add_nodes, length_alter in Hi.
    destruct (ws_new _ _ _ _ _ Hw i Hi) as (p1 & p2 & ? & ?).
    exists p1, p2. by rewrite add_find.
  - intros i Hi Hlt. rewrite (add_find_target p v a Hr) in Hi.
    simpl. rewrite add_nodes, list_lookup_alter_ne by congruence.
    destruct (lookup_lt_is_Some_2 _ _ Hlt) as [n0 Hn0].
    destruct (ws_old_node _ _ _ _ _ Hw _ _ Hn0) as (n' & -> & Hv & _).
    rewrite Hn0. simpl. by rewrite Hv.
Qed.

Lemma add_frame_witness :
  reachable (add ["h"; "e"] "y" new_Automaton) ∧
  ["h"; "e"] ≠ ["h"; "e"; "r"; "s"] ∧
  get_value (add ["h"; "e"; "r"; "s"] "x" (add ["h"; "e"] "y" new_Automaton)) ["h"; "e"]
    = get_value (add ["h"; "e"] "y" new_Automaton) ["h"; "e"] ∧
  has_pattern (add ["h"; "e"; "r"; "s"] "x" (add ["h"; "e"] "y" new_Automaton)) ["h"; "e"]
    = has_pattern (add ["h"; "e"] "y" new_Automaton) ["h"; "e"].
Proof.
  split; [apply reach_add, reach_new|]. split; [discriminate|].
  destruct (add_frame (add ["h"; "e"] "y" new_Automaton) ["h"; "e"; "r"; "s"] "x"
              ["h"; "e"]) as (H1 & H2 & _).
  - apply reach_add, reach_new.
  - discriminate.
  - exact (conj H1 H2).
Defined.

(** ** The matcher and the freshness flag *)

Lemma ushers_reachable : reachable ushers.
Proof. repeat apply reach_add. apply reach_new. Qed.

Lemma ushers_built_eq : update_automaton 16 ushers = Some ushers_built.
Proof. vm_compute. reflexivity. Qed.

Lemma ushers_built_reachable : reachable ushers_built.
Proof. exact (reach_build _ _ _ ushers_reachable ushers_built_eq). Qed.

(** Every [add] clears [uptodate], and a call of [get_matches] on an
    automaton that is not up to date, as after an [add], runs the builder
    first and scans the automaton the builder returns: the nodes of the
    last insertion with a failure table made for them.  The outputs of the
    automaton scanned are those of the automaton before the call with more
    at the end, so what an earlier build copied is still there. *)
Lemma match_rebuilds_when_stale (ro : MatchVector → MatchVector)
    (a : Automaton) (text : list string) (ex : bool) :
  reachable a →
  (∀ p v, uptodate (add p v a) = false ∧
          rebuilds_before_scan ro text ex (add p v a)) ∧
  (uptodate a = false → rebuilds_before_scan ro text ex a).
Proof.
  assert (H : ∀ b, reachable b → uptodate b = false →
                   rebuilds_before_scan ro text ex b).
  { intros b Hr Hst. apply reachable_wf in Hr.
    destruct (update_automaton_ok b Hr)
      as (N & a' & HN & Hwf' & Hup & Hg & _ & Hft).
    destruct (collect_ok text a' Hwf' Hup) as (ms & Hms & _).
    exists (N `max` S (length (nodes a'))), a', ms. split; [|done].
    intros fuel Hfuel. unfold get_matches, refresh. rewrite Hst.
    rewrite HN by lia. simpl. rewrite Hms by lia. done. }
  intros Hr. split; [|by apply H].
  intros p v. split; [apply add_uptodate|].
  apply H; [by apply reach_add|apply add_uptodate].
Qed.

Lemma match_rebuilds_when_stale_witness :
  reachable ushers ∧ uptodate ushers = false ∧
  uptodate (add ["h"; "i"] "hi" ushers_built) = false ∧
  rebuilds_before_scan id ["u"; "s"; "h"; "e"; "r"; "s"] false
    (add ["h"; "i"] "hi" ushers_built) ∧
  rebuilds_before_scan id ["u"; "s"; "h"; "e"; "r"; "s"] false ushers.
Proof.
  split; [apply ushers_reachable|]. split; [reflexivity|].
  destruct (match_rebuilds_when_stale id ushers_built
              ["u"; "s"; "h"; "e"; "r"; "s"] false ushers_built_reachable)
    as [H1 _].
  destruct (H1 ["h"; "i"] "hi") as [H2 H3].
  split; [exact H2|]. split; [exact H3|].
  exact (proj2 (match_rebuilds_when_stale id ushers
                  ["u"; "s"; "h"; "e"; "r"; "s"] false ushers_reachable)
               eq_refl).
Defined.

(** C7.  Every match that [get_matches] returns reports a pattern [q], the
    path of a node with the value [m_value], that stands in the text from
    [m_start] up to [m_end], [m_end] excluded: [m_start] is
    [m_end - length q], and with [idx] the position at which the match was
    pushed, [m_end = idx + 1] and [m_start = idx - length q + 1].  With
    [exclude_overlaps] this needs [remove_overlaps] to return matches it was
    given. *)
Theorem match_offsets (ro : MatchVector → MatchVector) (a : Automaton)
    (fuel : nat) (text : list string) (ex : bool) (a' : Automaton)
    (ms : MatchVector) (m : Match) :
  (∀ l x, x ∈ ro l → x ∈ l) →
  reachable a → get_matches ro fuel text ex a = Some (a', ms) → m ∈ ms →
  ∃ (l1 q l2 : list string) (idx : Z),
    text = l1 ++ q ++ l2 ∧
    (0 ≤ idx < Z.of_nat (length text))%Z ∧
    find_node a' q ≠ Null ∧ get_value a' q = m_value m ∧
    m_end m = (idx + 1)%Z ∧
    m_start m = (m_end m - Z.of_nat (length q))%Z ∧
    m_start m = (idx - Z.of_nat (length q) + 1)%Z ∧
    m_start m = Z.of_nat (length l1).
Proof.
  intros Hro Hr Hg Hm. apply reachable_wf in Hr. unfold get_matches in Hg.
  destruct (refresh fuel a) as [a1|] eqn:E1; simpl in Hg; [|done].
  destruct (collect fuel text a1) as [ms1|] eqn:E2; simpl in Hg; [|done].
  injection Hg as <- <-.
  destruct (refresh_inv _ _ _ Hr E1) as (Hwf1 & Hup1 & _).
  pose proof (collect_inv _ _ _ _ Hwf1 Hup1 E2) as HP.
  assert (m ∈ ms1) as Hm1 by (destruct ex; auto).
  destruct (proj1 (Forall_forall _ _) HP m Hm1)
    as (l1 & q & l2 & r & Ht & Hlo & Hq & Hv & Hs & He).
  exists l1, q, l2, (Z.of_nat (length (l1 ++ q)) - 1)%Z.
  unfold get_value, find_node. rewrite Hq, Hv, Hs, He.
  rewrite Ht, !length_app. rewrite length_app in Hlo.
  repeat split; try done; lia.
Qed.

Lemma match_offsets_witness :
  reachable ushers ∧
  get_matches id 16 ["u"; "s"; "h"; "e"; "r"; "s"] false ushers
    = Some (ushers_built,
            [mkMatch 1 4 "she"; mkMatch 2 4 "he"; mkMatch 2 6 "hers"]) ∧
  ∃ (l1 q l2 : list string) (idx : Z),
    ["u"; "s"; "h"; "e"; "r"; "s"] = l1 ++ q ++ l2 ∧
    (0 ≤ idx < Z.of_nat 6)%Z ∧
    find_node ushers_built q ≠ Null ∧ get_value ushers_built q = "he" ∧
    4%Z = (idx + 1)%Z ∧
    2%Z = (4 - Z.of_nat (length q))%Z ∧
    2%Z = (idx - Z.of_nat (length q) + 1)%Z ∧
    2%Z = Z.of_nat (length l1).
Proof.
  split; [apply ushers_reachable|]. split; [vm_compute; reflexivity|].
  apply (match_offsets id ushers 16 ["u"; "s"; "h"; "e"; "r"; "s"] false
           ushers_built
           [mkMatch 1 4 "she"; mkMatch 2 4 "he"; mkMatch 2 6 "hers"]
           (mkMatch 2 4 "he")).
  - intros l x Hx. exact Hx.
  - apply ushers_reachable.
  - vm_compute. reflexivity.
  - apply list_elem_of_further, list_elem_of_here.
Defined.

(** C8.  The walks along failure links end.  On every automaton the
    program can hold, the root has a transition for every token; the
    builder returns, and so does every walk of its step 3b, once the fuel
    passes a bound; [get_matches] returns likewise for every text; and in an
    automaton that is up to date the walk from any node, for any token, stops
    within [length nodes + 1] turns on a node that has a transition. *)
Theorem fail_walks_terminate (ro : MatchVector → MatchVector) (a : Automaton) :
  reachable a →
  (∀ elem, ∃ p, goto_node (nodes a) root elem = Some (Ptr p)) ∧
  (∃ N a', ∀ fuel, N ≤ fuel → update_automaton fuel a = Some a') ∧
  (∀ text ex, ∃ N r, ∀ fuel, N ≤ fuel → get_matches ro fuel text ex a = Some r) ∧
  (uptodate a = true →
   ∀ id elem, id < length (nodes a) →
   ∃ f p,
     (∀ fuel, length (nodes a) < fuel →
        follow_fail fuel (nodes a) (fail_table a) elem id = Some f) ∧
     goto_node (nodes a) f elem = Some (Ptr p)).
Proof.
  intros Hr. apply reachable_wf in Hr. pose proof (wf_nodes _ Hr) as [Hl Ho].
  split; [|split; [|split]].
  - intros elem. apply goto_node_root, wf_root_lt, Hl.
  - destruct (update_automaton_ok a Hr) as (N & a' & HN & _). by exists N, a'.
  - intros text ex.
    destruct (get_matches_ok ro text ex a Hr) as (N & a' & ms & HN & _).
    exists N, (a', if ex then ro ms else ms). intros fuel Hfuel.
    by destruct (HN fuel Hfuel) as (_ & _ & ?).
  - intros Hup id elem Hid.
    destruct (follow_fail_enough (nodes a) (fail_table a) elem
                (S (length (nodes a))) id Hl (wf_fail _ Hr Hup) Hid ltac:(lia))
      as (f & Hf & _ & _ & _ & p & Hp).
    exists f, p. split; [|done]. intros fuel Hfuel.
    apply (follow_fail_mono _ _ _ _ _ _ _ Hf). lia.
Qed.

Lemma fail_walks_terminate_witness :
  reachable ushers_built ∧ uptodate ushers_built = true ∧
  ∃ f p,
    (∀ fuel, length (nodes ushers_built) < fuel →
       follow_fail fuel (nodes ushers_built) (fail_table ushers_built) "x" 5
         = Some f) ∧
    goto_node (nodes ushers_built) f "x" = Some (Ptr p).
Proof.
  split; [apply ushers_built_reachable|]. split; [reflexivity|].
  apply (fail_walks_terminate id ushers_built ushers_built_reachable).
  - reflexivity.
  - vm_compute. lia.
Defined.

(** C9.  A second call of [get_matches] with the same text and flag, with
    no insertion in between, returns what the first call returned, and
    leaves the automaton as the first call left it; and the first call
    returns. *)
Theorem match_twice_same (ro : MatchVector → MatchVector) (a : Automaton)
    (text : list string) (ex : bool) :
  reachable a →
  (∀ fuel a' ms,
     get_matches ro fuel text ex a = Some (a', ms) →
     get_matches ro fuel text ex a' = Some (a', ms)) ∧
  ∃ N a' ms, ∀ fuel, N ≤ fuel →
     get_matches ro fuel text ex a = Some (a', ms) ∧
     get_matches ro fuel text ex a' = Some (a', ms).
Proof.
  intros Hr. apply reachable_wf in Hr.
  assert (Hagain : ∀ fuel a' ms,
            get_matches ro fuel text ex a = Some (a', ms) →
            get_matches ro fuel text ex a' = Some (a', ms)).
  { intros fuel a' ms Hg. unfold get_matches in *.
    destruct (refresh fuel a) as [a1|] eqn:E1; simpl in Hg; [|done].
    destruct (collect fuel text a1) as [ms1|] eqn:E2; simpl in Hg; [|done].
    injection Hg as <- <-.
    destruct (refresh_inv _ _ _ Hr E1) as (_ & Hup1 & _).
    unfold refresh at 1. rewrite Hup1. simpl. by rewrite E2. }
  split; [done|].
  destruct (get_matches_ok ro text ex a Hr) as (N & a' & ms & HN & _).
  exists N, a', (if ex then ro ms else ms). intros fuel Hfuel.
  destruct (HN fuel Hfuel) as (_ & _ & Hg). split; [done|]. by apply Hagain.
Qed.

Lemma match_twice_same_witness :
  reachable ushers ∧
  get_matches id 16 ["u"; "s"; "h"; "e"; "r"; "s"] false ushers
    = Some (ushers_built,
            [mkMatch 1 4 "she"; mkMatch 2 4 "he"; mkMatch 2 6 "hers"]) ∧
  get_matches id 16 ["u"; "s"; "h"; "e"; "r"; "s"] false ushers_built
    = Some (ushers_built,
            [mkMatch 1 4 "she"; mkMatch 2 4 "he"; mkMatch 2 6 "hers"]).
Proof.
  split; [apply ushers_reachable|].
  assert (H : get_matches id 16 ["u"; "s"; "h"; "e"; "r"; "s"] false ushers
              = Some (ushers_built,
                      [mkMatch 1 4 "she"; mkMatch 2 4 "he"; mkMatch 2 6 "hers"]))
    by (vm_compute; reflexivity).
  split; [exact H|].
  exact (proj1 (match_twice_same id ushers ["u"; "s"; "h"; "e"; "r"; "s"] false
                  ushers_reachable) 16 _ _ H).
Defined.

(** ** Where the matcher and the builder fall short *)

(** C1 does not hold of the code.  With the patterns [a b c] and [b], both
    with a value, the text [a b c] has [b] at positions 1 to 2, and
    [get_matches] returns the match of [a b c] alone: after [a b] the state
    is the node of [a b], which has no value of its own, and the matcher
    pushes the outputs of a node only when the node has a value. *)
Theorem match_misses_inner_occurrence (ro : MatchVector → MatchVector) :
  has_pattern inner ["b"] = true ∧ get_value inner ["b"] = "Y" ∧
  take 1 (drop 1 ["a"; "b"; "c"]) = ["b"] ∧
  snd <$> get_matches ro 16 ["a"; "b"; "c"] false inner = Some [mkMatch 0 3 "X"] ∧
  (∀ fuel,
     snd <$> get_matches ro fuel ["a"; "b"; "c"] false inner = None ∨
     snd <$> get_matches ro fuel ["a"; "b"; "c"] false inner
       = Some [mkMatch 0 3 "X"]) ∧
  mkMatch 1 2 "Y" ∉ [mkMatch 0 3 "X"].
Proof.
  assert (H16 : snd <$> get_matches ro 16 ["a"; "b"; "c"] false inner
                = Some [mkMatch 0 3 "X"]) by (vm_compute; reflexivity).
  repeat split; try reflexivity; try exact H16.
  - intros fuel.
    destruct (get_matches ro fuel ["a"; "b"; "c"] false inner) as [r|] eqn:E;
      [right|by left].
    apply (get_matches_mono _ _ (fuel `max` 16)) in E; [|lia].
    destruct (get_matches ro 16 ["a"; "b"; "c"] false inner) as [r'|] eqn:E';
      [|done].
    apply (get_matches_mono _ _ (fuel `max` 16)) in E'; [|lia].
    rewrite E in E'. injection E' as ->. exact H16.
  - intros Hin. apply list_elem_of_singleton in Hin. discriminate.
Qed.

(** C2 does not hold of the code.  With the patterns [a] and [b a], a
    second run of the builder gives the same failure table and leaves the
    automaton up to date, but appends the outputs of the failure target of
    the node of [b a] once more: [3; 1] becomes [3; 1; 1], and the scan of
    [b a] then reports [a] twice. *)
Theorem rebuild_appends_outputs_again :
  update_automaton 16 suffix2 = Some suffix2_built ∧
  update_automaton 16 suffix2_built = Some suffix2_rebuilt ∧
  fail_table suffix2_built = [0; 0; 0; 1] ∧
  fail_table suffix2_rebuilt = [0; 0; 0; 1] ∧
  uptodate suffix2_built = true ∧ uptodate suffix2_rebuilt = true ∧
  matches <$> nodes suffix2_built = [[]; [1]; []; [3; 1]] ∧
  matches <$> nodes suffix2_rebuilt = [[]; [1]; []; [3; 1; 1]] ∧
  suffix2_rebuilt ≠ suffix2_built ∧
  collect 16 ["b"; "a"] suffix2_built
    = Some [mkMatch 0 2 "Y"; mkMatch 1 2 "X"] ∧
  collect 16 ["b"; "a"] suffix2_rebuilt
    = Some [mkMatch 0 2 "Y"; mkMatch 1 2 "X"; mkMatch 1 2 "X"] ∧
  (∀ fuel, update_automaton fuel suffix2 = None ∨
           update_automaton fuel suffix2 = Some suffix2_built) ∧
  (∀ fuel, update_automaton fuel suffix2_built = None ∨
           update_automaton fuel suffix2_built = Some suffix2_rebuilt).
Proof.
  assert (H1 : update_automaton 16 suffix2 = Some suffix2_built)
    by (vm_compute; reflexivity).
  assert (H2 : update_automaton 16 suffix2_built = Some suffix2_rebuilt)
    by (vm_compute; reflexivity).
  assert (Hfuel : ∀ a r, update_automaton 16 a = Some r →
            ∀ fuel, update_automaton fuel a = None ∨ update_automaton fuel a = Some r).
  { intros a r H16 fuel. destruct (update_automaton fuel a) as [r'|] eqn:E;
      [right|by left].
    apply (update_automaton_mono _ (fuel `max` 16)) in E; [|lia].
    apply (update_automaton_mono _ (fuel `max` 16)) in H16; [|lia]. congruence. }
  split; [exact H1|]. split; [exact H2|].
  repeat split; try (vm_compute; reflexivity); try (by apply Hfuel).
  intros H. apply (f_equal (λ a, matches <$> nodes a)) in H.
  vm_compute in H. discriminate.
Qed.

(** C3 does not hold of the code.  With the patterns [a] and [b a], a match,
    the insertion of [c] and a second match, the outputs of the node of
    [b a] hold the node of [a] twice, and the second match reports [a]
    twice at the same place. *)
Theorem outputs_hold_a_node_twice (ro : MatchVector → MatchVector) :
  ∃ a1 a2,
    get_matches ro 16 ["b"; "a"] false suffix2
      = Some (a1, [mkMatch 0 2 "Y"; mkMatch 1 2 "X"]) ∧
    get_matches ro 16 ["b"; "a"] false (add ["c"] "Z" a1)
      = Some (a2, [mkMatch 0 2 "Y"; mkMatch 1 2 "X"; mkMatch 1 2 "X"]) ∧
    find_node a2 ["b"; "a"] = Ptr 3 ∧ find_node a2 ["a"] = Ptr 1 ∧
    matches <$> nodes a2 !! 3 = Some [3; 1; 1] ∧
    ¬ NoDup [3; 1; 1].
Proof.
  exists suffix2_built,
    (default new_Automaton (update_automaton 16 (add ["c"] "Z" suffix2_built))).
  repeat split; try (vm_compute; reflexivity).
  intros H. apply NoDup_cons in H as [_ H]. apply NoDup_cons in H as [H _].
  apply H. left.
Qed.


(** ** Further properties of the tree *)

Lemma built_from_inserted h : built_from h (inserted h).
Proof.
  induction h as [|[p v] h IH] using rev_ind; [apply built_new|].
  rewrite inserted_snoc. by apply built_add.
Qed.

Lemma last_value_snoc q h p v :
  last_value q (h ++ [(p, v)]) = if decide (p = q) then v else last_value q h.
Proof. unfold last_value. by rewrite fold_left_app. Qed.

Lemma has_pattern_get_value a q :
  has_pattern a q = negb (String.eqb (get_value a q) "").
Proof. unfold has_pattern, get_value. by destruct (ptr_value _ _). Qed.

(** The queries of two automata whose nodes differ in outputs only. *)
Lemma grown_queries a a' q :
  Forall2 grown (nodes a) (nodes a') →
  find_node a' q = find_node a q ∧ get_value a' q = get_value a q ∧
  has_pattern a' q = has_pattern a q ∧ has_prefix a' q = has_prefix a q.
Proof.
  intros Hg. pose proof (grown_links _ _ Hg) as Hl.
  assert (Hf : find_node a' q = find_node a q) by (by apply find_from_links).
  assert (Hv : get_value a' q = get_value a q).
  { unfold get_value. rewrite Hf. destruct (find_node a q) as [|n]; [done|].
    simpl. destruct (nodes a !! n) as [x|] eqn:E.
    - destruct (Forall2_lookup_l _ _ _ _ _ Hg E) as (y & -> & _ & Hxy & _).
      simpl. by rewrite Hxy.
    - destruct (nodes a' !! n) as [y|] eqn:E'; [|done].
      destruct (Forall2_lookup_r _ _ _ _ _ Hg E') as (x & ? & _). congruence. }
  split; [done|]. split; [done|].
  split; [by rewrite !has_pattern_get_value, Hv|].
  unfold has_prefix. by rewrite Hf.
Qed.

Lemma get_value_add_same p v a :
  wf_automaton a → get_value (add p v a) p = v.
Proof.
  intros Hwf. unfold get_value.
  by rewrite (add_find_target p v a Hwf), (add_value_target p v a Hwf).
Qed.

Lemma get_value_add_other p v a q :
  wf_automaton a → q ≠ p → get_value (add p v a) q = get_value a q.
Proof.
  intros Hwf Hne. pose proof (add_find_other p v a q Hwf Hne) as H.
  unfold get_value. destruct (find_node (add p v a) q) as [|n].
  - by rewrite H.
  - destruct H as [[-> ->]|(-> & _ & -> & _)]; done.
Qed.

Lemma built_from_value h a q :
  built_from h a →
  get_value a q = last_value q h ∧
  has_pattern a q = negb (String.eqb (last_value q h) "").
Proof.
  intros Hb. rewrite has_pattern_get_value.
  assert (get_value a q = last_value q h) as ->; [|done].
  induction Hb as [|h a p v Hb IH|h a fuel a' Hb IH Hu].
  - unfold get_value, find_node. destruct q as [|k q]; done.
  - apply built_from_reachable, reachable_wf in Hb.
    rewrite last_value_snoc. case_decide as Hpq.
    + subst q. by apply get_value_add_same.
    + rewrite get_value_add_other by done. exact IH.
  - apply built_from_reachable, reachable_wf in Hb.
    destruct (update_automaton_inv _ _ _ Hb Hu) as (_ & _ & Hg & _).
    by rewrite (proj1 (proj2 (grown_queries a a' q Hg))).
Qed.

(** X1.  The tree is a map from patterns to values: after any insertions
    and runs of the builder, [get_value q] is the value of the last
    insertion of [q], the empty string if there was none, and [has_pattern q]
    tells whether that value is not empty. *)
Theorem get_value_last_inserted (h : list (list string * string))
    (a : Automaton) (q : list string) :
  built_from h a →
  get_value a q = last_value q h ∧
  has_pattern a q = negb (String.eqb (last_value q h) "").
Proof. apply built_from_value. Qed.

Lemma get_value_last_inserted_witness :
  built_from ushers_history ushers_built ∧
  get_value ushers_built ["h"; "i"; "s"] = "his" ∧
  has_pattern ushers_built ["h"; "i"; "s"] = true.
Proof.
  assert (H : built_from ushers_history ushers_built).
  { apply (built_build _ ushers 16); [|apply ushers_built_eq].
    exact (built_from_inserted ushers_history). }
  split; [exact H|].
  exact (get_value_last_inserted ushers_history ushers_built ["h"; "i"; "s"] H).
Defined.

(** After [add p v] the tree has a node for [q] exactly when it had one
    before or [q] is a prefix of [p]. *)
Lemma add_find_iff p v a q :
  wf_automaton a →
  find_node (add p v a) q ≠ Null ↔
  find_node a q ≠ Null ∨ ∃ s, p = q ++ s.
Proof.
  intros Hwf. pose proof (add_walk_root p _ (wf_nodes _ Hwf)) as Hw. split.
  - intros H. destruct (decide (q = p)) as [->|Hne].
    + right. exists []. by rewrite app_nil_r.
    + pose proof (add_find_other p v a q Hwf Hne) as H'.
      destruct (find_node (add p v a) q) as [|n]; [done|].
      destruct H' as [[-> _]|(_ & _ & _ & s & _ & ->)]; [by left|right; eauto].
  - intros [H|[s ->]].
    + rewrite add_find. unfold find_node in H.
      destruct (find_from (nodes a) q root) as [|n] eqn:E; [done|].
      by rewrite (ws_mono _ _ _ _ _ Hw _ _ _ E).
    + pose proof (has_prefix_of_inserted q s v a Hwf) as H.
      unfold has_prefix in H. by destruct (find_node (add (q ++ s) v a) q).
Qed.

(** X2.  The tree holds the prefixes of the inserted patterns and nothing
    else: after any insertions and runs of the builder, [find_node q] finds
    a node, and [has_prefix q] is false, exactly when [q] is empty or a
    prefix of a pattern that was inserted. *)
Theorem has_prefix_of_history (h : list (list string * string))
    (a : Automaton) (q : list string) :
  built_from h a →
  (find_node a q ≠ Null ↔ q = [] ∨ ∃ p v s, (p, v) ∈ h ∧ p = q ++ s) ∧
  (has_prefix a q = false ↔ q = [] ∨ ∃ p v s, (p, v) ∈ h ∧ p = q ++ s).
Proof.
  intros Hb.
  assert (H : find_node a q ≠ Null ↔ q = [] ∨ ∃ p v s, (p, v) ∈ h ∧ p = q ++ s).
  { induction Hb as [|h a p v Hb IH|h a fuel a' Hb IH Hu].
    - unfold find_node. destruct q as [|k q]; simpl.
      + split; [by left|done].
      + split; [done|]. intros [?|(p & v & s & Hin & _)]; [done|].
        by apply elem_of_nil in Hin.
    - apply built_from_reachable, reachable_wf in Hb.
      rewrite (add_find_iff p v a q Hb), IH. split.
      + intros [[?|(p' & v' & s & Hin & ->)]|[s ->]]; [by left|right..].
        * exists (q ++ s), v', s. split; [|done]. apply elem_of_app. by left.
        * exists (q ++ s), v, s. split; [|done]. apply elem_of_app. right.
          by apply list_elem_of_singleton.
      + intros [?|(p' & v' & s & Hin & ->)]; [by left; left|].
        apply elem_of_app in Hin as [Hin|Hin].
        * left. right. by exists (q ++ s), v', s.
        * apply list_elem_of_singleton in Hin as [= <- <-]. right. by exists s.
    - apply built_from_reachable, reachable_wf in Hb.
      destruct (update_automaton_inv _ _ _ Hb Hu) as (_ & _ & Hg & _).
      by rewrite (proj1 (grown_queries a a' q Hg)). }
  split; [done|]. rewrite <- H. unfold has_prefix.
  by destruct (find_node a q).
Qed.

Lemma has_prefix_of_history_witness :
  built_from ushers_history ushers ∧
  (has_prefix ushers ["s"; "h"] = false ↔
   ["s"; "h"] = [] ∨
   ∃ p v s, (p, v) ∈ ushers_history ∧ p = ["s"; "h"] ++ s).
Proof.
  split; [exact (built_from_inserted ushers_history)|].
  exact (proj2 (has_prefix_of_history ushers_history ushers ["s"; "h"]
                  (built_from_inserted ushers_history))).
Defined.

Lemma add_walk_found p : ∀ d s ns n,
  find_from ns p s = Ptr n → add_walk p d s ns = (n, ns).
Proof.
  induction p as [|elem rest IH]; intros d s ns n; simpl.
  - by intros [= <-].
  - destruct (ptr_outnode ns s elem) as [|out]; [done|]. apply IH.
Qed.

Lemma add_walk_app p1 p2 : ∀ d s ns,
  add_walk (p1 ++ p2) d s ns =
  add_walk p2 (d + Z.of_nat (length p1))%Z
    (add_walk p1 d s ns).1 (add_walk p1 d s ns).2.
Proof.
  induction p1 as [|elem rest IH]; intros d s ns; simpl.
  - by rewrite Z.add_0_r.
  - replace (d + Z.of_nat (S (length rest)))%Z
      with (d + 1 + Z.of_nat (length rest))%Z by lia.
    destruct (ptr_outnode ns s elem) as [|out]; apply IH.
Qed.

Lemma add_walk_length p : ∀ d s ns,
  length ns ≤ length (add_walk p d s ns).2 ≤ length ns + length p.
Proof.
  induction p as [|elem rest IH]; intros d s ns; simpl; [lia|].
  destruct (ptr_outnode ns s elem) as [|out].
  - specialize (IH (d + 1)%Z (length ns)
      (alter (set_outnode elem (length ns)) s ns ++ [new_Node (length ns) d])).
    rewrite length_app, length_alter in IH. simpl in IH. lia.
  - specialize (IH (d + 1)%Z out ns). lia.
Qed.

(** From a node without edges the walk of [add] makes a node for every
    token. *)
Lemma add_walk_fresh p : ∀ d s ns,
  s < length ns → (∀ k, ptr_outnode ns s k = Null) →
  length (add_walk p d s ns).2 = length ns + length p.
Proof.
  induction p as [|elem rest IH]; intros d s ns Hs Hnull; simpl; [lia|].
  rewrite Hnull. change (alter _ s ns ++ _) with (extend ns s elem d).
  rewrite IH; rewrite ?extend_length; [lia..|].
  intros k. unfold ptr_outnode. by rewrite extend_lookup_new.
Qed.

(** X3.  [add] reuses the nodes of the longest prefix that the tree has and
    makes one node for each token after it: if [p1] has a node, inserting
    [p1 ++ p2] makes at most [length p2] nodes and none if [p2] is empty; if
    moreover the next token has no edge, it makes exactly as many nodes as
    there are tokens left.  No node is ever removed. *)
Theorem add_node_count (a : Automaton) (p1 p2 : list string) (v : string)
    (n : nat) :
  find_node a p1 = Ptr n →
  length (nodes a) ≤ length (nodes (add (p1 ++ p2) v a)) ∧
  length (nodes (add (p1 ++ p2) v a)) ≤ length (nodes a) + length p2 ∧
  (∀ tok rest, p2 = tok :: rest → find_node a (p1 ++ [tok]) = Null →
     length (nodes (add (p1 ++ p2) v a)) = length (nodes a) + length p2).
Proof.
  intros Hf. rewrite add_nodes, length_alter, add_walk_app.
  rewrite (add_walk_found p1 _ _ _ _ Hf). simpl.
  pose proof (add_walk_length p2 (0 + Z.of_nat (length p1))%Z n (nodes a)).
  split; [lia|]. split; [lia|].
  intros tok rest -> Hnull. simpl.
  unfold find_node in Hnull, Hf. rewrite find_from_snoc, Hf in Hnull.
  rewrite Hnull. change (alter _ n (nodes a) ++ _)
    with (extend (nodes a) n tok (0 + Z.of_nat (length p1))%Z).
  rewrite add_walk_fresh; rewrite ?extend_length; [lia..|].
  intros k. unfold ptr_outnode. by rewrite extend_lookup_new.
Qed.

Lemma add_node_count_witness :
  find_node ushers ["h"; "e"] = Ptr 2 ∧
  length (nodes ushers) ≤ length (nodes (add (["h"; "e"] ++ ["a"; "t"]) "heat" ushers)) ∧
  length (nodes (add (["h"; "e"] ++ ["a"; "t"]) "heat" ushers))
    ≤ length (nodes ushers) + length ["a"; "t"] ∧
  (∀ tok rest, ["a"; "t"] = tok :: rest →
     find_node ushers (["h"; "e"] ++ [tok]) = Null →
     length (nodes (add (["h"; "e"] ++ ["a"; "t"]) "heat" ushers))
       = length (nodes ushers) + length ["a"; "t"]).
Proof.
  split; [reflexivity|].
  apply (add_node_count ushers ["h"; "e"] ["a"; "t"] "heat" 2).
  reflexivity.
Defined.

(** X4.  The node that [find_node q] finds in an automaton a program can
    hold is a node of [nodes], at the position its [node_id] tells, and its
    [depth] is the length of [q] less one: -1 for the root. *)
Theorem find_node_depth (a : Automaton) (q : list string) (n : nat) :
  reachable a → find_node a q = Ptr n →
  ∃ node, nodes a !! n = Some node ∧ node_id node = n ∧
          depth node = (Z.of_nat (length q) - 1)%Z.
Proof.
  intros Hr Hq. apply reachable_wf in Hr. destruct (wf_nodes _ Hr) as [Hl _].
  destruct (find_from_dep _ q root n Hl (wf_root_lt _ Hl) Hq) as [Hn Hd].
  destruct (lookup_lt_is_Some_2 _ _ Hn) as [node Hnode].
  exists node. split; [done|]. split; [by apply (wf_id _ Hl)|].
  rewrite (dep_lookup _ _ _ Hnode), wf_root_dep in Hd by done. lia.
Qed.

Lemma find_node_depth_witness :
  reachable ushers ∧ find_node ushers ["s"; "h"; "e"] = Ptr 5 ∧
  ∃ node, nodes ushers !! 5 = Some node ∧ node_id node = 5 ∧
          depth node = (Z.of_nat (length ["s"; "h"; "e"]) - 1)%Z.
Proof.
  split; [apply ushers_reachable|]. split; [reflexivity|].
  apply (find_node_depth ushers ["s"; "h"; "e"] 5).
  - apply ushers_reachable.
  - reflexivity.
Defined.

(** X5.  The builder and [get_matches] do not change what the queries
    answer: after either, [find_node], [get_value], [has_pattern] and
    [has_prefix] give for every pattern what they gave before, the alphabet
    and the number of nodes are the same, and every node has the identity,
    depth, value and edges it had; its outputs are the old ones with more
    at the end. *)
Theorem build_keeps_queries (ro : MatchVector → MatchVector) (a : Automaton)
    (fuel : nat) (text : list string) (ex : bool) (a' : Automaton)
    (ms : MatchVector) :
  reachable a →
  update_automaton fuel a = Some a' ∨
  get_matches ro fuel text ex a = Some (a', ms) →
  (∀ q, find_node a' q = find_node a q ∧ get_value a' q = get_value a q ∧
        has_pattern a' q = has_pattern a q ∧ has_prefix a' q = has_prefix a q) ∧
  alphabet a' = alphabet a ∧ length (nodes a') = length (nodes a) ∧
  Forall2 grown (nodes a) (nodes a').
Proof.
  intros Hr H. apply reachable_wf in Hr.
  assert (Forall2 grown (nodes a) (nodes a') ∧ alphabet a' = alphabet a)
    as [Hg Ha].
  { destruct H as [H|H].
    - by destruct (update_automaton_inv _ _ _ Hr H) as (_ & _ & ? & ? & _).
    - unfold get_matches, refresh in H. destruct (uptodate a).
      + simpl in H. destruct (collect fuel text a); simpl in H; [|done].
        injection H as <- _. split; [apply grown_refl|done].
      + destruct (update_automaton fuel a) as [a1|] eqn:E; simpl in H; [|done].
        destruct (collect fuel text a1); simpl in H; [|done].
        injection H as <- _.
        by destruct (update_automaton_inv _ _ _ Hr E) as (_ & _ & ? & ? & _). }
  split; [intros q; by apply grown_queries|].
  split; [done|]. split; [|done]. symmetry. by eapply Forall2_length.
Qed.

Lemma build_keeps_queries_witness :
  reachable ushers ∧
  (update_automaton 16 ushers = Some ushers_built ∨
   get_matches id 16 [] false ushers = Some (ushers_built, [])) ∧
  get_value ushers_built ["h"; "e"] = get_value ushers ["h"; "e"].
Proof.
  split; [apply ushers_reachable|].
  split; [left; apply ushers_built_eq|].
  destruct (build_keeps_queries id ushers 16 [] false ushers_built []
              ushers_reachable (or_introl ushers_built_eq)) as [H _].
  exact (proj1 (proj2 (H ["h"; "e"]))).
Defined.

(** ** Further properties of the failure table and the outputs *)

(** X6.  The failure table of an automaton that is up to date has one entry
    for every node; the root and the children of the root fail to the
    root; and the entry of a node is a node whose path is a suffix of the
    path of the node, shorter than it unless the node is the root. *)
Theorem fail_table_shape (a : Automaton) :
  reachable a → uptodate a = true →
  length (fail_table a) = length (nodes a) ∧
  fail_table a !! root = Some root ∧
  (∀ tok c, find_node a [tok] = Ptr c → fail_table a !! c = Some root) ∧
  (∀ i f qi qf,
     fail_table a !! i = Some f →
     find_node a qi = Ptr i → find_node a qf = Ptr f →
     qf `suffix_of` qi ∧ (i ≠ root → length qf < length qi)).
Proof.
  intros Hr Hup. apply reachable_wf in Hr.
  destruct (wf_nodes _ Hr) as [Hl _]. destruct (wf_fail _ Hr Hup) as [Hlen Hent].
  pose proof (wf_root_lt _ Hl) as H0. pose proof (wf_root_dep _ Hl) as Hd0.
  assert (Hshallow : ∀ i f, fail_table a !! i = Some f →
            (dep (nodes a) i ≤ 0)%Z → f = root).
  { intros i f Hf Hi. destruct (Hent _ _ Hf) as (Hflt & [->|Hd] & _); [done|].
    destruct (dep_bounds _ f Hl Hflt) as [_ Hpos].
    destruct (decide (f = 0)) as [->|?]; [done|]. lia. }
  split; [done|]. split; [|split].
  - destruct (lookup_lt_is_Some_2 (fail_table a) root) as [f Hf]; [unfold root; lia|].
    rewrite Hf. f_equal. apply (Hshallow root f Hf). rewrite Hd0. lia.
  - intros tok c Hc.
    destruct (find_from_dep _ [tok] root c Hl H0 Hc) as [Hclt Hdc].
    destruct (lookup_lt_is_Some_2 (fail_table a) c) as [f Hf]; [lia|].
    rewrite Hf. f_equal. apply (Hshallow c f Hf). rewrite Hdc, Hd0. simpl. lia.
  - intros i f qi qf Hf Hqi Hqf.
    destruct (Hent _ _ Hf) as (Hflt & Hd & Hsuf).
    split; [by apply Hsuf|]. intros Hi.
    destruct (find_from_dep _ qi root i Hl H0 Hqi) as [Hilt Hdi].
    destruct (find_from_dep _ qf root f Hl H0 Hqf) as [_ Hdf].
    destruct (dep_bounds _ i Hl Hilt) as [_ Hpos].
    rewrite Hd0 in Hdi, Hdf. destruct Hd as [->|Hd]; [|lia].
    unfold root in *. rewrite Hd0 in Hdf. lia.
Qed.

Lemma fail_table_shape_witness :
  reachable ushers_built ∧ uptodate ushers_built = true ∧
  length (fail_table ushers_built) = length (nodes ushers_built) ∧
  fail_table ushers_built !! root = Some root ∧
  (∀ tok c, find_node ushers_built [tok] = Ptr c →
            fail_table ushers_built !! c = Some root) ∧
  (∀ i f qi qf,
     fail_table ushers_built !! i = Some f →
     find_node ushers_built qi = Ptr i → find_node ushers_built qf = Ptr f →
     qf `suffix_of` qi ∧ (i ≠ root → length qf < length qi)).
Proof.
  split; [apply ushers_built_reachable|]. split; [reflexivity|].
  apply (fail_table_shape ushers_built).
  - apply ushers_built_reachable.
  - reflexivity.
Defined.

(** X7.  The failure table depends on the insertions only: after any
    insertions and earlier runs of the builder, a run of the builder
    returns, and its failure table is the one a single run returns on the
    automaton made by the same insertions without any run in between. *)
Theorem fail_table_from_insertions (h : list (list string * string))
    (a : Automaton) :
  built_from h a →
  ∃ N ft, ∀ fuel, N ≤ fuel →
    ∃ a1 b1, update_automaton fuel a = Some a1 ∧
             update_automaton fuel (inserted h) = Some b1 ∧
             fail_table a1 = ft ∧ fail_table b1 = ft.
Proof.
  intros Hb. pose proof (built_from_reachable _ _ Hb) as Hr.
  apply reachable_wf in Hr.
  destruct (update_automaton_ok a Hr) as (N & a1 & HN & _).
  exists N, (fail_table a1). intros fuel Hfuel.
  destruct (fail_table_of_history h a fuel a1 Hb (HN fuel Hfuel))
    as (b1 & H1 & Hf & _).
  exists a1, b1. by rewrite HN.
Qed.

Lemma fail_table_from_insertions_witness :
  built_from ushers_history (add ["h"; "e"; "r"; "s"] "hers"
     (default new_Automaton
        (update_automaton 16
           (add ["h"; "i"; "s"] "his"
              (add ["s"; "h"; "e"] "she" (add ["h"; "e"] "he" new_Automaton)))))) ∧
  ∃ N ft, ∀ fuel, N ≤ fuel →
    ∃ a1 b1,
      update_automaton fuel (add ["h"; "e"; "r"; "s"] "hers"
        (default new_Automaton
           (update_automaton 16
              (add ["h"; "i"; "s"] "his"
                 (add ["s"; "h"; "e"] "she" (add ["h"; "e"] "he" new_Automaton))))))
        = Some a1 ∧
      update_automaton fuel (inserted ushers_history) = Some b1 ∧
      fail_table a1 = ft ∧ fail_table b1 = ft.
Proof.
  assert (H : built_from ushers_history (add ["h"; "e"; "r"; "s"] "hers"
     (default new_Automaton
        (update_automaton 16
           (add ["h"; "i"; "s"] "his"
              (add ["s"; "h"; "e"] "she" (add ["h"; "e"] "he" new_Automaton))))))).
  { apply (built_add [(["h"; "e"], "he"); (["s"; "h"; "e"], "she");
                      (["h"; "i"; "s"], "his")]).
    apply (built_build _ (add ["h"; "i"; "s"] "his"
              (add ["s"; "h"; "e"] "she" (add ["h"; "e"] "he" new_Automaton))) 16).
    - exact (built_from_inserted [(["h"; "e"], "he"); (["s"; "h"; "e"], "she");
                                  (["h"; "i"; "s"], "his")]).
    - vm_compute. reflexivity. }
  split; [exact H|]. exact (fail_table_from_insertions _ _ H).
Defined.

(** X8.  The outputs of a node of an automaton a program can hold, at any
    time: the node found by [q] is among its own outputs when [q] is a
    pattern with a value, and every output is the node of a suffix of
    [q]. *)
Theorem outputs_are_suffixes (a : Automaton) (q : list string) (i : nat)
    (n : Node) :
  reachable a → find_node a q = Ptr i → nodes a !! i = Some n →
  (has_pattern a q = true → i ∈ matches n) ∧
  ∀ r, r ∈ matches n → ∃ qr, find_node a qr = Ptr r ∧ qr `suffix_of` q.
Proof.
  intros Hr Hq Hn. apply reachable_wf in Hr. destruct (wf_nodes _ Hr) as [Hl Ho].
  split.
  - unfold has_pattern. rewrite Hq. simpl. rewrite Hn. simpl.
    intros Hv. apply (wf_self _ Ho _ _ Hn). intros Hv'. by rewrite Hv' in Hv.
  - intros r Hin.
    destruct (wf_path _ Hl r (wf_matches _ Ho _ _ _ Hn Hin)) as [qr Hqr].
    exists qr. split; [done|]. by apply (wf_suffix _ Ho _ _ _ Hn Hin).
Qed.

Lemma outputs_are_suffixes_witness :
  reachable ushers_built ∧ find_node ushers_built ["s"; "h"; "e"] = Ptr 5 ∧
  (has_pattern ushers_built ["s"; "h"; "e"] = true →
   5 ∈ matches (default (new_Node 0 0) (nodes ushers_built !! 5))) ∧
  ∀ r, r ∈ matches (default (new_Node 0 0) (nodes ushers_built !! 5)) →
       ∃ qr, find_node ushers_built qr = Ptr r ∧ qr `suffix_of` ["s"; "h"; "e"].
Proof.
  split; [apply ushers_built_reachable|]. split; [reflexivity|].
  apply (outputs_are_suffixes ushers_built ["s"; "h"; "e"] 5).
  - apply ushers_built_reachable.
  - reflexivity.
  - vm_compute. reflexivity.
Defined.

(** ** Further properties of the matcher *)

(** X9.  An empty text gives no match, whatever was inserted: on every
    automaton a program can hold [get_matches] returns, and what it returns
    for the empty text is the empty list, passed through [remove_overlaps]
    when overlaps are excluded. *)
Theorem match_empty_text (ro : MatchVector → MatchVector) (a : Automaton)
    (ex : bool) :
  reachable a →
  (∀ fuel a' ms, get_matches ro fuel [] ex a = Some (a', ms) →
                 ms = if ex then ro [] else []) ∧
  ∃ N a', ∀ fuel, N ≤ fuel →
    get_matches ro fuel [] ex a = Some (a', if ex then ro [] else []).
Proof.
  intros Hr. apply reachable_wf in Hr.
  assert (Hempty : ∀ fuel a' ms, collect fuel [] a' = Some ms → ms = []).
  { intros fuel a' ms. unfold collect.
    destruct (nodes a' !! root); simpl; [|done]. by intros [= <-]. }
  split.
  - intros fuel a' ms H. unfold get_matches in H.
    destruct (refresh fuel a) as [a1|]; simpl in H; [|done].
    destruct (collect fuel [] a1) as [ms1|] eqn:E; simpl in H; [|done].
    injection H as _ <-. by rewrite (Hempty _ _ _ E).
  - destruct (get_matches_ok ro [] ex a Hr) as (N & a' & ms & HN & _).
    exists N, a'. intros fuel Hfuel.
    destruct (HN fuel Hfuel) as (_ & Hc & Hg).
    by rewrite (Hempty _ _ _ Hc) in Hg.
Qed.

Lemma match_empty_text_witness :
  reachable ushers ∧
  ∃ N a', ∀ fuel, N ≤ fuel → get_matches id fuel [] false ushers = Some (a', []).
Proof.
  split; [apply ushers_reachable|].
  exact (proj2 (match_empty_text id ushers false ushers_reachable)).
Defined.

Lemma emit_ends ns idx node new :
  emit ns idx node = Some new → Forall (λ m, m_end m = (idx + 1)%Z) new.
Proof.
  unfold emit. intros E. apply mapM_Some_1 in E.
  apply Forall_forall. intros m Hm.
  apply list_elem_of_lookup in Hm as [j Hj].
  destruct (Forall2_lookup_r _ _ _ _ _ E Hj) as (r & _ & Hf).
  destruct (ns !! r); simpl in Hf; [|done]. by injection Hf as <-.
Qed.

(** What a scan appends: matches that end after the position of the scan
    and within the text, in the order of their ends. *)
Lemma scan_ends fuel ns ft : ∀ text idx id acc r,
  scan fuel ns ft text idx id acc = Some r →
  ∃ ms, r = acc ++ ms ∧
        Forall (λ m, (idx < m_end m ≤ idx + Z.of_nat (length text))%Z) ms ∧
        StronglySorted end_le ms.
Proof.
  induction text as [|elem rest IH]; intros idx id acc r.
  - simpl. intros [= <-]. exists []. rewrite app_nil_r. repeat constructor.
  - cbn [scan]. rewrite length_cons, Nat2Z.inj_succ.
    destruct (follow_fail fuel ns ft elem id) as [id'|]; cbn [mbind option_bind];
      [|done].
    destruct (goto_node ns id' elem) as [[|p]|]; cbn [mbind option_bind];
      [done| |done].
    destruct (ns !! p) as [node|]; cbn [mbind option_bind]; [|done].
    destruct (if String.eqb (value node) "" then Some [] else emit ns idx node)
      as [new|] eqn:Enew; cbn [mbind option_bind]; [|done].
    assert (Hnew : Forall (λ m, m_end m = (idx + 1)%Z) new).
    { destruct (String.eqb (value node) "").
      - injection Enew as <-. constructor.
      - by apply (emit_ends ns idx node). }
    intros H. destruct (IH _ _ _ _ H) as (ms & -> & Hb & Hs).
    exists (new ++ ms). split; [by rewrite app_assoc|]. split.
    + apply Forall_app. split.
      * eapply Forall_impl; [exact Hnew|]. simpl. intros m ->. lia.
      * eapply Forall_impl; [exact Hb|]. simpl. intros m ?. lia.
    + apply StronglySorted_app_2; [| |done].
      * intros x y Hx Hy. unfold end_le.
        rewrite (proj1 (Forall_forall _ _) Hnew x Hx).
        pose proof (proj1 (Forall_forall _ _) Hb y Hy). simpl in *. lia.
      * clear -Hnew. induction Hnew as [|m l Hm Hl IHl]; constructor; [done|].
        eapply Forall_impl; [exact Hl|]. intros y Hy. unfold end_le.
        simpl in Hy, Hm. rewrite Hy, Hm. lia.
Qed.

(** X10.  The matches come in the order of the scan: in the list that
    [get_matches] returns without removing overlaps, a match never ends
    before a match that stands earlier in the list, and every match ends
    after position 0 and no later than the end of the text. *)
Theorem matches_in_scan_order (ro : MatchVector → MatchVector) (a : Automaton)
    (fuel : nat) (text : list string) (a' : Automaton) (ms : MatchVector) :
  get_matches ro fuel text false a = Some (a', ms) →
  StronglySorted end_le ms ∧
  Forall (λ m, (0 < m_end m ≤ Z.of_nat (length text))%Z) ms.
Proof.
  unfold get_matches, collect. intros H.
  destruct (refresh fuel a) as [a1|]; simpl in H; [|done].
  destruct (nodes a1 !! root) as [r|]; simpl in H; [|done].
  destruct (scan fuel _ _ text 0%Z (node_id r) []) as [ms1|] eqn:E;
    simpl in H; [|done].
  injection H as _ <-.
  destruct (scan_ends _ _ _ _ _ _ _ _ E) as (ms & -> & Hb & Hs). done.
Qed.

Lemma matches_in_scan_order_witness :
  get_matches id 16 ["u"; "s"; "h"; "e"; "r"; "s"] false ushers
    = Some (ushers_built,
            [mkMatch 1 4 "she"; mkMatch 2 4 "he"; mkMatch 2 6 "hers"]) ∧
  StronglySorted end_le
    [mkMatch 1 4 "she"; mkMatch 2 4 "he"; mkMatch 2 6 "hers"] ∧
  Forall (λ m, (0 < m_end m ≤ Z.of_nat (length ["u"; "s"; "h"; "e"; "r"; "s"]))%Z)
    [mkMatch 1 4 "she"; mkMatch 2 4 "he"; mkMatch 2 6 "hers"].
Proof.
  assert (H : get_matches id 16 ["u"; "s"; "h"; "e"; "r"; "s"] false ushers
              = Some (ushers_built,
                      [mkMatch 1 4 "she"; mkMatch 2 4 "he"; mkMatch 2 6 "hers"]))
    by (vm_compute; reflexivity).
  split; [exact H|].
  exact (matches_in_scan_order id ushers 16 ["u"; "s"; "h"; "e"; "r"; "s"]
           ushers_built _ H).
Defined.

(** A scan over nodes without values appends nothing. *)
Lemma scan_silent fuel ns ft : ∀ text idx id acc r,
  (∀ i n, ns !! i = Some n → value n = "") →
  scan fuel ns ft text idx id acc = Some r → r = acc.
Proof.
  induction text as [|elem rest IH]; intros idx id acc r Hv; simpl.
  - by intros [= <-].
  - destruct (follow_fail fuel ns ft elem id) as [id'|]; simpl; [|done].
    destruct (goto_node ns id' elem) as [[|p]|]; simpl; [done| |done].
    destruct (ns !! p) as [node|] eqn:Hp; simpl; [|done].
    rewrite (Hv _ _ Hp). simpl. rewrite app_nil_r. by apply IH.
Qed.

(** X11.  Patterns without a value are not reported on their own: when no
    pattern of the automaton has a value, because nothing was inserted or
    every insertion had the empty value, [get_matches] finds no match in
    any text. *)
Theorem no_value_no_match (ro : MatchVector → MatchVector) (a : Automaton)
    (fuel : nat) (text : list string) (ex : bool) (a' : Automaton)
    (ms : MatchVector) :
  reachable a → (∀ q, has_pattern a q = false) →
  get_matches ro fuel text ex a = Some (a', ms) →
  ms = if ex then ro [] else [].
Proof.
  intros Hr Hnone H. apply reachable_wf in Hr. unfold get_matches in H.
  destruct (refresh fuel a) as [a1|] eqn:E1; simpl in H; [|done].
  destruct (collect fuel text a1) as [ms1|] eqn:E2; simpl in H; [|done].
  injection H as _ <-.
  destruct (refresh_inv _ _ _ Hr E1) as (Hwf1 & _ & Hg).
  assert (ms1 = []) as ->; [|done].
  unfold collect in E2. destruct (nodes a1 !! root); simpl in E2; [|done].
  apply (scan_silent _ _ _ _ _ _ _ _) in E2; [done|].
  intros i x Hx. destruct (wf_nodes _ Hwf1) as [Hl1 _].
  destruct (wf_path _ Hl1 i) as [q Hq]; [by apply lookup_lt_Some in Hx|].
  specialize (Hnone q).
  rewrite <- (proj1 (proj2 (proj2 (grown_queries a a1 q Hg)))) in Hnone.
  unfold has_pattern, find_node in Hnone. rewrite Hq in Hnone. simpl in Hnone.
  rewrite Hx in Hnone. simpl in Hnone.
  apply negb_false_iff, String.eqb_eq in Hnone. done.
Qed.

Lemma no_value_no_match_witness :
  reachable (add ["a"; "b"] "" new_Automaton) ∧
  (∀ q, has_pattern (add ["a"; "b"] "" new_Automaton) q = false) ∧
  get_matches id 8 ["a"; "b"] false (add ["a"; "b"] "" new_Automaton)
    = Some (default new_Automaton
              (update_automaton 8 (add ["a"; "b"] "" new_Automaton)), []) ∧
  ([] : MatchVector) = [].
Proof.
  assert (Hr : reachable (add ["a"; "b"] "" new_Automaton))
    by apply reach_add, reach_new.
  assert (Hn : ∀ q, has_pattern (add ["a"; "b"] "" new_Automaton) q = false).
  { intros q.
    destruct (built_from_value [(["a"; "b"], "")]
                (add ["a"; "b"] "" new_Automaton) q) as [_ ->].
    - exact (built_from_inserted [(["a"; "b"], "")]).
    - unfold last_value. simpl. by case_decide. }
  split; [exact Hr|]. split; [exact Hn|].
  assert (H : get_matches id 8 ["a"; "b"] false (add ["a"; "b"] "" new_Automaton)
    = Some (default new_Automaton
              (update_automaton 8 (add ["a"; "b"] "" new_Automaton)), []))
    by (vm_compute; reflexivity).
  split; [exact H|].
  exact (no_value_no_match id _ 8 ["a"; "b"] false _ [] Hr Hn H).
Defined.

Lemma emit_total ns idx node p :
  wf_outputs ns → ns !! p = Some node →
  ∃ new, emit ns idx node = Some new ∧
         ∀ r rn, r ∈ matches node → ns !! r = Some rn →
                 mkMatch (idx - depth rn)%Z (idx + 1)%Z (value rn) ∈ new.
Proof.
  intros Ho Hp. unfold emit.
  destruct (mapM _ (matches node)) as [new|] eqn:E.
  - exists new. split; [done|]. intros r rn Hr Hrn.
    apply mapM_Some_1 in E. apply list_elem_of_lookup in Hr as [j Hj].
    destruct (Forall2_lookup_l _ _ _ _ _ E Hj) as (m & Hm & Hf).
    rewrite Hrn in Hf. simpl in Hf. injection Hf as <-.
    by apply list_elem_of_lookup_2 in Hm.
  - exfalso. apply eq_None_not_Some in E. apply E, mapM_is_Some, Forall_forall.
    intros r Hr. simpl.
    destruct (lookup_lt_is_Some_2 ns r (wf_matches _ Ho _ _ _ Hp Hr)) as [rn ->].
    by eexists.
Qed.

(** A scan that starts in a node [s] and reads the tokens of a path that
    leaves [s] follows the path, and pushes the last node of the path when
    it has a value. *)
Lemma scan_along fuel ns ft :
  wf_trie ns → 0 < fuel →
  ∀ p s t idx acc rest,
    find_from ns p s = Ptr t → p ≠ [] →
    ∃ mid,
      scan fuel ns ft (p ++ rest) idx s acc
        = scan fuel ns ft rest (idx + Z.of_nat (length p))%Z t (acc ++ mid) ∧
      ∀ n, ns !! t = Some n → value n ≠ "" →
           mkMatch (idx + Z.of_nat (length p) - 1 - depth n)%Z
                   (idx + Z.of_nat (length p))%Z (value n) ∈ mid.
Proof.
  intros [Hl Ho] Hfuel. destruct fuel as [|fuel]; [lia|].
  induction p as [|k p IH]; intros s t idx acc rest Hp Hne; [done|].
  simpl in Hp. destruct (ptr_outnode ns s k) as [|o] eqn:Hk; [done|].
  apply ptr_outnode_Ptr in Hk as Hk'. destruct Hk' as (ns_s & Hs & Hin).
  destruct (wf_edge _ Hl _ _ _ _ Hs Hin) as [[_ Ho_lt] _].
  destruct (lookup_lt_is_Some_2 ns o Ho_lt) as [node Hnode].
  assert (Hgoto : goto_node ns s k = Some (Ptr o)).
  { unfold goto_node. rewrite Hs. simpl. unfold ptr_outnode in Hk.
    rewrite Hs in Hk. by rewrite Hk. }
  destruct (emit_total ns idx node o Ho Hnode) as (em & Hem & Hin_em).
  set (new := if String.eqb (value node) "" then [] else em).
  assert (Hstep : ∀ text,
            scan (S fuel) ns ft (k :: text) idx s acc
            = scan (S fuel) ns ft text (idx + 1)%Z o (acc ++ new)).
  { intros text. cbn [scan follow_fail]. rewrite Hgoto. simpl. rewrite Hgoto.
    simpl. rewrite Hnode. simpl. rewrite (wf_id _ Hl _ _ Hnode).
    unfold new. destruct (String.eqb (value node) ""); [done|].
    rewrite Hem. done. }
  rewrite length_cons, Nat2Z.inj_succ. destruct p as [|k' p'].
  - simpl in Hp. injection Hp as <-. exists new. split.
    + simpl app. rewrite Hstep.
      by replace (idx + Z.succ (Z.of_nat (length (@nil string))))%Z
        with (idx + 1)%Z by (simpl; lia).
    + intros n Hn Hv. assert (n = node) as -> by congruence. unfold new.
      destruct (String.eqb (value node) "") eqn:E;
        [by apply String.eqb_eq in E|].
      replace (idx + Z.succ (Z.of_nat (length (@nil string))) - 1
               - depth node)%Z with (idx - depth node)%Z by (simpl; lia).
      replace (idx + Z.succ (Z.of_nat (length (@nil string))))%Z
        with (idx + 1)%Z by (simpl; lia).
      apply (Hin_em o node); [|done]. apply (wf_self _ Ho _ _ Hnode). done.
  - destruct (IH o t (idx + 1)%Z (acc ++ new) rest Hp ltac:(done))
      as (mid & Hmid & Hin_mid).
    exists (new ++ mid). split.
    + change ((k :: k' :: p') ++ rest) with (k :: (k' :: p') ++ rest).
      rewrite Hstep, Hmid, app_assoc.
      by replace (idx + 1 + Z.of_nat (length (k' :: p')))%Z
        with (idx + Z.succ (Z.of_nat (length (k' :: p'))))%Z by lia.
    + intros n Hn Hv. apply elem_of_app. right.
      replace (idx + Z.succ (Z.of_nat (length (k' :: p'))) - 1 - depth n)%Z
        with (idx + 1 + Z.of_nat (length (k' :: p')) - 1 - depth n)%Z by lia.
      replace (idx + Z.succ (Z.of_nat (length (k' :: p'))))%Z
        with (idx + 1 + Z.of_nat (length (k' :: p')))%Z by lia.
      by apply Hin_mid.
Qed.

(** X12.  A pattern at the start of the text is found: if [p] is not empty
    and has a value, the matches of a text that starts with [p] hold the
    match of [p] from 0 to the length of [p]. *)
Theorem match_at_start (ro : MatchVector → MatchVector) (a : Automaton)
    (fuel : nat) (p rest : list string) (a' : Automaton) (ms : MatchVector) :
  reachable a → p ≠ [] → has_pattern a p = true →
  get_matches ro fuel (p ++ rest) false a = Some (a', ms) →
  mkMatch 0 (Z.of_nat (length p)) (get_value a p) ∈ ms.
Proof.
  intros Hr Hne Hhas H. apply reachable_wf in Hr. unfold get_matches in H.
  destruct (refresh fuel a) as [a1|] eqn:E1; simpl in H; [|done].
  destruct (collect fuel (p ++ rest) a1) as [ms1|] eqn:E2; simpl in H; [|done].
  injection H as _ <-.
  destruct (refresh_inv _ _ _ Hr E1) as (Hwf1 & _ & Hg).
  destruct (grown_queries a a1 p Hg) as (Hf & Hv & Hh & _).
  rewrite <- Hv. rewrite <- Hh in Hhas. clear Hv Hh Hf.
  destruct (wf_nodes _ Hwf1) as [Hl Ho].
  destruct (wf_root _ Hl) as (r & Hroot & _).
  unfold collect, root in E2. rewrite Hroot in E2. simpl in E2.
  rewrite (wf_id _ Hl _ _ Hroot) in E2.
  assert (0 < fuel) as Hfuel.
  { destruct fuel; [|lia]. destruct p as [|k p]; [done|]. done. }
  unfold has_pattern, get_value in *.
  destruct (find_node a1 p) as [|t] eqn:Ht; [done|]. simpl in *.
  destruct (nodes a1 !! t) as [n|] eqn:Hn; [|done]. simpl in *.
  destruct (scan_along fuel _ (fail_table a1) (conj Hl Ho) Hfuel
              p 0 t 0%Z [] rest Ht Hne) as (mid & Hmid & Hin).
  rewrite Hmid in E2.
  destruct (scan_ends _ _ _ _ _ _ _ _ E2) as (ms' & -> & _).
  apply elem_of_app. left. simpl.
  destruct (find_from_dep _ p root t Hl (wf_root_lt _ Hl) Ht) as [_ Hd].
  rewrite (dep_lookup _ _ _ Hn), wf_root_dep in Hd by done.
  specialize (Hin n Hn).
  replace (0 + Z.of_nat (length p) - 1 - depth n)%Z with 0%Z in Hin by lia.
  rewrite Z.add_0_l in Hin. apply Hin.
  intros Hv. rewrite Hv in Hhas. done.
Qed.

Lemma match_at_start_witness :
  reachable ushers ∧ ["h"; "e"; "r"; "s"] ≠ [] ∧
  has_pattern ushers ["h"; "e"; "r"; "s"] = true ∧
  get_matches id 16 (["h"; "e"; "r"; "s"] ++ ["h"; "e"]) false ushers
    = Some (ushers_built,
            [mkMatch 0 2 "he"; mkMatch 0 4 "hers"; mkMatch 3 6 "she";
             mkMatch 4 6 "he"]) ∧
  mkMatch 0 (Z.of_nat (length ["h"; "e"; "r"; "s"]))
          (get_value ushers ["h"; "e"; "r"; "s"])
    ∈ [mkMatch 0 2 "he"; mkMatch 0 4 "hers"; mkMatch 3 6 "she";
             mkMatch 4 6 "he"].
Proof.
  assert (H : get_matches id 16 (["h"; "e"; "r"; "s"] ++ ["h"; "e"]) false ushers
    = Some (ushers_built,
            [mkMatch 0 2 "he"; mkMatch 0 4 "hers"; mkMatch 3 6 "she";
             mkMatch 4 6 "he"]))
    by (vm_compute; reflexivity).
  split; [apply ushers_reachable|]. split; [discriminate|].
  split; [reflexivity|]. split; [exact H|].
  apply (match_at_start id ushers 16 ["h"; "e"; "r"; "s"] ["h"; "e"]
           ushers_built _ ushers_reachable).
  - discriminate.
  - reflexivity.
  - exact H.
Defined.

(** ** The alphabet *)

Lemma add_alphabet p v a : alphabet (add p v a) = list_to_set p ∪ alphabet a.
Proof. unfold add. by destruct (add_walk p 0%Z root (nodes a)). Qed.

Lemma tokens_of_snoc h p v : tokens_of (h ++ [(p, v)]) = list_to_set p ∪ tokens_of h.
Proof.
  unfold tokens_of. rewrite fmap_app, concat_app. simpl. rewrite app_nil_r.
  rewrite list_to_set_app_L. apply (comm_L (∪)).
Qed.

(** X13.  The alphabet is the set of the tokens of the patterns inserted:
    after any insertions and runs of the builder, a token is in [alphabet]
    exactly when it occurs in a pattern that was inserted. *)
Theorem alphabet_of_history (h : list (list string * string)) (a : Automaton) :
  built_from h a →
  alphabet a = tokens_of h ∧
  ∀ tok, tok ∈ alphabet a ↔ ∃ p v, (p, v) ∈ h ∧ tok ∈ p.
Proof.
  intros Hb. assert (Ha : alphabet a = tokens_of h).
  { induction Hb as [|h a p v Hb IH|h a fuel a' Hb IH Hu].
    - done.
    - by rewrite add_alphabet, tokens_of_snoc, IH.
    - apply built_from_reachable, reachable_wf in Hb.
      destruct (update_automaton_inv _ _ _ Hb Hu) as (_ & _ & _ & -> & _). done. }
  split; [done|]. intros tok. rewrite Ha. unfold tokens_of.
  rewrite elem_of_list_to_set, list_elem_of_In, in_concat. split.
  - intros (p & Hp & Htok). apply list_elem_of_In in Hp, Htok.
    apply list_elem_of_fmap in Hp as ([p' v] & -> & Hin). by exists p', v.
  - intros (p & v & Hin & Htok). exists p. rewrite <- !list_elem_of_In.
    split; [|done]. apply list_elem_of_fmap. by exists (p, v).
Qed.

Lemma alphabet_of_history_witness :
  built_from ushers_history ushers ∧
  alphabet ushers = tokens_of ushers_history ∧
  ∀ tok, tok ∈ alphabet ushers ↔ ∃ p v, (p, v) ∈ ushers_history ∧ tok ∈ p.
Proof.
  split; [exact (built_from_inserted ushers_history)|].
  exact (alphabet_of_history ushers_history ushers
           (built_from_inserted ushers_history)).
Defined.

(** The token of every edge is in the alphabet. *)
Lemma labels_in_alphabet a i k j :
  reachable a → ptr_outnode (nodes a) i k = Ptr j → k ∈ alphabet a.
Proof.
  intros Hr. revert i k j.
  induction Hr as [|a p v Hr IH|a fuel a' Hr IH Hu]; intros i k j Hk.
  - unfold ptr_outnode in Hk. simpl in Hk.
    destruct ([new_Node 0 (-1)] !! i) as [n|] eqn:E; [|done].
    apply list_lookup_singleton_Some in E as [_ <-]. done.
  - apply reachable_wf in Hr. rewrite add_alphabet.
    rewrite (ptr_outnode_links _ _ i k (add_same_links p v a)) in Hk.
    pose proof (add_walk_root p _ (wf_nodes _ Hr)) as Hw.
    destruct (ws_wf _ _ _ _ _ Hw) as [Hl' _].
    destruct (decide (j < length (nodes a))) as [Hlt|Hge].
    + apply elem_of_union. right. apply (IH i k j).
      by apply (ws_old_edge _ _ _ _ _ Hw).
    + apply elem_of_union. left. apply elem_of_list_to_set.
      apply ptr_outnode_Ptr in Hk as (n & Hn & Hin).
      destruct (wf_edge _ Hl' _ _ _ _ Hn Hin) as [[_ Hj] _].
      destruct (ws_new _ _ _ _ _ Hw j) as (p1 & p2 & -> & Hp1); [lia|].
      destruct p1 as [|k' p1 _] using rev_ind.
      * simpl in Hp1. injection Hp1 as <-.
        pose proof (wf_root_lt _ (proj1 (wf_nodes _ Hr))). unfold root in *. lia.
      * rewrite find_from_snoc in Hp1.
        destruct (find_from _ p1 root) as [|i']; [done|].
        apply ptr_outnode_Ptr in Hp1 as (n' & Hn' & Hin').
        destruct (wf_parent _ Hl' _ _ _ _ _ _ _ Hn Hn' Hin Hin') as [_ ->].
        rewrite !elem_of_app. left. right. by apply list_elem_of_singleton.
  - apply reachable_wf in Hr.
    destruct (update_automaton_inv _ _ _ Hr Hu) as (_ & _ & Hg & -> & _).
    rewrite (ptr_outnode_links _ _ i k (grown_links _ _ Hg)) in Hk. eauto.
Qed.

(** A scan from the root over tokens without an edge at the root stays at
    the root, and appends nothing when the root has no value. *)
Lemma scan_at_root fuel ns ft r : ∀ text idx acc res,
  ns !! root = Some r → node_id r = root → value r = "" →
  (∀ tok, tok ∈ text → ptr_outnode ns root tok = Null) →
  scan fuel ns ft text idx root acc = Some res → res = acc.
Proof.
  induction text as [|tok rest IH]; intros idx acc res Hr Hid Hv Hnull.
  - simpl. by intros [= <-].
  - assert (Hg : goto_node ns root tok = Some (Ptr root)).
    { specialize (Hnull tok ltac:(left)). unfold ptr_outnode in Hnull.
      rewrite Hr in Hnull. unfold goto_node. rewrite Hr. simpl. by rewrite Hnull. }
    destruct fuel as [|fuel]; [done|]. cbn [scan follow_fail].
    rewrite Hg. simpl. rewrite Hg. simpl. rewrite Hr. simpl.
    rewrite Hv, Hid. simpl. rewrite app_nil_r. apply IH; try done.
    intros tok' Hin. apply Hnull. by right.
Qed.

(** X14.  A text without a token of the alphabet matches nothing: if no
    token of the text is in [alphabet] and the empty pattern has no value,
    [get_matches] finds no match. *)
Theorem foreign_text_no_match (ro : MatchVector → MatchVector) (a : Automaton)
    (fuel : nat) (text : list string) (ex : bool) (a' : Automaton)
    (ms : MatchVector) :
  reachable a → get_value a [] = "" →
  (∀ tok, tok ∈ text → tok ∉ alphabet a) →
  get_matches ro fuel text ex a = Some (a', ms) →
  ms = if ex then ro [] else [].
Proof.
  intros Hr Hv Hfor H.
  pose proof (get_matches_reachable _ _ _ _ _ _ _ Hr H) as Hr'.
  apply reachable_wf in Hr. unfold get_matches in H.
  destruct (refresh fuel a) as [a1|] eqn:E1; simpl in H; [|done].
  destruct (collect fuel text a1) as [ms1|] eqn:E2; simpl in H; [|done].
  injection H as <- <-.
  destruct (refresh_inv _ _ _ Hr E1) as (Hwf1 & _ & Hg).
  assert (Ha : alphabet a1 = alphabet a).
  { unfold refresh in E1. destruct (uptodate a); [by injection E1 as <-|].
    by destruct (update_automaton_inv _ _ _ Hr E1) as (_ & _ & _ & ? & _). }
  assert (ms1 = []) as ->; [|done].
  destruct (wf_nodes _ Hwf1) as [Hl _]. destruct (wf_root _ Hl) as (r & Hroot & _).
  unfold collect, root in E2. rewrite Hroot in E2. simpl in E2.
  rewrite (wf_id _ Hl _ _ Hroot) in E2.
  apply (scan_at_root _ _ _ r) in E2; try done.
  - by apply (wf_id _ Hl).
  - rewrite <- (proj1 (proj2 (grown_queries a a1 [] Hg))) in Hv.
    unfold get_value, find_node in Hv. simpl in Hv. unfold root in Hv.
    by rewrite Hroot in Hv.
  - intros tok Hin. destruct (ptr_outnode (nodes a1) root tok) as [|j] eqn:E;
      [done|].
    exfalso. apply (Hfor tok Hin). rewrite <- Ha.
    by apply (labels_in_alphabet a1 root tok j).
Qed.

Lemma foreign_text_no_match_witness :
  reachable ushers ∧ get_value ushers [] = "" ∧
  (∀ tok, tok ∈ ["x"; "y"] → tok ∉ alphabet ushers) ∧
  get_matches id 16 ["x"; "y"] false ushers = Some (ushers_built, []) ∧
  ([] : MatchVector) = [].
Proof.
  assert (Hf : ∀ tok, tok ∈ ["x"; "y"] → tok ∉ alphabet ushers).
  { intros tok Hin Ha.
    assert (tok = "x" ∨ tok = "y") as Htok.
    { apply elem_of_cons in Hin as [->|Hin]; [by left|].
      apply list_elem_of_singleton in Hin as ->. by right. }
    destruct Htok as [-> | ->]; vm_compute in Ha; done. }
  assert (H : get_matches id 16 ["x"; "y"] false ushers = Some (ushers_built, []))
    by (vm_compute; reflexivity).
  split; [apply ushers_reachable|]. split; [reflexivity|].
  split; [exact Hf|]. split; [exact H|].
  exact (foreign_text_no_match id ushers 16 ["x"; "y"] false ushers_built []
           ushers_reachable eq_refl Hf H).
Defined.

(** ** The longest suffix in the tree *)

Lemma suffix_shorter {A} (l1 l2 l3 : list A) :
  l1 `suffix_of` l3 → l2 `suffix_of` l3 → length l1 ≤ length l2 →
  l1 `suffix_of` l2.
Proof.
  intros H1 H2 Hlen. destruct (suffix_weak_total _ _ _ H1 H2) as [?|H]; [done|].
  by rewrite (suffix_length_eq _ _ H Hlen).
Qed.

Lemma path_len ns q m :
  wf_links ns → find_from ns q root = Ptr m →
  m < length ns ∧ dep ns m = (Z.of_nat (length q) - 1)%Z.
Proof.
  intros Hwf Hq.
  destruct (find_from_dep ns q root m Hwf (wf_root_lt _ Hwf) Hq) as [Hm Hd].
  split; [done|]. rewrite Hd, (wf_root_dep _ Hwf). lia.
Qed.

Lemma path_root ns q : wf_links ns → find_from ns q root = Ptr root → q = [].
Proof. intros Hwf Hq. by apply (find_from_inj ns q [] root). Qed.

Lemma longest_in_links ns ns' f w :
  Forall2 same_links ns ns' → longest_in ns f w → longest_in ns' f w.
Proof.
  intros Hsl (qf & Hf & Hsuf & Hmax). exists qf.
  rewrite (find_from_links _ _ _ _ Hsl). split; [done|]. split; [done|].
  intros q j. rewrite (find_from_links _ _ _ _ Hsl). apply Hmax.
Qed.

Lemma longest_suffix_links ns ns' f i :
  Forall2 same_links ns ns' → longest_suffix ns f i → longest_suffix ns' f i.
Proof.
  intros Hsl (tok & rest & Hi & Hl). exists tok, rest.
  rewrite (find_from_links _ _ _ _ Hsl). split; [done|].
  by apply (longest_in_links ns).
Qed.

Lemma longest_in_bounds ns elem w s :
  longest_in ns s w → bounds_edge ns elem w s.
Proof.
  intros (qs & Hs & Hsuf & Hmax). exists qs. split; [done|]. split; [done|].
  intros q j Hq Hj. rewrite find_from_snoc in Hj.
  destruct (find_from ns q root) as [|i] eqn:E; [done|]. by apply (Hmax q i).
Qed.

Lemma follow_fail_longest ns ft elem w D :
  wf_links ns →
  (∀ m f', 0 < m → (dep ns m ≤ D)%Z → ft !! m = Some f' →
           longest_suffix ns f' m) →
  ∀ fuel s f, (dep ns s ≤ D)%Z → bounds_edge ns elem w s →
    follow_fail fuel ns ft elem s = Some f →
    bounds_edge ns elem w f ∧ ∃ p, goto_node ns f elem = Some (Ptr p).
Proof.
  intros Hwf Hft. induction fuel as [|fuel IH]; intros s f Hd Hb H; [done|].
  simpl in H. destruct (goto_node ns s elem) as [[|p]|] eqn:Hg; simpl in H; [|..|done].
  - destruct (ft !! s) as [f'|] eqn:Hf'; simpl in H; [|done].
    pose proof (goto_node_Null _ _ _ Hg) as Hs0.
    destruct (Hft s f' ltac:(lia) Hd Hf') as (tok & rest & Hs & qf' & Hqf' & Hsuf' & Hmax').
    destruct (path_len _ _ _ Hwf Hs) as [_ Hds].
    destruct (path_len _ _ _ Hwf Hqf') as [_ Hdf'].
    apply suffix_length in Hsuf' as Hlen'. simpl in Hds.
    apply (IH f' f); [lia| |done].
    destruct Hb as (qs & Hqs & Hsufs & Hmaxs).
    assert (qs = tok :: rest) as -> by (by apply (find_from_inj ns _ _ s)).
    exists qf'. split; [done|]. split.
    { etrans; [exact Hsuf'|]. etrans; [|exact Hsufs]. by apply suffix_cons_r. }
    intros q j Hq Hj. pose proof (Hmaxs q j Hq Hj) as Hle.
    pose proof (suffix_shorter _ _ _ Hq Hsufs Hle) as Hqs'.
    destruct q as [|x q]; [simpl; lia|].
    apply suffix_cons_inv in Hqs' as [Heq|Hqr].
    + exfalso. rewrite Heq, find_from_snoc, Hs in Hj.
      unfold goto_node in Hg. unfold ptr_outnode in Hj.
      destruct (ns !! s) as [n|]; simpl in Hg; [|done].
      rewrite Hj in Hg. done.
    + rewrite find_from_snoc in Hj.
      destruct (find_from ns (x :: q) root) as [|i] eqn:E; [done|].
      by apply (Hmax' _ i).
  - injection H as <-. split; [done|]. by exists p.
Qed.

Lemma goto_longest ns elem w f g :
  wf_links ns → bounds_edge ns elem w f →
  goto_node ns f elem = Some (Ptr g) → longest_in ns g (w ++ [elem]).
Proof.
  intros Hwf (qf & Hqf & Hsuf & Hmax) Hg. unfold goto_node in Hg.
  destruct (ns !! f) as [n|] eqn:Hn; simpl in Hg; [|done].
  assert (Hsnoc : ∀ q j, find_from ns q root = Ptr j → q `suffix_of` w ++ [elem] →
            q = [] ∨ ∃ q' j', q = q' ++ [elem] ∧ q' `suffix_of` w ∧
                              find_from ns (q' ++ [elem]) root = Ptr j' ∧
                              length q' ≤ length qf).
  { intros q j Hq Hs. destruct q as [|x q _] using rev_ind; [by left|]. right.
    apply suffix_snoc_inv_1 in Hs as Hx. subst x.
    apply suffix_snoc_inv_2 in Hs. exists q, j. eauto. }
  destruct (get_outnode n elem) as [|o] eqn:Ho.
  - destruct (Nat.eqb f 0) eqn:E; [|done]. apply Nat.eqb_eq in E. subst f.
    injection Hg as <-. exists []. split; [done|]. split; [apply suffix_nil|].
    intros q j Hq Hs. destruct (Hsnoc q j Hq Hs) as [->|(q' & j' & -> & Hs' & Hj' & Hle)];
      [done|]. exfalso.
    rewrite (path_root ns qf Hwf Hqf) in Hle. simpl in Hle.
    destruct q'; [|simpl in Hle; lia]. simpl in Hj'.
    unfold ptr_outnode, root in Hj'. rewrite Hn, Ho in Hj'. done.
  - injection Hg as <-. exists (qf ++ [elem]). split.
    { rewrite find_from_snoc, Hqf. unfold ptr_outnode. by rewrite Hn. }
    split; [by apply suffix_snoc|].
    intros q j Hq Hs. destruct (Hsnoc q j Hq Hs) as [->|(q' & j' & -> & Hs' & Hj' & Hle)].
    + simpl. lia.
    + rewrite !length_app. simpl. lia.
Qed.

(** ** The builder takes the nodes level by level *)

Lemma build_edge_inv fuel id b k j b' :
  wf_links (b_nodes b) → build_edge fuel id b (k, j) = Some b' →
  ∃ st f g dn tn,
    b_fail b !! id = Some st ∧
    follow_fail fuel (b_nodes b) (b_fail b) k st = Some f ∧
    goto_node (b_nodes b) f k = Some (Ptr g) ∧
    b_nodes b !! j = Some dn ∧ b_nodes b !! g = Some tn ∧
    j < length (b_fail b) ∧
    b' = mkBuild (alter (append_matches (matches tn)) j (b_nodes b))
                 (<[j := g]> (b_fail b)) (b_queue b ++ [j]).
Proof.
  intros Hwf H. unfold build_edge in H.
  destruct (b_nodes b !! j) as [dn|] eqn:Hdn; simpl in H; [|done].
  rewrite (wf_id _ Hwf _ _ Hdn) in H.
  destruct (b_fail b !! id) as [st|] eqn:Hst; simpl in H; [|done].
  destruct (follow_fail fuel (b_nodes b) (b_fail b) k st) as [f|] eqn:Hf;
    simpl in H; [|done].
  destruct (goto_node (b_nodes b) f k) as [[|g]|] eqn:Hg; simpl in H; [done| |done].
  destruct (b_nodes b !! g) as [tn|] eqn:Htn; simpl in H; [|done].
  rewrite (wf_id _ Hwf _ _ Htn) in H.
  destruct (bool_decide (j < length (b_fail b))) eqn:Hlt; [|done].
  apply bool_decide_eq_true in Hlt.
  rewrite list_lookup_insert_eq in H by done. simpl in H. rewrite Htn in H.
  simpl in H. injection H as <-. by exists st, f, g, dn, tn.
Qed.

Lemma build_edge_keeps ns0 fuel id b k j b' :
  wf_links ns0 → build_inv ns0 b → 0 < id → ptr_outnode ns0 id k = Ptr j →
  build_edge fuel id b (k, j) = Some b' → build_inv ns0 b'.
Proof.
  intros Hwf Hb Hid Hk H.
  destruct (build_edge_ok ns0 (fuel `max` S (length ns0)) id b k j)
    as (b'' & H'' & Hb'' & _); try done; [lia|].
  rewrite (build_edge_mono _ (fuel `max` S (length ns0)) _ _ _ _ H) in H'' by lia.
  by simplify_eq.
Qed.

Lemma grown_lookup ns0 ns i n0 :
  Forall2 grown ns0 ns → ns0 !! i = Some n0 →
  ∃ n, ns !! i = Some n ∧ outs n = outs n0 ∧ value n = value n0.
Proof.
  intros Hg Hn0. destruct (Forall2_lookup_l _ _ _ _ _ Hg Hn0)
    as (n & Hn & (_ & _ & Ho) & Hv & _).
  exists n. by rewrite Ho, Hv.
Qed.

Lemma bfs_covered ns0 done pend d Qa Qb b :
  wf_links ns0 → bfs_inv ns0 done pend d Qa Qb b →
  ∀ q m, find_from ns0 q root = Ptr m → q ≠ [] → (dep ns0 m ≤ d)%Z →
         m ∈ done ++ Qa ++ Qb.
Proof.
  intros Hwf Hb. induction q as [|k q IH] using rev_ind; intros m Hm Hne Hd; [done|].
  rewrite find_from_snoc in Hm.
  destruct (find_from ns0 q root) as [|p] eqn:Hp; [done|].
  destruct (decide (q = [])) as [->|Hq].
  - simpl in Hp. injection Hp as <-. by apply (bfs_root _ _ _ _ _ _ _ Hb k).
  - assert (find_from ns0 (q ++ [k]) root = Ptr m) as Hm'
      by (by rewrite find_from_snoc, Hp).
    destruct (path_len _ _ _ Hwf Hm') as [_ Hdm].
    destruct (path_len _ _ _ Hwf Hp) as [_ Hdp].
    rewrite length_app in Hdm. simpl in Hdm.
    specialize (IH p eq_refl Hq ltac:(lia)).
    apply elem_of_app in IH as [IH|IH].
    + pose proof (bfs_closed _ _ _ _ _ _ _ Hb p k m IH Hm) as Hin.
      rewrite !elem_of_app in Hin. rewrite !elem_of_app.
      destruct Hin as [?|[?|[?|Hin]]]; auto.
      pose proof (bfs_pend _ _ _ _ _ _ _ Hb) as Hpend.
      rewrite Forall_forall in Hpend. specialize (Hpend _ Hin). lia.
    + pose proof (bfs_Qa _ _ _ _ _ _ _ Hb) as HQa.
      pose proof (bfs_Qb _ _ _ _ _ _ _ Hb) as HQb.
      rewrite Forall_forall in HQa, HQb.
      apply elem_of_app in IH as [IH|IH];
        [specialize (HQa _ IH)|specialize (HQb _ IH)]; lia.
Qed.

Lemma bfs_edge ns0 fuel id k j done pend d Qa Qb b b' :
  wf_links ns0 → build_inv ns0 b → bfs_inv ns0 done (j :: pend) d Qa Qb b →
  id ∈ done → dep ns0 id = d → ptr_outnode ns0 id k = Ptr j →
  build_edge fuel id b (k, j) = Some b' →
  bfs_inv ns0 done pend d Qa (Qb ++ [j]) b'.
Proof.
  intros Hwf0 Hbi Hb Hid Hd Hk H.
  pose proof (bi_grown _ _ Hbi) as Hg.
  pose proof (grown_links _ _ Hg) as Hsl.
  pose proof (wf_links_same _ _ Hsl Hwf0) as Hwf.
  destruct (bi_fail _ _ Hbi) as [Hflen _].
  pose proof (Forall2_length _ _ _ Hg) as Hlen.
  destruct (build_edge_inv _ _ _ _ _ _ Hwf H)
    as (st & f & g & dn & tn & Hst & Hf & Hgo & Hdn & Htn & Hjlt & ->).
  rewrite (follow_fail_links _ _ _ _ _ _ Hsl) in Hf.
  rewrite (goto_node_links _ _ _ _ Hsl) in Hgo.
  assert (Hidin : id ∈ done ++ Qa ++ Qb) by (apply elem_of_app; by left).
  destruct (bfs_fail _ _ _ _ _ _ _ Hb id st Hidin Hst)
    as (tok & rest & Hpid & Hl).
  destruct (path_len _ _ _ Hwf0 Hpid) as [_ Hdid]. simpl in Hdid.
  assert (Hrest : d = Z.of_nat (length rest)) by lia.
  destruct (follow_fail_longest ns0 (b_fail b) k rest (d - 1)%Z Hwf0)
    with (fuel := fuel) (s := st) (f := f) as [Hbf _]; try done.
  { intros m f' Hm Hdm Hf'. apply lookup_lt_Some in Hf' as Hmlt.
    destruct (wf_path _ Hwf0 m) as [q Hq]; [lia|].
    apply (bfs_fail _ _ _ _ _ _ _ Hb); [|done].
    apply (bfs_covered _ _ _ _ _ _ _ Hwf0 Hb q); [done| |lia].
    intros ->. simpl in Hq. injection Hq as <-. unfold root in Hm. lia. }
  { destruct Hl as (qst & Hqst & Hsufst & _).
    destruct (path_len _ _ _ Hwf0 Hqst) as [_ Hdst].
    apply suffix_length in Hsufst. lia. }
  { by apply longest_in_bounds. }
  pose proof (goto_longest _ _ _ _ _ Hwf0 Hbf Hgo) as Hlg.
  assert (Hpj : find_from ns0 (tok :: rest ++ [k]) root = Ptr j).
  { change (tok :: rest ++ [k]) with ((tok :: rest) ++ [k]).
    by rewrite find_from_snoc, Hpid. }
  pose proof (bfs_pend _ _ _ _ _ _ _ Hb) as Hpend.
  apply Forall_cons in Hpend as [Hdj Hpend].
  split; simpl.
  - rewrite (bfs_queue _ _ _ _ _ _ _ Hb). by rewrite !app_assoc.
  - apply (bfs_Qa _ _ _ _ _ _ _ Hb).
  - apply Forall_app. split; [apply (bfs_Qb _ _ _ _ _ _ _ Hb)|].
    by apply Forall_singleton.
  - done.
  - intros k' j' Hj'. pose proof (bfs_root _ _ _ _ _ _ _ Hb k' j' Hj') as Hin.
    rewrite !elem_of_app in Hin. rewrite !elem_of_app. tauto.
  - intros i k' j' Hi Hj'.
    pose proof (bfs_closed _ _ _ _ _ _ _ Hb i k' j' Hi Hj') as Hin.
    rewrite !elem_of_app, elem_of_cons in Hin.
    rewrite !elem_of_app, list_elem_of_singleton. tauto.
  - intros i f0 Hi Hf0. destruct (decide (i = j)) as [->|Hne].
    + rewrite list_lookup_insert_eq in Hf0 by done. injection Hf0 as <-.
      by exists tok, (rest ++ [k]).
    + rewrite list_lookup_insert_ne in Hf0 by done.
      apply (bfs_fail _ _ _ _ _ _ _ Hb); [|done].
      rewrite !elem_of_app, list_elem_of_singleton in Hi.
      rewrite !elem_of_app. tauto.
  - intros i Hi. destruct (decide (i = j)) as [->|Hne].
    + intros n qi r qr nr Hn Hqi Hqr Hqne Hsuf Hnr Hv.
      rewrite list_lookup_alter_eq, Hdn in Hn. simpl in Hn. injection Hn as <-.
      simpl. apply elem_of_app.
      assert (qi = tok :: rest ++ [k]) as -> by (by apply (find_from_inj ns0 _ _ j)).
      destruct qr as [|x qr]; [done|].
      apply suffix_cons_inv in Hsuf as [Heq|Hsuf].
      * left. rewrite Heq, Hpj in Hqr. injection Hqr as <-.
        destruct (grown_lookup _ _ _ _ Hg Hnr) as (dn' & Hdn' & _ & Hval).
        rewrite Hdn in Hdn'. injection Hdn' as <-.
        apply (wf_self _ (bi_outputs _ _ Hbi) _ _ Hdn). by rewrite Hval.
      * right. destruct Hlg as (qg & Hqg & Hsufg & Hmaxg).
        pose proof (Hmaxg _ _ Hqr Hsuf) as Hle.
        pose proof (suffix_shorter _ _ _ Hsuf Hsufg Hle) as Hsrg.
        destruct (path_len _ _ _ Hwf0 Hqg) as [_ Hdg].
        apply suffix_length in Hsufg. rewrite length_app in Hsufg. simpl in Hsufg.
        assert (Hgin : g ∈ done ++ Qa ++ Qb).
        { apply (bfs_covered _ _ _ _ _ _ _ Hwf0 Hb qg); [done| |lia].
          intros ->. by apply suffix_cons_nil_inv in Hsrg. }
        by apply (bfs_outputs _ _ _ _ _ _ _ Hb g Hgin tn qg r (x :: qr) nr).
    + intros n qi r qr nr Hn. rewrite list_lookup_alter_ne in Hn by done.
      apply (bfs_outputs _ _ _ _ _ _ _ Hb i); [|done].
      rewrite !elem_of_app, list_elem_of_singleton in Hi.
      rewrite !elem_of_app. tauto.
Qed.

Lemma bfs_edges ns0 fuel id done d Qa : ∀ edges Qb b b',
  wf_links ns0 → 0 < id → id ∈ done → dep ns0 id = d →
  Forall (λ e : string * nat, ptr_outnode ns0 id e.1 = Ptr e.2) edges →
  build_inv ns0 b → bfs_inv ns0 done edges.*2 d Qa Qb b →
  build_edges fuel id edges b = Some b' →
  build_inv ns0 b' ∧ ∃ Qb', bfs_inv ns0 done [] d Qa Qb' b'.
Proof.
  induction edges as [|[k j] edges IH]; intros Qb b b' Hwf Hid Hin Hd Hedges Hbi Hb H.
  - simpl in H. injection H as <-. split; [done|]. by exists Qb.
  - apply Forall_cons in Hedges as [Hk Hedges]. simpl in Hk.
    cbn [build_edges] in H.
    destruct (build_edge fuel id b (k, j)) as [b1|] eqn:H1; simpl in H; [|done].
    apply (IH (Qb ++ [j]) b1 b'); try done.
    + by apply (build_edge_keeps ns0 fuel id b k j).
    + by apply (bfs_edge ns0 fuel id k j done _ d Qa Qb b).
Qed.

Ltac list_mem :=
  repeat (progress (rewrite ?elem_of_app, ?elem_of_cons, ?elem_of_nil in * ));
  tauto.

Lemma bfs_pop ns0 done d Qa Qb ns ft id Q n0 :
  wf_links ns0 → ns0 !! id = Some n0 →
  bfs_inv ns0 done [] d Qa Qb (mkBuild ns ft (id :: Q)) →
  ∃ d' Qa' Qb', dep ns0 id = d' ∧
    bfs_inv ns0 (done ++ [id]) (outs n0).*2 d' Qa' Qb' (mkBuild ns ft Q).
Proof.
  intros Hwf Hn0 Hb.
  assert (Hch : ∀ j, j ∈ (outs n0).*2 → dep ns0 j = (dep ns0 id + 1)%Z).
  { intros j Hj. apply list_elem_of_fmap in Hj as ([k j'] & -> & Hin).
    destruct (wf_edge _ Hwf _ _ _ _ Hn0 Hin) as [_ Hdj].
    by rewrite (dep_lookup _ _ _ Hn0). }
  assert (Hown : ∀ k j, ptr_outnode ns0 id k = Ptr j → j ∈ (outs n0).*2).
  { intros k j Hj. apply ptr_outnode_Ptr in Hj as (n & Hn & Hin).
    rewrite Hn0 in Hn. injection Hn as <-.
    apply list_elem_of_fmap. by exists (k, j). }
  pose proof (bfs_queue _ _ _ _ _ _ _ Hb) as HQ. simpl in HQ.
  pose proof (bfs_Qa _ _ _ _ _ _ _ Hb) as HQa.
  pose proof (bfs_Qb _ _ _ _ _ _ _ Hb) as HQb.
  pose proof (bfs_root _ _ _ _ _ _ _ Hb) as Hroot.
  pose proof (bfs_closed _ _ _ _ _ _ _ Hb) as Hclosed.
  pose proof (bfs_fail _ _ _ _ _ _ _ Hb) as Hfail.
  pose proof (bfs_outputs _ _ _ _ _ _ _ Hb) as Hout.
  simpl in Hfail, Hout. clear Hb.
  destruct Qa as [|x Qa].
  - simpl in HQ. subst Qb. apply Forall_cons in HQb as [Hdid HQb].
    exists (d + 1)%Z, Q, []. split; [done|]. split; simpl.
    + by rewrite app_nil_r.
    + done.
    + done.
    + apply Forall_forall. intros j Hj. rewrite (Hch j Hj). lia.
    + intros k j Hj. specialize (Hroot k j Hj). clear -Hroot. list_mem.
    + intros i k j Hi Hj. apply elem_of_app in Hi as [Hi|Hi].
      * specialize (Hclosed i k j Hi Hj). clear -Hclosed. list_mem.
      * apply list_elem_of_singleton in Hi as ->.
        specialize (Hown k j Hj). clear -Hown. list_mem.
    + intros i f Hi. apply Hfail. clear -Hi. list_mem.
    + intros i Hi. apply Hout. clear -Hi. list_mem.
  - simpl in HQ. injection HQ as <- ->. apply Forall_cons in HQa as [Hdid HQa].
    exists d, Qa, Qb. split; [done|]. split; simpl.
    + done.
    + done.
    + done.
    + apply Forall_forall. intros j Hj. rewrite (Hch j Hj). lia.
    + intros k j Hj. specialize (Hroot k j Hj). clear -Hroot. list_mem.
    + intros i k j Hi Hj. apply elem_of_app in Hi as [Hi|Hi].
      * specialize (Hclosed i k j Hi Hj). clear -Hclosed. list_mem.
      * apply list_elem_of_singleton in Hi as ->.
        specialize (Hown k j Hj). clear -Hown. list_mem.
    + intros i f Hi. apply Hfail. clear -Hi. list_mem.
    + intros i Hi. apply Hout. clear -Hi. list_mem.
Qed.

Lemma bfs_loop ns0 fuel :
  wf_links ns0 → ∀ steps b b' done d Qa Qb,
  build_inv ns0 b → bfs_inv ns0 done [] d Qa Qb b →
  build_loop steps fuel b = Some b' →
  build_inv ns0 b' ∧ ∃ done' d', bfs_inv ns0 done' [] d' [] [] b'.
Proof.
  intros Hwf. induction steps as [|steps IH]; intros b b' done d Qa Qb Hbi Hb H.
  - destruct b as [ns ft [|id Q]]; simpl in H; [|done]. injection H as <-.
    split; [done|]. exists done, d.
    pose proof (bfs_queue _ _ _ _ _ _ _ Hb) as HQ. simpl in HQ.
    symmetry in HQ. apply app_eq_nil in HQ as [-> ->]. done.
  - destruct b as [ns ft [|id Q]]; simpl in H.
    + injection H as <-. split; [done|]. exists done, d.
      pose proof (bfs_queue _ _ _ _ _ _ _ Hb) as HQ. simpl in HQ.
      symmetry in HQ. apply app_eq_nil in HQ as [-> ->]. done.
    + destruct (ns !! id) as [n|] eqn:Hn; simpl in H; [|done].
      destruct (build_edges fuel id (outs n) (mkBuild ns ft Q)) as [b1|] eqn:H1;
        simpl in H; [|done].
      pose proof (bi_grown _ _ Hbi) as Hg. simpl in Hg.
      destruct (Forall2_lookup_r _ _ _ _ _ Hg Hn) as (n0 & Hn0 & (_ & _ & Ho) & _).
      pose proof (bi_queue _ _ Hbi) as Hq. simpl in Hq.
      apply Forall_cons in Hq as [Hid Hq].
      destruct (bfs_pop _ _ _ _ _ _ _ _ _ _ Hwf Hn0 Hb) as (d' & Qa' & Qb' & Hd' & Hb').
      destruct (bfs_edges ns0 fuel id (done ++ [id]) d' Qa' (outs n) Qb'
                  (mkBuild ns ft Q) b1) as [Hbi1 [Qb1 Hb1]]; try done.
      * lia.
      * apply elem_of_app. right. by apply list_elem_of_singleton.
      * rewrite <- Ho. apply Forall_forall. intros [k j] Hin. simpl.
        by apply (edge_lookup _ _ n0).
      * destruct Hbi as [? ? ? ?]. by split.
      * by rewrite <- Ho.
      * by apply (IH b1 b' (done ++ [id]) d' Qa' Qb1).
Qed.

Lemma bfs_all ns0 done d b :
  wf_links ns0 → bfs_inv ns0 done [] d [] [] b →
  ∀ q m, find_from ns0 q root = Ptr m → q ≠ [] → m ∈ done.
Proof.
  intros Hwf Hb. induction q as [|k q IH] using rev_ind; intros m Hm Hne; [done|].
  rewrite find_from_snoc in Hm.
  destruct (find_from ns0 q root) as [|p] eqn:Hp; [done|].
  destruct (decide (q = [])) as [->|Hq].
  - simpl in Hp. injection Hp as <-.
    pose proof (bfs_root _ _ _ _ _ _ _ Hb k m Hm) as Hin. by rewrite !app_nil_r in Hin.
  - pose proof (bfs_closed _ _ _ _ _ _ _ Hb p k m (IH p eq_refl Hq) Hm) as Hin.
    by rewrite !app_nil_r in Hin.
Qed.

Lemma update_automaton_longest fuel a a' :
  wf_automaton a → update_automaton fuel a = Some a' →
  fail_longest (nodes a') (fail_table a') ∧ outputs_complete (nodes a').
Proof.
  intros [[Hl Ho] _] H. destruct (wf_root _ Hl) as (r & Hr & Hdr).
  unfold update_automaton, root in H. rewrite Hr in H. simpl in H.
  rewrite (root_queue _ _ Hl Hr) in H. simpl in H.
  destruct (build_loop fuel fuel _) as [b|] eqn:Hloop; simpl in H; [|done].
  injection H as <-. simpl.
  assert (Hch : ∀ j, j ∈ (outs r).*2 →
            ∃ k, ptr_outnode (nodes a) root k = Ptr j ∧ dep (nodes a) j = 0%Z ∧
                 0 < j < length (nodes a)).
  { intros j Hj. apply list_elem_of_fmap in Hj as ([k j'] & -> & Hin).
    destruct (wf_edge _ Hl _ _ _ _ Hr Hin) as [? Hdj]. exists k.
    split; [by apply (edge_lookup _ _ r)|]. simpl. split; [lia|done]. }
  destruct (bfs_loop (nodes a) fuel Hl fuel
              (mkBuild (nodes a) (replicate (length (nodes a)) 0) (outs r).*2)
              b [] 0%Z (outs r).*2 []) as [Hbi (seen & d & Hb)]; [| |done|].
  { split; simpl; [apply grown_refl|done| |].
    - split; [by rewrite length_replicate|].
      intros i f [-> _]%lookup_replicate.
      split; [apply (wf_root_lt _ Hl)|]. split; [by left|].
      by apply suffix_rel_root.
    - apply Forall_forall. intros j Hj. by destruct (Hch j Hj) as (_ & _ & _ & ?). }
  { split; simpl.
    - by rewrite app_nil_r.
    - apply Forall_forall. intros j Hj. by destruct (Hch j Hj) as (_ & _ & ? & _).
    - done.
    - done.
    - intros k j Hj. rewrite app_nil_r. apply ptr_outnode_Ptr in Hj as (n & Hn & Hin).
      unfold root in Hn. rewrite Hr in Hn. injection Hn as <-.
      apply list_elem_of_fmap. by exists (k, j).
    - intros i k j Hi. by apply elem_of_nil in Hi.
    - intros i f Hi [-> _]%lookup_replicate. rewrite app_nil_r in Hi.
      destruct (Hch i Hi) as (k & Hk & _). exists k, []. split.
      + simpl. by rewrite Hk.
      + exists []. split; [done|]. split; [done|].
        intros q j _ Hq. by rewrite (suffix_nil_inv _ Hq).
    - intros i Hi n qi x qr nr Hn Hqi Hqr Hne Hsuf Hnr Hv. rewrite app_nil_r in Hi.
      destruct (Hch i Hi) as (k & Hk & _).
      assert (qi = [k]) as ->.
      { apply (find_from_inj (nodes a) _ _ i); [done|done|]. simpl. by rewrite Hk. }
      destruct qr as [|y qr]; [done|].
      apply suffix_cons_inv in Hsuf as [Heq|Hsuf].
      + rewrite Heq, Hqi in Hqr. injection Hqr as <-.
        rewrite Hn in Hnr. injection Hnr as <-. by apply (wf_self _ Ho). 
      + by apply suffix_cons_nil_inv in Hsuf. }
  pose proof (bi_grown _ _ Hbi) as Hg. pose proof (grown_links _ _ Hg) as Hsl.
  assert (Hin : ∀ i, 0 < i < length (nodes a) → i ∈ seen).
  { intros i Hi. destruct (wf_path _ Hl i) as [q Hq]; [lia|].
    apply (bfs_all _ _ _ _ Hl Hb q); [done|]. intros ->. simpl in Hq.
    injection Hq as <-. unfold root in Hi. lia. }
  destruct (bi_fail _ _ Hbi) as [Hflen _].
  pose proof (Forall2_length _ _ _ Hg) as Hlen.
  split.
  - intros i f Hi Hf. apply lookup_lt_Some in Hf as Hlt.
    apply (longest_suffix_links (nodes a)); [done|].
    apply (bfs_fail _ _ _ _ _ _ _ Hb); [|done].
    rewrite !app_nil_r. apply Hin. lia.
  - intros i n qi x qr nr Hn Hqi Hqr Hne Hsuf Hnr Hv.
    rewrite (find_from_links _ _ _ _ Hsl) in Hqi.
    rewrite (find_from_links _ _ _ _ Hsl) in Hqr.
    destruct (Forall2_lookup_r _ _ _ _ _ Hg Hnr) as (nr0 & Hnr0 & _ & Hval & _).
    destruct (path_len _ _ _ Hl Hqi) as [Hilt Hdi].
    assert (i ∈ seen ++ [] ++ []) as Hidone.
    { rewrite !app_nil_r. apply Hin. split; [|done].
      destruct (decide (i = 0)) as [->|]; [|lia].
      rewrite (path_root _ _ Hl Hqi) in Hsuf. by apply suffix_nil_inv in Hsuf. }
    apply (bfs_outputs _ _ _ _ _ _ _ Hb i Hidone n qi x qr nr0); try done.
    by rewrite Hval.
Qed.

Lemma reachable_longest a :
  reachable a → uptodate a = true →
  fail_longest (nodes a) (fail_table a) ∧ outputs_complete (nodes a).
Proof.
  intros Hr. destruct Hr as [|a p v Hr|a fuel a' Hr Hu]; intros Hup.
  - done.
  - by rewrite add_uptodate in Hup.
  - apply (update_automaton_longest fuel a); [by apply reachable_wf|done].
Qed.

(** ** The state of the matcher *)

Lemma longest_in_unique ns f g w :
  wf_links ns → longest_in ns f w → longest_in ns g w → f = g.
Proof.
  intros Hwf (qf & Hf & Hsf & Hmf) (qg & Hg & Hsg & Hmg).
  pose proof (Hmf _ _ Hg Hsg) as H1. pose proof (Hmg _ _ Hf Hsf) as H2.
  pose proof (suffix_shorter _ _ _ Hsf Hsg H2) as Hs.
  rewrite (suffix_length_eq _ _ Hs H1) in Hf. congruence.
Qed.

Lemma longest_in_nil ns : longest_in ns root [].
Proof.
  exists []. split; [done|]. split; [done|].
  intros q j _ Hq. by rewrite (suffix_nil_inv _ Hq).
Qed.

(** One turn of the loop of [get_matches]: from the node of the longest
    suffix of the tokens read, the walk and the transition lead to the node
    of the longest suffix of the tokens read with the next one. *)
Lemma scan_step_longest ns ft fuel read elem id id' p :
  wf_links ns → fail_longest ns ft → longest_in ns id read →
  follow_fail fuel ns ft elem id = Some id' →
  goto_node ns id' elem = Some (Ptr p) →
  longest_in ns p (read ++ [elem]).
Proof.
  intros Hwf Hft Hid Hf Hg.
  destruct (follow_fail_longest ns ft elem read (dep ns id) Hwf)
    with (fuel := fuel) (s := id) (f := id') as [Hb _]; try done.
  - intros m f' Hm _ Hf'. by apply Hft.
  - by apply longest_in_bounds.
  - by apply (goto_longest ns elem read id').
Qed.

Lemma scan_complete ns ft fuel :
  wf_trie ns → fail_longest ns ft → outputs_complete ns →
  ∀ text read id acc res,
    longest_in ns id read →
    scan fuel ns ft text (Z.of_nat (length read)) id acc = Some res →
    (∀ m, m ∈ acc → m ∈ res) ∧
    ∀ t1 tok t2 g n r qr nr,
      text = t1 ++ tok :: t2 →
      longest_in ns g (read ++ t1 ++ [tok]) → ns !! g = Some n → value n ≠ "" →
      find_from ns qr root = Ptr r → qr ≠ [] →
      qr `suffix_of` read ++ t1 ++ [tok] →
      ns !! r = Some nr → value nr ≠ "" →
      mkMatch (Z.of_nat (length (read ++ t1 ++ [tok])) - Z.of_nat (length qr))
              (Z.of_nat (length (read ++ t1 ++ [tok]))) (value nr) ∈ res.
Proof.
  intros [Hl Ho] Hft Hc. induction text as [|elem rest IH]; intros read id acc res Hid H.
  - simpl in H. injection H as <-. split; [done|].
    intros t1 tok t2 g n r qr nr Ht. by destruct t1.
  - cbn [scan] in H.
    destruct (follow_fail fuel ns ft elem id) as [id'|] eqn:Hf; simpl in H; [|done].
    destruct (goto_node ns id' elem) as [[|p]|] eqn:Hg; simpl in H; [done| |done].
    destruct (ns !! p) as [node|] eqn:Hp; simpl in H; [|done].
    destruct (if (value node =? "")%string then Some [] else emit ns (Z.of_nat (length read)) node)
      as [new|] eqn:Hnew; simpl in H; [|done].
    rewrite (wf_id _ Hl _ _ Hp) in H.
    pose proof (scan_step_longest _ _ _ _ _ _ _ _ Hl Hft Hid Hf Hg) as Hp'.
    replace (Z.of_nat (length read) + 1)%Z
      with (Z.of_nat (length (read ++ [elem]))) in H
      by (rewrite length_app; simpl; lia).
    destruct (IH (read ++ [elem]) p (acc ++ new) res Hp' H) as [IH1 IH2].
    split.
    { intros m Hm. apply IH1, elem_of_app. by left. }
    intros t1 tok t2 g n r qr nr Ht Hgl Hn Hv Hqr Hne Hsuf Hnr Hvr.
    destruct t1 as [|x t1]; simpl in Ht; [injection Ht as <- <-|injection Ht as <- ->].
    + simpl in Hgl, Hsuf. simpl.
      assert (g = p) as -> by (by apply (longest_in_unique ns g p (read ++ [elem]))).
      rewrite Hp in Hn. injection Hn as <-.
      apply String.eqb_neq in Hv. rewrite Hv in Hnew.
      destruct (emit_total ns (Z.of_nat (length read)) node p Ho Hp) as (new' & Hem & Hin).
      rewrite Hem in Hnew. injection Hnew as ->.
      apply IH1, elem_of_app. right.
      destruct Hp' as (qp & Hqp & Hsp & Hmp).
      pose proof (suffix_shorter _ _ _ Hsuf Hsp (Hmp _ _ Hqr Hsuf)) as Hrp.
      pose proof (Hc p node qp r qr nr Hp Hqp Hqr Hne Hrp Hnr Hvr) as Hrin.
      specialize (Hin r nr Hrin Hnr).
      destruct (path_len _ _ _ Hl Hqr) as [_ Hdr].
      rewrite (dep_lookup _ _ _ Hnr) in Hdr. rewrite Hdr in Hin.
      rewrite length_app. simpl.
      replace (Z.of_nat (length read + 1) - Z.of_nat (length qr))%Z
        with (Z.of_nat (length read) - (Z.of_nat (length qr) - 1))%Z by lia.
      replace (Z.of_nat (length read + 1)) with (Z.of_nat (length read) + 1)%Z by lia.
      done.
    + replace (read ++ (elem :: t1) ++ [tok])
        with ((read ++ [elem]) ++ t1 ++ [tok]) in * by (by rewrite <- !app_assoc).
      by apply (IH2 t1 tok t2 g n r qr nr).
Qed.

(** What a scan appends was pushed in a node with a value, the node of the
    longest suffix of the tokens read so far. *)
Lemma scan_guard ns ft fuel :
  wf_trie ns → fail_longest ns ft →
  ∀ text read id acc res,
    longest_in ns id read →
    scan fuel ns ft text (Z.of_nat (length read)) id acc = Some res →
    ∀ m, m ∈ res → m ∈ acc ∨
      ∃ t1 tok t2 g n,
        text = t1 ++ tok :: t2 ∧ longest_in ns g (read ++ t1 ++ [tok]) ∧
        ns !! g = Some n ∧ value n ≠ "" ∧
        m_end m = Z.of_nat (length (read ++ t1 ++ [tok])).
Proof.
  intros [Hl Ho] Hft. induction text as [|elem rest IH]; intros read id acc res Hid H m Hm.
  - simpl in H. injection H as <-. by left.
  - cbn [scan] in H.
    destruct (follow_fail fuel ns ft elem id) as [id'|] eqn:Hf; simpl in H; [|done].
    destruct (goto_node ns id' elem) as [[|p]|] eqn:Hg; simpl in H; [done| |done].
    destruct (ns !! p) as [node|] eqn:Hp; simpl in H; [|done].
    destruct (if (value node =? "")%string then Some [] else emit ns (Z.of_nat (length read)) node)
      as [new|] eqn:Hnew; simpl in H; [|done].
    rewrite (wf_id _ Hl _ _ Hp) in H.
    pose proof (scan_step_longest _ _ _ _ _ _ _ _ Hl Hft Hid Hf Hg) as Hp'.
    replace (Z.of_nat (length read) + 1)%Z
      with (Z.of_nat (length (read ++ [elem]))) in H
      by (rewrite length_app; simpl; lia).
    destruct (IH (read ++ [elem]) p (acc ++ new) res Hp' H m Hm)
      as [Hin|(t1 & tok & t2 & g & n & -> & Hgl & Hn & Hv & Hend)].
    + apply elem_of_app in Hin as [Hin|Hin]; [by left|]. right.
      exists [], elem, rest, p, node. split; [done|]. split; [done|]. split; [done|].
      destruct (value node =? "")%string eqn:Hv.
      * injection Hnew as <-. by apply elem_of_nil in Hin.
      * apply String.eqb_neq in Hv. split; [done|].
        pose proof (emit_ends _ _ _ _ Hnew) as Hends.
        rewrite Forall_forall in Hends. rewrite (Hends m Hin).
        rewrite length_app. simpl. lia.
    + right. exists (elem :: t1), tok, t2, g, n. split; [done|].
      replace (read ++ (elem :: t1) ++ [tok]) with ((read ++ [elem]) ++ t1 ++ [tok])
        by (by rewrite <- !app_assoc).
      done.
Qed.

(** ** Further properties of the automaton once built *)

Lemma has_pattern_node a q :
  has_pattern a q = true ↔
  ∃ r nr, find_node a q = Ptr r ∧ nodes a !! r = Some nr ∧ value nr ≠ "".
Proof.
  unfold has_pattern. split.
  - destruct (find_node a q) as [|r]; simpl; [done|].
    destruct (nodes a !! r) as [nr|] eqn:Hnr; simpl; [|done].
    intros Hv. exists r, nr. split; [done|]. split; [done|].
    apply String.eqb_neq. by apply negb_true_iff.
  - intros (r & nr & -> & Hnr & Hv). simpl. rewrite Hnr. simpl.
    apply negb_true_iff. by apply String.eqb_neq.
Qed.

Lemma suffix_proper {A} (q : list A) x l :
  q `suffix_of` x :: l → length q < length (x :: l) → q `suffix_of` l.
Proof.
  intros Hs Hlen. destruct q as [|y q]; [apply suffix_nil|].
  apply suffix_cons_inv in Hs as [Heq|?]; [|done]. rewrite Heq in Hlen. lia.
Qed.

(** X15.  The failure table is the table of the longest proper suffixes:
    in an automaton that is up to date, the entry of the node of a path
    [qi] that is not empty is the node of the longest proper suffix of [qi]
    that is a path of the tree. *)
Theorem fail_is_longest_suffix (a : Automaton) (qi : list string) (i : nat) :
  reachable a → uptodate a = true → qi ≠ [] → find_node a qi = Ptr i →
  ∃ f qf, fail_table a !! i = Some f ∧ find_node a qf = Ptr f ∧
          qf `suffix_of` qi ∧ length qf < length qi ∧
          ∀ q, q `suffix_of` qi → length q < length qi →
               find_node a q ≠ Null → length q ≤ length qf.
Proof.
  intros Hr Hup Hne Hi. destruct (reachable_longest a Hr Hup) as [Hft _].
  apply reachable_wf in Hr. destruct (wf_nodes _ Hr) as [Hl _].
  destruct (wf_fail _ Hr Hup) as [Hlen _].
  destruct (path_len _ _ _ Hl Hi) as [Hilt _].
  destruct (lookup_lt_is_Some_2 (fail_table a) i) as [f Hf]; [lia|].
  assert (0 < i) as Hpos.
  { destruct (decide (i = 0)) as [->|]; [|lia]. by apply path_root in Hi. }
  destruct (Hft i f Hpos Hf) as (tok & rest & Hi' & qf & Hqf & Hsuf & Hmax).
  assert (qi = tok :: rest) as -> by (by apply (find_from_inj (nodes a) _ _ i)).
  exists f, qf. split; [done|]. split; [done|].
  split; [by apply suffix_cons_r|]. apply suffix_length in Hsuf as Hle.
  split; [simpl; lia|]. intros q Hq Hlt Hfind.
  destruct (find_node a q) as [|j] eqn:Hj; [done|].
  apply (Hmax q j Hj). by apply (suffix_proper q tok rest).
Qed.

Lemma fail_is_longest_suffix_witness :
  reachable ushers_built ∧ uptodate ushers_built = true ∧
  find_node ushers_built ["s"; "h"; "e"] = Ptr 5 ∧
  ∃ f qf, fail_table ushers_built !! 5 = Some f ∧ find_node ushers_built qf = Ptr f ∧
          qf `suffix_of` ["s"; "h"; "e"] ∧ length qf < 3 ∧
          ∀ q, q `suffix_of` ["s"; "h"; "e"] → length q < 3 →
               find_node ushers_built q ≠ Null → length q ≤ length qf.
Proof.
  split; [apply ushers_built_reachable|]. split; [reflexivity|].
  split; [reflexivity|].
  exact (fail_is_longest_suffix ushers_built ["s"; "h"; "e"] 5
           ushers_built_reachable eq_refl ltac:(discriminate) eq_refl).
Defined.

(** X16.  After the builder the outputs are complete: in an automaton that
    is up to date, the outputs of the node of a path [q] hold the node of
    every pattern, not empty, that is a suffix of [q]. *)
Theorem outputs_hold_suffix_patterns (a : Automaton) (q qr : list string)
    (i : nat) :
  reachable a → uptodate a = true → find_node a q = Ptr i →
  qr ≠ [] → qr `suffix_of` q → has_pattern a qr = true →
  ∃ n r, nodes a !! i = Some n ∧ find_node a qr = Ptr r ∧ r ∈ matches n.
Proof.
  intros Hr Hup Hi Hne Hsuf Hhas. destruct (reachable_longest a Hr Hup) as [_ Hc].
  apply reachable_wf in Hr. destruct (wf_nodes _ Hr) as [Hl _].
  destruct (path_len _ _ _ Hl Hi) as [Hilt _].
  destruct (lookup_lt_is_Some_2 _ _ Hilt) as [n Hn].
  apply has_pattern_node in Hhas as (r & nr & Hqr & Hnr & Hv).
  exists n, r. split; [done|]. split; [done|].
  by apply (Hc i n q r qr nr).
Qed.

Lemma outputs_hold_suffix_patterns_witness :
  reachable ushers_built ∧ uptodate ushers_built = true ∧
  find_node ushers_built ["s"; "h"; "e"] = Ptr 5 ∧ ["h"; "e"] ≠ [] ∧
  ["h"; "e"] `suffix_of` ["s"; "h"; "e"] ∧ has_pattern ushers_built ["h"; "e"] = true ∧
  ∃ n r, nodes ushers_built !! 5 = Some n ∧ find_node ushers_built ["h"; "e"] = Ptr r ∧
         r ∈ matches n.
Proof.
  assert (Hs : ["h"; "e"] `suffix_of` ["s"; "h"; "e"]) by (by exists ["s"]).
  split; [apply ushers_built_reachable|]. split; [reflexivity|].
  split; [reflexivity|]. split; [discriminate|]. split; [exact Hs|].
  split; [reflexivity|].
  exact (outputs_hold_suffix_patterns ushers_built ["s"; "h"; "e"] ["h"; "e"] 5
           ushers_built_reachable eq_refl eq_refl ltac:(discriminate) Hs eq_refl).
Defined.

Lemma refresh_longest fuel a a1 :
  reachable a → refresh fuel a = Some a1 →
  wf_automaton a1 ∧ Forall2 grown (nodes a) (nodes a1) ∧
  fail_longest (nodes a1) (fail_table a1) ∧ outputs_complete (nodes a1).
Proof.
  intros Hr H. pose proof (reachable_wf _ Hr) as Hwf.
  destruct (refresh_inv _ _ _ Hwf H) as (Hwf1 & Hup1 & Hg).
  split; [done|]. split; [done|]. apply reachable_longest; [|done].
  unfold refresh in H. destruct (uptodate a); [by injection H as <-|].
  by apply (reach_build a fuel).
Qed.

(** X17.  An occurrence is reported when the state reached is a pattern:
    if the pattern [q], not empty, stands in the text after [l1], and the
    longest suffix [s] of the text up to the end of [q] that is a path of
    the tree is a pattern itself, [get_matches] reports [q] there. *)
Theorem occurrence_reported (ro : MatchVector → MatchVector) (a : Automaton)
    (fuel : nat) (l1 q l2 s : list string) (a' : Automaton) (ms : MatchVector) :
  reachable a → q ≠ [] → has_pattern a q = true →
  s `suffix_of` l1 ++ q → has_pattern a s = true →
  (∀ s', s' `suffix_of` l1 ++ q → find_node a s' ≠ Null → length s' ≤ length s) →
  get_matches ro fuel (l1 ++ q ++ l2) false a = Some (a', ms) →
  mkMatch (Z.of_nat (length l1)) (Z.of_nat (length (l1 ++ q))) (get_value a q) ∈ ms.
Proof.
  intros Hr Hne Hq Hs Hhs Hmax H. unfold get_matches in H.
  destruct (refresh fuel a) as [a1|] eqn:E1; simpl in H; [|done].
  destruct (collect fuel (l1 ++ q ++ l2) a1) as [ms1|] eqn:E2; simpl in H; [|done].
  injection H as _ <-.
  destruct (refresh_longest _ _ _ Hr E1) as (Hwf1 & Hg & Hft & Hc).
  destruct (wf_nodes _ Hwf1) as [Hl Ho]. destruct (wf_root _ Hl) as (r0 & Hroot & _).
  unfold collect, root in E2. rewrite Hroot in E2. simpl in E2.
  rewrite (wf_id _ Hl _ _ Hroot) in E2.
  assert (Hqs : ∀ x, find_node a1 x = find_node a x ∧
                     has_pattern a1 x = has_pattern a x ∧
                     get_value a1 x = get_value a x).
  { intros x. destruct (grown_queries a a1 x Hg) as (? & ? & ? & _). done. }
  rewrite <- (proj1 (proj2 (Hqs q))) in Hq. rewrite <- (proj1 (proj2 (Hqs s))) in Hhs.
  apply has_pattern_node in Hq as (r & nr & Hqr & Hnr & Hvr).
  apply has_pattern_node in Hhs as (g & n & Hqg & Hn & Hvn).
  assert (Hval : get_value a q = value nr).
  { rewrite <- (proj2 (proj2 (Hqs q))). unfold get_value. rewrite Hqr. simpl.
    by rewrite Hnr. }
  destruct q as [|tok q' _] using rev_ind; [done|].
  destruct (scan_complete (nodes a1) (fail_table a1) fuel (wf_nodes _ Hwf1) Hft Hc
              (l1 ++ (q' ++ [tok]) ++ l2) [] 0 [] ms1 (longest_in_nil _) E2)
    as [_ Hin].
  specialize (Hin (l1 ++ q') tok l2 g n r (q' ++ [tok]) nr).
  simpl in Hin. rewrite <- !app_assoc in Hin. simpl in Hin.
  rewrite Hval.
  replace (Z.of_nat (length l1))
    with (Z.of_nat (length (l1 ++ q' ++ [tok])) - Z.of_nat (length (q' ++ [tok])))%Z
    by (rewrite !length_app; simpl; lia).
  apply Hin; try done.
  - exists s. split; [done|]. split; [done|]. intros x j Hx Hsx.
    apply Hmax; [done|]. rewrite <- (proj1 (Hqs x)). unfold find_node. by rewrite Hx.
  - by apply suffix_app_r.
Qed.

Lemma occurrence_reported_witness :
  reachable ushers ∧ ["h"; "e"] ≠ [] ∧ has_pattern ushers ["h"; "e"] = true ∧
  ["s"; "h"; "e"] `suffix_of` ["u"; "s"] ++ ["h"; "e"] ∧
  has_pattern ushers ["s"; "h"; "e"] = true ∧
  (∀ s', s' `suffix_of` ["u"; "s"] ++ ["h"; "e"] → find_node ushers s' ≠ Null →
         length s' ≤ length ["s"; "h"; "e"]) ∧
  get_matches id 16 (["u"; "s"] ++ ["h"; "e"] ++ ["r"; "s"]) false ushers
    = Some (ushers_built,
            [mkMatch 1 4 "she"; mkMatch 2 4 "he"; mkMatch 2 6 "hers"]) ∧
  mkMatch 2 4 "he" ∈ [mkMatch 1 4 "she"; mkMatch 2 4 "he"; mkMatch 2 6 "hers"].
Proof.
  assert (Hs : ["s"; "h"; "e"] `suffix_of` ["u"; "s"] ++ ["h"; "e"])
    by (by exists ["u"]).
  assert (Hmax : ∀ s', s' `suffix_of` ["u"; "s"] ++ ["h"; "e"] →
            find_node ushers s' ≠ Null → length s' ≤ length ["s"; "h"; "e"]).
  { intros s' Hs' Hf. destruct (decide (length s' ≤ 3)) as [?|Hn]; [done|].
    exfalso. apply suffix_length in Hs' as Hlen. simpl in Hlen.
    rewrite (suffix_length_eq _ _ Hs') in Hf by (simpl; lia). by apply Hf. }
  assert (H : get_matches id 16 (["u"; "s"] ++ ["h"; "e"] ++ ["r"; "s"]) false ushers
              = Some (ushers_built,
                      [mkMatch 1 4 "she"; mkMatch 2 4 "he"; mkMatch 2 6 "hers"]))
    by (vm_compute; reflexivity).
  split; [apply ushers_reachable|]. split; [discriminate|]. split; [reflexivity|].
  split; [exact Hs|]. split; [reflexivity|]. split; [exact Hmax|].
  split; [exact H|].
  exact (occurrence_reported id ushers 16 ["u"; "s"] ["h"; "e"] ["r"; "s"]
           ["s"; "h"; "e"] ushers_built _ ushers_reachable ltac:(discriminate)
           eq_refl Hs eq_refl Hmax H).
Defined.

(** X18.  Matches are reported in pattern states only: every match that
    [get_matches] returns ends at a position where the longest suffix of
    the text read that is a path of the tree is a pattern. *)
Theorem reported_where_state_is_pattern (ro : MatchVector → MatchVector)
    (a : Automaton) (fuel : nat) (text : list string) (ex : bool)
    (a' : Automaton) (ms : MatchVector) (m : Match) :
  (∀ l x, x ∈ ro l → x ∈ l) → reachable a →
  get_matches ro fuel text ex a = Some (a', ms) → m ∈ ms →
  ∃ l1 s l2, text = l1 ++ s ++ l2 ∧ m_end m = Z.of_nat (length (l1 ++ s)) ∧
    has_pattern a s = true ∧
    ∀ s', s' `suffix_of` l1 ++ s → find_node a s' ≠ Null → length s' ≤ length s.
Proof.
  intros Hro Hr H Hm. unfold get_matches in H.
  destruct (refresh fuel a) as [a1|] eqn:E1; simpl in H; [|done].
  destruct (collect fuel text a1) as [ms1|] eqn:E2; simpl in H; [|done].
  injection H as _ <-.
  assert (Hm1 : m ∈ ms1) by (destruct ex; [by apply Hro|done]).
  destruct (refresh_longest _ _ _ Hr E1) as (Hwf1 & Hg & Hft & Hc).
  destruct (wf_nodes _ Hwf1) as [Hl Ho]. destruct (wf_root _ Hl) as (r0 & Hroot & _).
  unfold collect, root in E2. rewrite Hroot in E2. simpl in E2.
  rewrite (wf_id _ Hl _ _ Hroot) in E2.
  destruct (scan_guard (nodes a1) (fail_table a1) fuel (wf_nodes _ Hwf1) Hft
              text [] 0 [] ms1 (longest_in_nil _) E2 m Hm1)
    as [Hin|(t1 & tok & t2 & g & n & -> & (qg & Hqg & [l1 Hsplit] & Hmax) & Hn & Hv & Hend)].
  { by apply elem_of_nil in Hin. }
  simpl in Hsplit, Hend, Hmax.
  exists l1, qg, t2. split.
  { rewrite app_assoc, <- Hsplit, <- app_assoc. done. }
  rewrite <- Hsplit. split; [done|].
  destruct (grown_queries a a1 qg Hg) as (_ & _ & <- & _). split.
  - apply has_pattern_node. by exists g, n.
  - intros s' Hs' Hf. destruct (grown_queries a a1 s' Hg) as (Hf' & _).
    rewrite <- Hf' in Hf. unfold find_node in Hf.
    destruct (find_from (nodes a1) s' root) as [|j] eqn:Hj; [done|].
    apply (Hmax s' j Hj). done.
Qed.

Lemma reported_where_state_is_pattern_witness :
  (∀ (l : MatchVector) x, x ∈ id l → x ∈ l) ∧ reachable ushers ∧
  get_matches id 16 ["u"; "s"; "h"; "e"; "r"; "s"] false ushers
    = Some (ushers_built,
            [mkMatch 1 4 "she"; mkMatch 2 4 "he"; mkMatch 2 6 "hers"]) ∧
  mkMatch 2 4 "he" ∈ [mkMatch 1 4 "she"; mkMatch 2 4 "he"; mkMatch 2 6 "hers"] ∧
  ∃ l1 s l2, ["u"; "s"; "h"; "e"; "r"; "s"] = l1 ++ s ++ l2 ∧
    4%Z = Z.of_nat (length (l1 ++ s)) ∧ has_pattern ushers s = true ∧
    ∀ s', s' `suffix_of` l1 ++ s → find_node ushers s' ≠ Null →
          length s' ≤ length s.
Proof.
  assert (Hro : ∀ (l : MatchVector) x, x ∈ id l → x ∈ l) by done.
  assert (H : get_matches id 16 ["u"; "s"; "h"; "e"; "r"; "s"] false ushers
              = Some (ushers_built,
                      [mkMatch 1 4 "she"; mkMatch 2 4 "he"; mkMatch 2 6 "hers"]))
    by (vm_compute; reflexivity).
  assert (Hm : mkMatch 2 4 "he"
               ∈ [mkMatch 1 4 "she"; mkMatch 2 4 "he"; mkMatch 2 6 "hers"])
    by (apply elem_of_cons; right; apply elem_of_cons; by left).
  split; [exact Hro|]. split; [apply ushers_reachable|]. split; [exact H|].
  split; [exact Hm|].
  exact (reported_where_state_is_pattern id ushers 16 _ false ushers_built _
           (mkMatch 2 4 "he") Hro ushers_reachable H Hm).
Defined.

Lemma longest_in_exists ns w : ∃ g, longest_in ns g w.
Proof.
  induction w as [|x w [g (qf & Hqf & Hsuf & Hmax)]]; [exists root; apply longest_in_nil|].
  destruct (find_from ns (x :: w) root) as [|g'] eqn:E.
  - exists g, qf. split; [done|]. split; [by apply suffix_cons_r|].
    intros q j Hq Hs. destruct q as [|y q]; [simpl; lia|].
    apply suffix_cons_inv in Hs as [Heq|Hs]; [congruence|]. by apply (Hmax _ j).
  - exists g', (x :: w). split; [done|]. split; [done|].
    intros q j _ Hs. by apply suffix_length.
Qed.

(** X19.  When every node with outputs has a value of its own in the
    automaton that the call leaves, [get_matches] reports every occurrence
    of every pattern that is not empty. *)
Theorem all_occurrences_reported (ro : MatchVector → MatchVector)
    (a : Automaton) (fuel : nat) (l1 q l2 : list string) (a' : Automaton)
    (ms : MatchVector) :
  reachable a → q ≠ [] → has_pattern a q = true →
  get_matches ro fuel (l1 ++ q ++ l2) false a = Some (a', ms) →
  (∀ i n, nodes a' !! i = Some n → matches n ≠ [] → value n ≠ "") →
  mkMatch (Z.of_nat (length l1)) (Z.of_nat (length (l1 ++ q))) (get_value a q) ∈ ms.
Proof.
  intros Hr Hne Hq H Hall. unfold get_matches in H.
  destruct (refresh fuel a) as [a1|] eqn:E1; simpl in H; [|done].
  destruct (collect fuel (l1 ++ q ++ l2) a1) as [ms1|] eqn:E2; simpl in H; [|done].
  injection H as <- <-.
  destruct (refresh_longest _ _ _ Hr E1) as (Hwf1 & Hg & Hft & Hc).
  destruct (wf_nodes _ Hwf1) as [Hl Ho]. destruct (wf_root _ Hl) as (r0 & Hroot & _).
  unfold collect, root in E2. rewrite Hroot in E2. simpl in E2.
  rewrite (wf_id _ Hl _ _ Hroot) in E2.
  destruct (grown_queries a a1 q Hg) as (_ & Hval & Hhas & _).
  rewrite <- Hhas in Hq. rewrite <- Hval.
  apply has_pattern_node in Hq as (r & nr & Hqr & Hnr & Hvr).
  assert (Hv : get_value a1 q = value nr).
  { unfold get_value. rewrite Hqr. simpl. by rewrite Hnr. }
  destruct (longest_in_exists (nodes a1) (l1 ++ q)) as [g Hlg].
  pose proof Hlg as (qg & Hqg & Hsg & Hmax).
  destruct (path_len _ _ _ Hl Hqg) as [Hglt _].
  destruct (lookup_lt_is_Some_2 _ _ Hglt) as [n Hn].
  assert (Hsq : q `suffix_of` l1 ++ q) by (by apply suffix_app_r).
  assert (Hrin : r ∈ matches n).
  { apply (Hc g n qg r q nr); try done.
    apply (suffix_shorter _ _ (l1 ++ q)); [done|done|]. by apply (Hmax q r). }
  assert (Hvn : value n ≠ "").
  { apply (Hall g n Hn). intros Hnil. rewrite Hnil in Hrin. by apply elem_of_nil in Hrin. }
  destruct q as [|tok q' _] using rev_ind; [done|].
  destruct (scan_complete (nodes a1) (fail_table a1) fuel (wf_nodes _ Hwf1) Hft Hc
              (l1 ++ (q' ++ [tok]) ++ l2) [] 0 [] ms1 (longest_in_nil _) E2)
    as [_ Hin].
  specialize (Hin (l1 ++ q') tok l2 g n r (q' ++ [tok]) nr).
  simpl in Hin. rewrite <- !app_assoc in Hin. simpl in Hin.
  rewrite Hv.
  replace (Z.of_nat (length l1))
    with (Z.of_nat (length (l1 ++ q' ++ [tok])) - Z.of_nat (length (q' ++ [tok])))%Z
    by (rewrite !length_app; simpl; lia).
  by apply Hin.
Qed.


Lemma all_occurrences_reported_witness :
  reachable ushers ∧ ["h"; "e"] ≠ [] ∧ has_pattern ushers ["h"; "e"] = true ∧
  get_matches id 16 (["u"; "s"] ++ ["h"; "e"] ++ ["r"; "s"]) false ushers
    = Some (ushers_built,
            [mkMatch 1 4 "she"; mkMatch 2 4 "he"; mkMatch 2 6 "hers"]) ∧
  (∀ i n, nodes ushers_built !! i = Some n → matches n ≠ [] → value n ≠ "") ∧
  mkMatch 2 4 "he" ∈ [mkMatch 1 4 "she"; mkMatch 2 4 "he"; mkMatch 2 6 "hers"].
Proof.
  assert (H : get_matches id 16 (["u"; "s"] ++ ["h"; "e"] ++ ["r"; "s"]) false ushers
              = Some (ushers_built,
                      [mkMatch 1 4 "she"; mkMatch 2 4 "he"; mkMatch 2 6 "hers"]))
    by (vm_compute; reflexivity).
  assert (Hall : ∀ i n, nodes ushers_built !! i = Some n → matches n ≠ [] →
                        value n ≠ "").
  { assert (HF : Forall (λ n, matches n ≠ [] → value n ≠ "") (nodes ushers_built)).
    { apply (bool_decide_unpack _). vm_compute. exact I. }
    intros i n Hn. by apply (Forall_lookup_1 _ _ _ _ HF Hn). }
  split; [apply ushers_reachable|]. split; [discriminate|]. split; [reflexivity|].
  split; [exact H|]. split; [exact Hall|].
  exact (all_occurrences_reported id ushers 16 ["u"; "s"] ["h"; "e"] ["r"; "s"]
           ushers_built _ ushers_reachable ltac:(discriminate) eq_refl H Hall).
Defined.

(** ** [has_prefix] and the paths of the tree *)

(** [find_from] finds the node that the edges lead to. *)
Lemma find_from_reached ns q : ∀ i t,
  wf_links ns → i < length ns →
  find_from ns q i = Ptr t ↔ spec_reached ns i q t.
Proof.
  intros i t Hwf Hi. split.
  - revert i Hi. induction q as [|k q IH]; intros i Hi H.
    + simpl in H. injection H as <-. by constructor.
    + simpl in H. destruct (ptr_outnode ns i k) as [|j] eqn:Hk; [done|].
      apply ptr_outnode_Ptr in Hk as (n & Hn & Hin).
      destruct (wf_edge _ Hwf _ _ _ _ Hn Hin) as [[_ Hj] _].
      apply (spec_reached_cons ns i n k j); [done|done|]. by apply IH.
  - induction 1 as [i _|i n k j q t Hn Hin _ IH]; [done|].
    simpl. rewrite (edge_lookup _ _ _ _ _ Hwf Hn Hin).
    apply IH. by destruct (wf_edge _ Hwf _ _ _ _ Hn Hin) as [[_ ?] _].
Qed.

(** The paths without a node: not empty, and no prefix of a pattern that
    was inserted. *)
Lemma find_node_absent h a q :
  built_from h a →
  find_node a q = Null ↔ q ≠ [] ∧ ∀ p v s, (p, v) ∈ h → p ≠ q ++ s.
Proof.
  intros Hb. induction Hb as [|h a p v Hb IH|h a fuel a' Hb IH Hu].
  - unfold find_node. destruct q as [|k q]; simpl.
    + split; [done|]. by intros [? _].
    + split; [|done]. intros _. split; [done|].
      intros p v s Hin. by apply elem_of_nil in Hin.
  - apply built_from_reachable, reachable_wf in Hb.
    pose proof (add_find_iff p v a q Hb) as Hiff. split.
    + intros Hnull.
      assert (Hold : find_node a q = Null).
      { destruct (find_node a q) eqn:E; [done|]. exfalso.
        apply (proj2 Hiff); [by left|done]. }
      destruct (proj1 IH Hold) as [Hne Hno]. split; [done|].
      intros p' v' s Hin ->. apply elem_of_app in Hin as [Hin|Hin].
      * by apply (Hno (q ++ s) v' s).
      * apply list_elem_of_singleton in Hin as [= <- <-].
        apply (proj2 Hiff); [right; by exists s|done].
    + intros [Hne Hno].
      destruct (find_node (add p v a) q) as [|n] eqn:E; [done|]. exfalso.
      destruct (proj1 Hiff) as [Hold|[s ->]]; [done| |].
      * apply Hold, IH. split; [done|]. intros p' v' s Hin.
        apply (Hno p' v' s), elem_of_app. by left.
      * apply (Hno (q ++ s) v s); [|done]. apply elem_of_app. right.
        by apply list_elem_of_singleton.
  - apply built_from_reachable, reachable_wf in Hb.
    destruct (update_automaton_inv _ _ _ Hb Hu) as (_ & _ & Hg & _).
    by rewrite (proj1 (grown_queries a a' q Hg)).
Qed.

(** C6.  [has_prefix] tells that the path is absent: it is true exactly
    when no node is reached by following [prefix] from the root along the
    edges of the tree, which is when [find_node] finds no node, and false
    exactly when a node is reached.  In terms of what was inserted, it is
    true exactly when [prefix] is not empty and is a prefix of no pattern
    inserted; it is false for the empty path and for every prefix of a
    pattern just inserted. *)
Theorem has_prefix_absent (a : Automaton) (prefix : list string) :
  reachable a →
  (has_prefix a prefix = true ↔
   ¬ ∃ t, spec_reached (nodes a) root prefix t) ∧
  (has_prefix a prefix = false ↔ ∃ t, spec_reached (nodes a) root prefix t) ∧
  (has_prefix a prefix = true ↔ find_node a prefix = Null) ∧
  (∀ h, built_from h a →
     (has_prefix a prefix = true ↔
      prefix ≠ [] ∧ ∀ p v s, (p, v) ∈ h → p ≠ prefix ++ s)) ∧
  has_prefix a [] = false ∧
  (∀ s v, has_prefix (add (prefix ++ s) v a) prefix = false).
Proof.
  intros Hr. pose proof (reachable_wf _ Hr) as Hwf.
  destruct (wf_nodes _ Hwf) as [Hl _]. pose proof (wf_root_lt _ Hl) as Hroot.
  assert (Hreach : ∀ t, find_node a prefix = Ptr t ↔
                        spec_reached (nodes a) root prefix t).
  { intros t. by apply find_from_reached. }
  assert (Hnull : has_prefix a prefix = true ↔ find_node a prefix = Null).
  { unfold has_prefix. by destruct (find_node a prefix). }
  split; [|split; [|split; [done|split; [|split]]]].
  - rewrite Hnull. split.
    + intros Hn [t Ht]. apply Hreach in Ht. congruence.
    + intros Hno. destruct (find_node a prefix) as [|t] eqn:E; [done|].
      exfalso. apply Hno. exists t. by apply Hreach.
  - unfold has_prefix. split.
    + destruct (find_node a prefix) as [|t] eqn:E; [done|].
      intros _. exists t. by apply Hreach.
    + intros [t Ht]. apply Hreach in Ht. by rewrite Ht.
  - intros h Hb. rewrite Hnull. by apply find_node_absent.
  - done.
  - intros s v. by apply has_prefix_of_inserted.
Qed.

Lemma has_prefix_absent_witness :
  reachable ushers ∧
  (has_prefix ushers ["h"; "x"] = true ↔
   ¬ ∃ t, spec_reached (nodes ushers) root ["h"; "x"] t) ∧
  (has_prefix ushers ["h"; "x"] = false ↔
   ∃ t, spec_reached (nodes ushers) root ["h"; "x"] t) ∧
  (has_prefix ushers ["h"; "x"] = true ↔ find_node ushers ["h"; "x"] = Null) ∧
  (∀ h, built_from h ushers →
     (has_prefix ushers ["h"; "x"] = true ↔
      ["h"; "x"] ≠ [] ∧ ∀ p v s, (p, v) ∈ h → p ≠ ["h"; "x"] ++ s)) ∧
  has_prefix ushers [] = false ∧
  (∀ s v, has_prefix (add (["h"; "x"] ++ s) v ushers) ["h"; "x"] = false).
Proof.
  split; [apply ushers_reachable|].
  exact (has_prefix_absent ushers ["h"; "x"] ushers_reachable).
Defined.

(** ** Outputs that outlive an insertion *)

(** C4 does not hold of the code.  [add] clears [uptodate] and the next call
    of [get_matches] runs the builder before the scan, but the builder only
    appends to the outputs, and what an earlier build copied stays.  After
    the same five insertions, the call on the automaton that a call had
    built before the last insertion reports [h e] in [u s h e r s] twice,
    and the call on the automaton never built reports it once: the result
    is computed from outputs older than the last insertion. *)
Theorem match_after_insert_keeps_old_outputs (ro : MatchVector → MatchVector) :
  get_matches ro 16 ["u"; "s"; "h"; "e"; "r"; "s"] false ushers
    = Some (ushers_built,
            [mkMatch 1 4 "she"; mkMatch 2 4 "he"; mkMatch 2 6 "hers"]) ∧
  built_from ushers_hi_history ushers_hi ∧
  built_from ushers_hi_history ushers_built_hi ∧
  uptodate ushers_hi = false ∧ uptodate ushers_built_hi = false ∧
  matches <$> nodes ushers_hi !! 5 = Some [5] ∧
  matches <$> nodes ushers_built_hi !! 5 = Some [5; 2] ∧
  snd <$> get_matches ro 16 ["u"; "s"; "h"; "e"; "r"; "s"] false ushers_hi
    = Some [mkMatch 1 4 "she"; mkMatch 2 4 "he"; mkMatch 2 6 "hers"] ∧
  snd <$> get_matches ro 16 ["u"; "s"; "h"; "e"; "r"; "s"] false ushers_built_hi
    = Some [mkMatch 1 4 "she"; mkMatch 2 4 "he"; mkMatch 2 4 "he";
            mkMatch 2 6 "hers"] ∧
  (∀ fuel,
     snd <$> get_matches ro fuel ["u"; "s"; "h"; "e"; "r"; "s"] false ushers_hi
       = None ∨
     snd <$> get_matches ro fuel ["u"; "s"; "h"; "e"; "r"; "s"] false ushers_hi
       = Some [mkMatch 1 4 "she"; mkMatch 2 4 "he"; mkMatch 2 6 "hers"]) ∧
  (∀ fuel,
     snd <$> get_matches ro fuel ["u"; "s"; "h"; "e"; "r"; "s"] false
               ushers_built_hi = None ∨
     snd <$> get_matches ro fuel ["u"; "s"; "h"; "e"; "r"; "s"] false
               ushers_built_hi
       = Some [mkMatch 1 4 "she"; mkMatch 2 4 "he"; mkMatch 2 4 "he";
               mkMatch 2 6 "hers"]) ∧
  get_matches ro 16 ["u"; "s"; "h"; "e"; "r"; "s"] false ushers_built_hi
    = Some (ushers_built_hi_rebuilt,
            [mkMatch 1 4 "she"; mkMatch 2 4 "he"; mkMatch 2 4 "he";
             mkMatch 2 6 "hers"]) ∧
  uptodate ushers_built_hi_rebuilt = true ∧
  matches <$> nodes ushers_built_hi_rebuilt !! 5 = Some [5; 2; 2] ∧
  ¬ NoDup [mkMatch 1 4 "she"; mkMatch 2 4 "he"; mkMatch 2 4 "he";
           mkMatch 2 6 "hers"].
Proof.
  assert (Hfuel : ∀ a r,
            snd <$> get_matches ro 16 ["u"; "s"; "h"; "e"; "r"; "s"] false a
              = Some r →
            ∀ fuel,
              snd <$> get_matches ro fuel ["u"; "s"; "h"; "e"; "r"; "s"] false a
                = None ∨
              snd <$> get_matches ro fuel ["u"; "s"; "h"; "e"; "r"; "s"] false a
                = Some r).
  { intros a r H16 fuel.
    destruct (get_matches ro fuel ["u"; "s"; "h"; "e"; "r"; "s"] false a)
      as [x|] eqn:E; [right|by left].
    apply (get_matches_mono _ _ (fuel `max` 16)) in E; [|lia].
    destruct (get_matches ro 16 ["u"; "s"; "h"; "e"; "r"; "s"] false a)
      as [x'|] eqn:E'; [|done].
    apply (get_matches_mono _ _ (fuel `max` 16)) in E'; [|lia].
    rewrite E in E'. injection E' as ->. exact H16. }
  assert (Hfresh :
    snd <$> get_matches ro 16 ["u"; "s"; "h"; "e"; "r"; "s"] false ushers_hi
      = Some [mkMatch 1 4 "she"; mkMatch 2 4 "he"; mkMatch 2 6 "hers"])
    by (vm_compute; reflexivity).
  assert (Hstale :
    snd <$> get_matches ro 16 ["u"; "s"; "h"; "e"; "r"; "s"] false ushers_built_hi
      = Some [mkMatch 1 4 "she"; mkMatch 2 4 "he"; mkMatch 2 4 "he";
              mkMatch 2 6 "hers"])
    by (vm_compute; reflexivity).
  split; [vm_compute; reflexivity|].
  split.
  { apply (built_add ushers_history ushers ["h"; "i"] "hi").
    exact (built_from_inserted ushers_history). }
  split.
  { apply (built_add ushers_history ushers_built ["h"; "i"] "hi").
    apply (built_build _ ushers 16); [|apply ushers_built_eq].
    exact (built_from_inserted ushers_history). }
  split; [vm_compute; reflexivity|]. split; [vm_compute; reflexivity|].
  split; [vm_compute; reflexivity|]. split; [vm_compute; reflexivity|].
  split; [exact Hfresh|]. split; [exact Hstale|].
  split; [exact (Hfuel _ _ Hfresh)|]. split; [exact (Hfuel _ _ Hstale)|].
  split; [vm_compute; reflexivity|]. split; [vm_compute; reflexivity|].
  split; [vm_compute; reflexivity|].
  intros Hnd. apply NoDup_cons in Hnd as [_ Hnd].
  apply NoDup_cons in Hnd as [Hin _]. apply Hin. by left.
Qed.
